(** * apid-core data service: registry, transactions, result-set mapper and
  tracing wrapper (data/data.go, data/wrap), as a shallow embedding.

  Go values are modelled as follows.
  - strings are [string]; an [error] is its message;
  - a pointer that may be nil is an [option]; pointer identity of an
    allocated [*ApidDb] is a natural-number address taken from an
    allocation counter kept in the state;
  - the package-level [dbMap] is a [gmap string (option dbMapInfo)]: Go
    stores nil pointers in the map ([dbMap[versionedID] = nil]), which is
    different from deleting the key;
  - locks are modelled by the atomicity of the sections they protect; a
    call that can block reports it in its outcome. *)

From Stdlib Require Import ZArith Ascii String.
From stdpp Require Import gmap strings list.

(** ** Go's [path] package (standard library, lexical path processing) *)

Module GoPath.

Definition is_slash (c : ascii) : bool := Ascii.eqb c "/"%char.

(** The elements of [s] between slashes; never the empty list. *)
Fixpoint split (s : string) : list string :=
  match s with
  | EmptyString => [EmptyString]
  | String c r =>
      if is_slash c then EmptyString :: split r
      else match split r with
           | h :: t => String c h :: t
           | [] => [String c EmptyString]
           end
  end.

Fixpoint join (l : list string) : string :=
  match l with
  | [] => EmptyString
  | [e] => e
  | e :: r => e +:+ "/" +:+ join r
  end.

(** One element of the scan of [path.Clean]; [out] is the output so far,
    last element first.  Empty and "." elements are dropped; ".." removes
    the element before it when there is one that is not "..", is dropped
    at the root, and is kept otherwise. *)
Definition clean_step (rooted : bool) (out : list string) (e : string)
  : list string :=
  if String.eqb e "" then out
  else if String.eqb e "." then out
  else if String.eqb e ".." then
    match out with
    | top :: rest => if String.eqb top ".." then e :: out else rest
    | [] => if rooted then [] else [e]
    end
  else e :: out.

Definition rooted (s : string) : bool :=
  match s with
  | String c _ => is_slash c
  | EmptyString => false
  end.

(** [path.Clean] *)
Definition Clean (s : string) : string :=
  if String.eqb s "" then "."
  else
    let out := rev (fold_left (clean_step (rooted s)) (split s) []) in
    if rooted s then "/" +:+ join out
    else match out with
         | [] => "."
         | _ => join out
         end.

(** [path.Join]: empty elements are ignored, the result is cleaned, and
    the join of nothing but empty elements is the empty string. *)
Definition Join (elem : list string) : string :=
  match filter (fun e => e ≠ EmptyString) elem with
  | [] => EmptyString
  | l => Clean (join l)
  end.

Fixpoint has_slash (s : string) : bool :=
  match s with
  | EmptyString => false
  | String c r => is_slash c || has_slash r
  end.

(** The first component of [path.Split]: everything up to and including
    the final slash. *)
Fixpoint split_dir (s : string) : string :=
  match s with
  | EmptyString => EmptyString
  | String c r =>
      if has_slash r then String c (split_dir r)
      else if is_slash c then "/" else EmptyString
  end.

(** [path.Dir] *)
Definition Dir (s : string) : string := Clean (split_dir s).

End GoPath.

(** ** The database registry (data/data.go) *)

Module Registry.

Definition commonDBID : string := "common".
Definition commonDBVersion : string := "base".

(** What the configuration service answers for the keys the registry
    reads; [log_level] is [config.GetString(logger.ConfigLevel)] and the
    three pool settings are the [config.GetInt] of the [api] keys. *)
Record Config := {
  local_storage_path : string;
  data_path : string;
  data_source : string;
  data_driver : string;
  log_level : string;
  db_max_conns : Z;
  db_idle_conns : Z;
  db_conns_timeout : Z
}.

Definition error := string.

Inductive Level := Debug | Info | Warn | Error.

(** An allocated [*ApidDb]: [addr] is the identity of the allocation (and
    of the pool and mutex it owns), [file] the path it was opened on. *)
Record ApidDb := { addr : nat; file : string }.

(** [closed] is the stop channel of the sampler started by [logDBInfo],
    nil unless the handle was created at debug level. *)
Record dbMapInfo := { db : option ApidDb; closed : option nat }.

Record PoolCfg := { maxOpen : Z; maxIdle : Z; lifetimeSeconds : Z }.

Record State := {
  dbMap : gmap string (option dbMapInfo);
  nextAddr : nat;
  nextChan : nat;
  samplers : gset nat;             (* running samplers, by stop channel *)
  finalizers : list (nat * string);(* runtime.SetFinalizer(db, Delete(key)) *)
  pools : gmap nat PoolCfg;
  dirs : gset string;              (* directories made by os.MkdirAll *)
  logs : list (Level * string)
}.

Definition empty : State :=
  {| dbMap := ∅; nextAddr := 0; nextChan := 0; samplers := ∅;
     finalizers := []; pools := ∅; dirs := ∅; logs := [] |}.

Definition set_dbMap (f : gmap string (option dbMapInfo) ->
                          gmap string (option dbMapInfo)) (s : State) :=
  {| dbMap := f (dbMap s); nextAddr := nextAddr s; nextChan := nextChan s;
     samplers := samplers s; finalizers := finalizers s; pools := pools s;
     dirs := dirs s; logs := logs s |}.
Definition bump_addr (s : State) :=
  {| dbMap := dbMap s; nextAddr := S (nextAddr s); nextChan := nextChan s;
     samplers := samplers s; finalizers := finalizers s; pools := pools s;
     dirs := dirs s; logs := logs s |}.
Definition bump_chan (s : State) :=
  {| dbMap := dbMap s; nextAddr := nextAddr s; nextChan := S (nextChan s);
     samplers := samplers s; finalizers := finalizers s; pools := pools s;
     dirs := dirs s; logs := logs s |}.
Definition set_samplers (f : gset nat -> gset nat) (s : State) :=
  {| dbMap := dbMap s; nextAddr := nextAddr s; nextChan := nextChan s;
     samplers := f (samplers s); finalizers := finalizers s;
     pools := pools s; dirs := dirs s; logs := logs s |}.
Definition set_finalizers (f : list (nat * string) -> list (nat * string))
           (s : State) :=
  {| dbMap := dbMap s; nextAddr := nextAddr s; nextChan := nextChan s;
     samplers := samplers s; finalizers := f (finalizers s);
     pools := pools s; dirs := dirs s; logs := logs s |}.
Definition set_pools (f : gmap nat PoolCfg -> gmap nat PoolCfg) (s : State) :=
  {| dbMap := dbMap s; nextAddr := nextAddr s; nextChan := nextChan s;
     samplers := samplers s; finalizers := finalizers s;
     pools := f (pools s); dirs := dirs s; logs := logs s |}.
Definition set_dirs (f : gset string -> gset string) (s : State) :=
  {| dbMap := dbMap s; nextAddr := nextAddr s; nextChan := nextChan s;
     samplers := samplers s; finalizers := finalizers s; pools := pools s;
     dirs := f (dirs s); logs := logs s |}.
Definition log (l : Level) (msg : string) (s : State) :=
  {| dbMap := dbMap s; nextAddr := nextAddr s; nextChan := nextChan s;
     samplers := samplers s; finalizers := finalizers s; pools := pools s;
     dirs := dirs s; logs := logs s ++ [(l, msg)] |}.

(** [strings.EqualFold] on ASCII letters; none of the letters of "debug"
    folds with a character outside ASCII. *)
Definition lower (c : ascii) : ascii :=
  let n := nat_of_ascii c in
  if (65 <=? n)%nat && (n <=? 90)%nat then ascii_of_nat (n + 32) else c.
Fixpoint EqualFold (a b : string) : bool :=
  match a, b with
  | EmptyString, EmptyString => true
  | String x a', String y b' => Ascii.eqb (lower x) (lower y) && EqualFold a' b'
  | _, _ => false
  end.

(** [strings.EqualFold(config.GetString(logger.ConfigLevel),
    logrus.DebugLevel.String())] *)
Definition debugging (cfg : Config) : bool := EqualFold (log_level cfg) "debug".

Definition VersionedDBID (id version : string) : string :=
  GoPath.Join [id; version].

Definition DBPath (cfg : Config) (id : string) : string :=
  GoPath.Join [local_storage_path cfg; data_path cfg; id; "sqlite3"].

(** What the operating system and the engine answer during one creation:
    [None] is a nil error. *)
Record Env := {
  mkdirAll : option error;
  sqlOpen : option error;
  ping : option error;
  execJournalMode : option error;
  execForeignKeys : option error
}.

Definition healthy : Env :=
  {| mkdirAll := None; sqlOpen := None; ping := None;
     execJournalMode := None; execForeignKeys := None |}.

(** The two named results [(retDb, err)] of [dbVersionForID]. *)
Definition Result : Type := option ApidDb * option error.

(** Lines 267-272: the lookup under the read lock.  [Some d] when
    [dbm != nil && dbm.db != nil]. *)
Definition lookup (versionedID : string) (s : State) : option ApidDb :=
  match dbMap s !! versionedID with
  | Some (Some dbm) => db dbm
  | _ => None
  end.

(** [logDBInfo]: a new stop channel with a sampler listening on it. *)
Definition logDBInfo (s : State) : nat * State :=
  (nextChan s, set_samplers (fun g => {[nextChan s]} ∪ g) (bump_chan s)).

(** Lines 274-340: everything done under the write lock.  There is no
    second look at [dbMap] here: the section always creates. *)
Definition create (cfg : Config) (env : Env) (versionedID : string)
           (s : State) : Result * State :=
  let dataPath := DBPath cfg versionedID in
  match mkdirAll env with
  | Some e => ((None, Some e), s)
  | None =>
    let s := set_dirs (fun g => {[GoPath.Dir dataPath]} ∪ g) s in
    let s := log Info ("LoadDB: " +:+ dataPath) s in
    match sqlOpen env with
    | Some e => ((None, Some e), log Error ("error loading db: " +:+ e) s)
    | None =>
      let retDb := {| addr := nextAddr s; file := dataPath |} in
      let s := bump_addr s in
      match ping env with
      | Some e =>
          ((Some retDb, Some e), log Error ("error pinging db: " +:+ e) s)
      | None =>
        match execJournalMode env with
        | Some e =>
            ((Some retDb, Some e),
             log Error ("error setting journal_mode: " +:+ e) s)
        | None =>
          match execForeignKeys env with
          | Some e =>
              ((Some retDb, Some e),
               log Error ("error enabling foreign_keys: " +:+ e) s)
          | None =>
            let '(stoplogchan, s) :=
              if debugging cfg
              then let '(c, s) := logDBInfo s in (Some c, s)
              else (None, s) in
            let s := set_pools
                       <[addr retDb :=
                           {| maxOpen := db_max_conns cfg;
                              maxIdle := db_idle_conns cfg;
                              lifetimeSeconds := db_conns_timeout cfg |}]> s in
            let dbInfo := {| db := Some retDb; closed := stoplogchan |} in
            ((Some retDb, None),
             set_dbMap <[versionedID := Some dbInfo]> s)
          end
        end
      end
    end
  end.

(** [dbVersionForID] run without interference from other goroutines. *)
Definition dbVersionForID (cfg : Config) (env : Env) (id version : string)
           (s : State) : Result * State :=
  let versionedID := VersionedDBID id version in
  match lookup versionedID s with
  | Some d => ((Some d, None), s)
  | None => create cfg env versionedID s
  end.

(** The exported getters return [(apid.DB, error)]; a guard that fires
    returns the nil interface and never reaches [dbVersionForID]. *)
Definition DB (cfg : Config) (env : Env) (s : State) : Result * State :=
  dbVersionForID cfg env commonDBID commonDBVersion s.

Definition DBForID (cfg : Config) (env : Env) (id : string) (s : State)
  : Result * State :=
  if String.eqb id commonDBID then ((None, Some ("reserved ID: " +:+ id)), s)
  else dbVersionForID cfg env id commonDBVersion s.

Definition DBVersion (cfg : Config) (env : Env) (version : string)
           (s : State) : Result * State :=
  if String.eqb version commonDBVersion
  then ((None, Some ("reserved version: " +:+ version)), s)
  else dbVersionForID cfg env commonDBID version s.

Definition DBVersionForID (cfg : Config) (env : Env) (id version : string)
           (s : State) : Result * State :=
  if String.eqb id commonDBID then ((None, Some ("reserved ID: " +:+ id)), s)
  else if String.eqb version commonDBVersion
  then ((None, Some ("reserved version: " +:+ version)), s)
  else dbVersionForID cfg env id version s.

(** How a call that may wait on a channel ends. *)
Inductive Outcome :=
| Returned (s : State)
| BlocksForever.

(** [ReleaseDBForID].  At debug level [dbm.closed <- true] is a send on an
    unbuffered channel: it completes when the sampler is listening and
    never completes on a nil channel or one nobody reads. *)
Definition ReleaseDBForID (cfg : Config) (id version : string) (s : State)
  : Outcome :=
  let versionedID := VersionedDBID id version in
  match dbMap s !! versionedID with
  | Some (Some {| db := Some d; closed := ch |}) =>
      let finish s :=
        let s := log Warn "SETTING FINALIZER" s in
        let s := set_finalizers (cons (addr d, versionedID)) s in
        Returned (set_dbMap <[versionedID := None]> s) in
      if debugging cfg then
        match ch with
        | Some c =>
            if decide (c ∈ samplers s)
            then finish (set_samplers (fun g => g ∖ {[c]}) s)
            else BlocksForever
        | None => BlocksForever
        end
      else finish s
  | _ =>
      Returned (log Error ("Cannot find DB handle for ver {" +:+ version
                           +:+ "} to release") s)
  end.

Definition ReleaseDB cfg version s := ReleaseDBForID cfg commonDBID version s.
Definition ReleaseCommonDB cfg s :=
  ReleaseDBForID cfg commonDBID commonDBVersion s.

(** The finalizer built by [Delete(versionedID)], run by the collector on
    the handle at [a]: the pool is closed, the directory removed and the
    key deleted from [dbMap].  [closeErr] and [removeErr] are what
    [db.db.Close] and [os.RemoveAll] answer. *)
Definition Delete (cfg : Config) (versionedID : string)
           (closeErr removeErr : option error) (a : nat) (s : State) : State :=
  let s := set_pools (delete a) s in
  let s := match closeErr with
           | Some e => log Error ("error closing DB: " +:+ e) s
           | None => s
           end in
  let dataDir := GoPath.Dir (DBPath cfg versionedID) in
  let s := match removeErr with
           | Some e => log Error ("error removing DB files: " +:+ e) s
           | None => set_dirs (fun g => g ∖ {[dataDir]}) s
           end in
  set_dbMap (delete versionedID) s.

(** *** Interleaving of concurrent [dbVersionForID] calls

    The read-locked lookup and the write-locked creation are the two
    atomic sections of a call; a goroutine that missed in the first one
    waits for the write lock and then runs the second. *)
Inductive Pc :=
| AtLookup
| AtCreate
| Finished (r : Result).

Record Goroutine := {
  g_id : string; g_version : string; g_env : Env; g_pc : Pc
}.

Definition call (id version : string) (env : Env) : Goroutine :=
  {| g_id := id; g_version := version; g_env := env; g_pc := AtLookup |}.

Definition goto (g : Goroutine) (pc : Pc) : Goroutine :=
  {| g_id := g_id g; g_version := g_version g; g_env := g_env g; g_pc := pc |}.

Definition advance (cfg : Config) (g : Goroutine) (s : State)
  : Goroutine * State :=
  let versionedID := VersionedDBID (g_id g) (g_version g) in
  match g_pc g with
  | AtLookup =>
      match lookup versionedID s with
      | Some d => (goto g (Finished (Some d, None)), s)
      | None => (goto g AtCreate, s)
      end
  | AtCreate =>
      let '(r, s') := create cfg (g_env g) versionedID s in
      (goto g (Finished r), s')
  | Finished _ => (g, s)
  end.

(** Run the goroutines in the order the scheduler picks them. *)
Fixpoint run (cfg : Config) (schedule : list nat) (gs : list Goroutine)
         (s : State) : list Goroutine * State :=
  match schedule with
  | [] => (gs, s)
  | i :: rest =>
      match gs !! i with
      | Some g =>
          let '(g', s') := advance cfg g s in
          run cfg rest (<[i := g']> gs) s'
      | None => run cfg rest gs s
      end
  end.

Definition results (gs : list Goroutine) : list (option Result) :=
  map (fun g => match g_pc g with Finished r => Some r | _ => None end) gs.

End Registry.

(** ** Transactions on a handle (data/data.go, [ApidDb.Begin] and [Tx]) *)

Module Txn.

Definition error := string.

(** A [*Tx]: [tx_mutex] is the handle whose mutex it was given by [Begin],
    [tx_closed] the [closed] flag. *)
Record Tx := { tx_mutex : nat; tx_closed : bool }.

(** Who performed a mutex operation: [Begin] itself, or a call on the
    transaction at the given heap index. *)
Inductive Event :=
| Locked (m : nat)
| Unlocked (m : nat) (by_tx : option nat).

Record World := {
  held : gset nat;      (* the mutexes that are locked, by handle *)
  heap : list Tx;       (* every [Tx] allocated so far; the index is the pointer *)
  trace : list Event
}.

Definition init : World := {| held := ∅; heap := []; trace := [] |}.

Inductive Step (A : Type) :=
| Next (a : A) (w : World)
| Blocked                 (* waits in [mutex.Lock] *)
| Fatal.                  (* runtime fatal error or nil dereference *)
Arguments Next {A} a w.
Arguments Blocked {A}.
Arguments Fatal {A}.

(** [sync.Mutex.Lock] *)
Definition Lock (m : nat) (w : World) : Step unit :=
  if decide (m ∈ held w) then Blocked
  else Next tt {| held := {[m]} ∪ held w; heap := heap w;
                  trace := trace w ++ [Locked m] |}.

(** [sync.Mutex.Unlock]: unlocking a mutex that is not locked is a fatal
    error of the Go runtime. *)
Definition Unlock (m : nat) (by_tx : option nat) (w : World) : Step unit :=
  if decide (m ∈ held w)
  then Next tt {| held := held w ∖ {[m]}; heap := heap w;
                  trace := trace w ++ [Unlocked m by_tx] |}
  else Fatal.

(** [ApidDb.Begin] on the handle [d]; [engine] is the error of
    [d.db.Begin()].  Returns the new [*Tx] or the error. *)
Definition Begin (d : nat) (engine : option error) (w : World)
  : Step (option nat * option error) :=
  match Lock d w with
  | Next _ w1 =>
      match engine with
      | Some e =>
          match Unlock d None w1 with
          | Next _ w2 => Next (None, Some e) w2
          | Blocked => Blocked
          | Fatal => Fatal
          end
      | None =>
          Next (Some (length (heap w1)), None)
               {| held := held w1;
                  heap := heap w1 ++ [{| tx_mutex := d; tx_closed := false |}];
                  trace := trace w1 |}
      end
  | Blocked => Blocked
  | Fatal => Fatal
  end.

(** The prologue shared by [Tx.Commit] and [Tx.Rollback]:
    [if !tx.closed { defer tx.mutex.Unlock(); tx.closed = true }].
    The boolean says whether an unlock was deferred. *)
Definition close_once (tx : Tx) : Tx * bool :=
  if tx_closed tx then (tx, false)
  else ({| tx_mutex := tx_mutex tx; tx_closed := true |}, true).

(** What [Commit] and [Rollback] do to the world: the flag is set, the
    engine call is made (its error [engine] is what the caller gets), and
    the deferred unlock runs on return. *)
Definition finish (t : nat) (engine : option error) (w : World)
  : Step (option error) :=
  match heap w !! t with
  | None => Fatal
  | Some tx =>
      let '(tx', deferred) := close_once tx in
      let w1 := {| held := held w; heap := <[t := tx']> (heap w);
                   trace := trace w |} in
      if deferred then
        match Unlock (tx_mutex tx) (Some t) w1 with
        | Next _ w2 => Next engine w2
        | Blocked => Blocked
        | Fatal => Fatal
        end
      else Next engine w1
  end.

Definition Commit (t : nat) (engine : option error) (w : World) :=
  finish t engine w.
Definition Rollback (t : nat) (engine : option error) (w : World) :=
  finish t engine w.

(** The calls goroutines make, in the order their critical steps happen. *)
Inductive Action :=
| ABegin (d : nat) (engine : option error)
| ACommit (t : nat) (engine : option error)
| ARollback (t : nat) (engine : option error).

Definition world_of {A} (r : Step A) : option World :=
  match r with Next _ w => Some w | _ => None end.

Definition step (w : World) (a : Action) : option World :=
  match a with
  | ABegin d e => world_of (Begin d e w)
  | ACommit t e => world_of (Commit t e w)
  | ARollback t e => world_of (Rollback t e w)
  end.

(** [None] when some call of the sequence could not complete there. *)
Fixpoint exec (w : World) (l : list Action) : option World :=
  match l with
  | [] => Some w
  | a :: l' => match step w a with
               | Some w' => exec w' l'
               | None => None
               end
  end.

(** The transactions on handle [d] that are begun and neither committed
    nor rolled back. *)
Definition in_flight (d : nat) (w : World) : list Tx :=
  filter (fun tx => tx_mutex tx = d ∧ tx_closed tx = false) (heap w).

(** How often the transaction at [t] unlocked a mutex. *)
Definition is_unlock_by (t : nat) (e : Event) : bool :=
  match e with
  | Unlocked _ (Some t') => Nat.eqb t' t
  | _ => false
  end.

Definition unlocks_by (t : nat) (l : list Event) : nat :=
  length (filter (fun e => is_unlock_by t e) l).

End Txn.

(** ** The tracing wrapper of a driver connection (data/wrap) *)

Module Wrap.

Definition error := string.

Inductive Level := Debug | Error.

#[global] Instance Level_eq_dec : EqDecision Level.
Proof. solve_decision. Defined.

(** The format strings of the wrapper, with their arguments. *)
Inductive Msg :=
| begin_prepare_stmt (query : string)
| prepare_stmt_failed (err : error)
| end_prepare_stmt
| begin_trans
| begin_trans_failed (err : error)
| end_begin_trans
| begin_close_conn
| close_conn_failed (err : error)
| end_close_conn
| begin_query (query : string) (args : list string)
| query_failed (err : error)
| end_query (rows : option nat).

(** A log call: the severity of the method used ([Debug], [Debugf],
    [Errorf]), the field added by [WithField], and the message. *)
Record Entry := {
  level : Level;
  field : option (string * Z);
  msg : Msg
}.

Record wrapConn := { stmtCounter : Z; txCounter : Z }.

(** [atomic.AddInt64(p, 1)] on a signed 64-bit counter. *)
Definition add1_int64 (z : Z) : Z :=
  ((z + 1 + 2 ^ 63) mod 2 ^ 64 - 2 ^ 63)%Z.

(** The wrapped statement and transaction keep the engine's object and the
    logger with its field. *)
Record wrapStmt := { ws_stmt : nat; ws_field : string * Z }.
Record wrapTx := { wt_tx : nat; wt_field : string * Z }.

(** [wrapConn.Prepare]; [engine] is what [c.SQLiteConn.Prepare(query)]
    answers. *)
Definition Prepare (c : wrapConn) (query : string) (engine : error + nat)
  : (option wrapStmt * option error) * wrapConn * list Entry :=
  let stmtID := add1_int64 (stmtCounter c) in
  let c' := {| stmtCounter := stmtID; txCounter := txCounter c |} in
  let f := Some ("stmt", stmtID) in
  let l0 := [{| level := Debug; field := f; msg := begin_prepare_stmt query |}] in
  match engine with
  | inl err =>
      ((None, Some err), c',
       l0 ++ [{| level := Error; field := f; msg := prepare_stmt_failed err |}])
  | inr s =>
      ((Some {| ws_stmt := s; ws_field := ("stmt", stmtID) |}, None), c',
       l0 ++ [{| level := Debug; field := f; msg := end_prepare_stmt |}])
  end.

(** [wrapConn.Begin] *)
Definition Begin (c : wrapConn) (engine : error + nat)
  : (option wrapTx * option error) * wrapConn * list Entry :=
  let txID := add1_int64 (txCounter c) in
  let c' := {| stmtCounter := stmtCounter c; txCounter := txID |} in
  let f := Some ("tx", txID) in
  let l0 := [{| level := Debug; field := f; msg := begin_trans |}] in
  match engine with
  | inl err =>
      ((None, Some err), c',
       l0 ++ [{| level := Error; field := f; msg := begin_trans_failed err |}])
  | inr t =>
      ((Some {| wt_tx := t; wt_field := ("tx", txID) |}, None), c',
       l0 ++ [{| level := Debug; field := f; msg := end_begin_trans |}])
  end.

(** [wrapConn.Close]; [engine] is the error of [c.SQLiteConn.Close()]. *)
Definition Close (c : wrapConn) (engine : option error)
  : option error * wrapConn * list Entry :=
  let l0 := [{| level := Debug; field := None; msg := begin_close_conn |}] in
  match engine with
  | Some err =>
      (Some err, c,
       l0 ++ [{| level := Error; field := None; msg := close_conn_failed err |}])
  | None =>
      (None, c,
       l0 ++ [{| level := Debug; field := None; msg := end_close_conn |}])
  end.

(** [wrapConn.Query]; [engine] is the pair [(rows, err)] that
    [c.SQLiteConn.Query(query, args)] answers, and it is the pair
    returned. *)
Definition Query (c : wrapConn) (query : string) (args : list string)
           (engine : option nat * option error)
  : (option nat * option error) * wrapConn * list Entry :=
  let l0 := [{| level := Debug; field := None; msg := begin_query query args |}] in
  let '(rows, err) := engine in
  match err with
  | Some e =>
      ((rows, err), c,
       l0 ++ [{| level := Debug; field := None; msg := query_failed e |}])
  | None =>
      ((rows, err), c,
       l0 ++ [{| level := Debug; field := None; msg := end_query rows |}])
  end.

Definition logged_at (l : Level) (es : list Entry) : list Entry :=
  filter (fun e => level e = l) es.

End Wrap.

(** ** The result-set mapper (data/data.go, [StructsFromRows]) *)

Module Mapper.

Definition error := string.

(** *** Go types and values of record fields

    The field types covered are the ones [StructsFromRows] tells apart by
    [AssignableTo], [ConvertibleTo] and the kind checks of the [reflect]
    setters.  [int] is [TInt W64].  A [float64] is its 64-bit pattern: the
    mapper only copies it.  [float32] fields, whose setter rounds, are not
    covered. *)
Inductive Width := W8 | W16 | W32 | W64.

Definition bits (w : Width) : Z :=
  match w with W8 => 8 | W16 => 16 | W32 => 32 | W64 => 64 end.

Inductive GoType :=
| TBool
| TInt (w : Width)
| TUint (w : Width)
| TFloat64
| TString
| TBytes            (* []byte *)
| TNullString       (* sql.NullString *)
| TNullInt64        (* sql.NullInt64 *)
| TNullFloat64      (* sql.NullFloat64 *)
| TAny.             (* interface{} *)

#[global] Instance Width_eq_dec : EqDecision Width.
Proof. solve_decision. Defined.
#[global] Instance GoType_eq_dec : EqDecision GoType.
Proof. solve_decision. Defined.

(** What [rows.Scan] leaves in the carrier of a column; a [[]byte] is
    [None] when it is nil. *)
Inductive Carrier :=
| CNullString (s : string) (valid : bool)
| CNullInt64 (i : Z) (valid : bool)
| CNullFloat64 (f : Z) (valid : bool)
| CBytes (b : option (list Byte.byte)).

Inductive GoValue :=
| VBool (b : bool)
| VInt (w : Width) (i : Z)
| VUint (w : Width) (i : Z)
| VFloat64 (f : Z)
| VString (s : string)
| VBytes (b : option (list Byte.byte))
| VNullString (s : string) (valid : bool)
| VNullInt64 (i : Z) (valid : bool)
| VNullFloat64 (f : Z) (valid : bool)
| VAny (held : option Carrier).

Definition zero (ty : GoType) : GoValue :=
  match ty with
  | TBool => VBool false
  | TInt w => VInt w 0
  | TUint w => VUint w 0
  | TFloat64 => VFloat64 0
  | TString => VString ""
  | TBytes => VBytes None
  | TNullString => VNullString "" false
  | TNullInt64 => VNullInt64 0 false
  | TNullFloat64 => VNullFloat64 0 false
  | TAny => VAny None
  end.

(** A struct field: its name, the value of its [db] tag
    ([f.Tag.Get("db")], empty when there is none) and its type. *)
Record Field := { fname : string; ftag : string; ftype : GoType }.

Record StructType := { tname : string; tfields : list Field }.

#[global] Instance Field_eq_dec : EqDecision Field.
Proof. solve_decision. Defined.
#[global] Instance StructType_eq_dec : EqDecision StructType.
Proof. solve_decision. Defined.

(** A field is exported when its name starts with an upper-case letter
    (ASCII letters here); the setters of [reflect] panic on the others. *)
Definition exported (f : Field) : bool :=
  match fname f with
  | String c _ => let n := nat_of_ascii c in (65 <=? n)%nat && (n <=? 90)%nat
  | EmptyString => false
  end.

(** A struct value, by field name. *)
Abbreviation Struct := (gmap string GoValue).

(** [reflect.New(t).Elem()] *)
Definition new_struct (t : StructType) : Struct :=
  list_to_map (map (fun f => (fname f, zero (ftype f))) (tfields t)).

(** The struct type behind [v.FieldByName(name)]; [None] when the value
    returned is not valid. *)
Definition FieldByName (t : StructType) (name : string) : option Field :=
  if String.eqb name "" then None
  else List.find (fun f => String.eqb (fname f) name) (tfields t).

(** *** The field mapping and its cache ([tagFieldMapper]) *)

Definition build_mapper (t : StructType) : gmap string string :=
  fold_left (fun m f => if String.eqb (ftag f) "" then m
                        else <[ftag f := fname f]> m)
            (tfields t) ∅.

(** [m[key]] of a Go [map[string]string] *)
Definition index (m : gmap string string) (key : string) : string :=
  default "" (m !! key).

Abbreviation Cache := (list (StructType * gmap string string)).

Definition cached (t : StructType) (cache : Cache) : option (gmap string string) :=
  snd <$> List.find (fun p => bool_decide (fst p = t)) cache.

(** Lines 397-408 *)
Definition mapper_for (t : StructType) (cache : Cache)
  : gmap string string * Cache :=
  match cached t cache with
  | Some m => (m, cache)
  | None => let m := build_mapper t in (m, (t, m) :: cache)
  end.

(** *** Result sets *)

(** A [driver.Value] *)
Inductive DriverValue :=
| DNull
| DInt64 (i : Z)
| DFloat64 (f : Z)
| DBool (b : bool)
| DBytes (b : list Byte.byte)
| DString (s : string)
| DTime (t : Z).

(** [columns] pairs each column name with its [DatabaseTypeName()]; the
    two errors are those of [rows.Columns()] and [rows.ColumnTypes()];
    [data] are the rows [rows.Next()] steps through. *)
Record Rows := {
  columnsErr : option error;
  columnTypesErr : option error;
  columns : list (string * string);
  data : list (list DriverValue)
}.

Inductive CarrierKind := KNullString | KNullInt64 | KNullFloat64 | KBytes.

(** The conversions of [database/sql] between a driver value and a
    destination of another kind (number formatting and parsing); the
    mapper does not depend on what they answer. *)
Record Conversions := {
  asString : DriverValue -> option string;
  asInt64 : DriverValue -> option Z;
  asFloat64 : DriverValue -> option Z;
  asBytes : DriverValue -> option (list Byte.byte)
}.

(** [rows.Scan] into one carrier: NULL clears it, a value of the carrier's
    own kind is copied, strings and byte slices convert into each other. *)
Definition scan_cell (cv : Conversions) (k : CarrierKind) (d : DriverValue)
  : option Carrier :=
  match k with
  | KNullString =>
      match d with
      | DNull => Some (CNullString "" false)
      | DString s => Some (CNullString s true)
      | DBytes b => Some (CNullString (string_of_list_byte b) true)
      | _ => (fun s => CNullString s true) <$> asString cv d
      end
  | KNullInt64 =>
      match d with
      | DNull => Some (CNullInt64 0 false)
      | DInt64 i => Some (CNullInt64 i true)
      | _ => (fun i => CNullInt64 i true) <$> asInt64 cv d
      end
  | KNullFloat64 =>
      match d with
      | DNull => Some (CNullFloat64 0 false)
      | DFloat64 f => Some (CNullFloat64 f true)
      | _ => (fun f => CNullFloat64 f true) <$> asFloat64 cv d
      end
  | KBytes =>
      match d with
      | DNull => Some (CBytes None)
      | DBytes b => Some (CBytes (Some b))
      | DString s => Some (CBytes (Some (list_byte_of_string s)))
      | _ => (fun b => CBytes (Some b)) <$> asBytes cv d
      end
  end.

Inductive DecodeError :=
| EngineError (e : error)
| UnsupportedColumnType (ty : string)       (* "unsupprted column type: %s" *)
| CannotConvert (colType : string) (fieldType : GoType)
| ScanError (column : nat).

(** [rows.Scan(cols...)]: the number of the first column that fails. *)
Fixpoint scan_row (cv : Conversions) (i : nat) (ks : list CarrierKind)
         (cells : list DriverValue) : nat + list Carrier :=
  match ks, cells with
  | [], [] => inr []
  | k :: ks', d :: cells' =>
      match scan_cell cv k d with
      | None => inl i
      | Some c =>
          match scan_row cv (S i) ks' cells' with
          | inl j => inl j
          | inr cs => inr (c :: cs)
          end
      end
  | _, _ => inl i
  end.

(** Lines 422-437: the carrier chosen for each column type. *)
Definition carrier_for (ty : string) : option CarrierKind :=
  if String.eqb ty "null" then Some KNullString
  else if String.eqb ty "text" then Some KNullString
  else if String.eqb ty "integer" then Some KNullInt64
  else if String.eqb ty "float" then Some KNullFloat64
  else if String.eqb ty "blob" then Some KBytes
  else None.

Fixpoint carriers (tys : list string) : string + list CarrierKind :=
  match tys with
  | [] => inr []
  | ty :: rest =>
      match carrier_for ty with
      | None => inl ty
      | Some k =>
          match carriers rest with
          | inl bad => inl bad
          | inr ks => inr (k :: ks)
          end
      end
  end.

(** *** The [reflect] operations the mapper uses *)

Definition type_of (c : Carrier) : GoType :=
  match c with
  | CNullString _ _ => TNullString
  | CNullInt64 _ _ => TNullInt64
  | CNullFloat64 _ _ => TNullFloat64
  | CBytes _ => TBytes
  end.

(** [src.AssignableTo(dst)] for the source types the mapper asks about:
    identical types, or any type into the empty interface. *)
Definition AssignableTo (src dst : GoType) : bool :=
  bool_decide (src = dst) || bool_decide (dst = TAny).

(** [reflect.TypeOf(int64(0)).ConvertibleTo(dst)]: every integer and
    floating-point type and, as Go converts integers to strings, [string];
    also the empty interface. *)
Definition int64_ConvertibleTo (dst : GoType) : bool :=
  match dst with
  | TInt _ | TUint _ | TFloat64 | TString | TAny => true
  | _ => false
  end.

(** [reflect.TypeOf(float64(0)).ConvertibleTo(dst)] *)
Definition float64_ConvertibleTo (dst : GoType) : bool :=
  match dst with
  | TInt _ | TUint _ | TFloat64 | TAny => true
  | _ => false
  end.

(** Conversion of an [int64] to a signed integer of [w] bits. *)
Definition wrap_int (w : Width) (i : Z) : Z :=
  ((i + 2 ^ (bits w - 1)) mod 2 ^ bits w - 2 ^ (bits w - 1))%Z.

(** The setters, on a field of type [ty]; [None] is the panic of a setter
    called on a value of the wrong kind. *)
Definition Set_ (c : Carrier) (ty : GoType) : option GoValue :=
  match ty, c with
  | TAny, _ => Some (VAny (Some c))
  | TNullString, CNullString s v => Some (VNullString s v)
  | TNullInt64, CNullInt64 i v => Some (VNullInt64 i v)
  | TNullFloat64, CNullFloat64 f v => Some (VNullFloat64 f v)
  | TBytes, CBytes b => Some (VBytes b)
  | _, _ => None
  end.

Definition SetString (s : string) (ty : GoType) : option GoValue :=
  match ty with TString => Some (VString s) | _ => None end.

Definition SetInt (i : Z) (ty : GoType) : option GoValue :=
  match ty with TInt w => Some (VInt w (wrap_int w i)) | _ => None end.

Definition SetFloat (f : Z) (ty : GoType) : option GoValue :=
  match ty with TFloat64 => Some (VFloat64 f) | _ => None end.

Definition SetBytes (b : option (list Byte.byte)) (ty : GoType) : option GoValue :=
  match ty with TBytes => Some (VBytes b) | _ => None end.

(** The conversion to [string] and the length of a byte slice that may
    be nil *)
Definition string_of_bytes (b : option (list Byte.byte)) : string :=
  string_of_list_byte (default [] b).
Definition len (b : option (list Byte.byte)) : nat := length (default [] b).

(** [f.FieldByName("String").SetString(s)] followed by
    [f.FieldByName("Valid").SetBool(v)] on a field holding a struct *)
Definition SetStringAndValid (s : string) (v : bool) (ty : GoType)
  : option GoValue :=
  match ty with TNullString => Some (VNullString s v) | _ => None end.

Inductive outcome (A : Type) :=
| Ok (a : A)
| Fail (e : DecodeError)
| Panic.
Arguments Ok {A} a.
Arguments Fail {A} e.
Arguments Panic {A}.

(** A setter applied to the field [f]: it panics on an unexported field
    and on a field of the wrong kind. *)
Definition store (f : Field) (set : GoType -> option GoValue)
  : outcome (option GoValue) :=
  if exported f then
    match set (ftype f) with
    | Some v => Ok (Some v)
    | None => Panic
    end
  else Panic.

(** Lines 445-501 for one column whose mapped field [f] is valid:
    [Ok (Some v)] stores [v] in the field, [Ok None] leaves it alone. *)
Definition assign (colType : string) (c : Carrier) (f : Field)
  : outcome (option GoValue) :=
  match c with
  | CNullString s valid =>
      if AssignableTo (type_of c) (ftype f) then store f (Set_ c)
      else if AssignableTo TString (ftype f) then
        if valid then store f (SetString s) else Ok None
      else Fail (CannotConvert colType (ftype f))
  | CNullInt64 i valid =>
      if AssignableTo (type_of c) (ftype f) then store f (Set_ c)
      else if int64_ConvertibleTo (ftype f) then
        if valid then store f (SetInt i) else Ok None
      else Fail (CannotConvert colType (ftype f))
  | CNullFloat64 x valid =>
      if AssignableTo (type_of c) (ftype f) then store f (Set_ c)
      else if float64_ConvertibleTo (ftype f) then
        if valid then store f (SetFloat x) else Ok None
      else Fail (CannotConvert colType (ftype f))
  | CBytes b =>
      if AssignableTo (type_of c) (ftype f) then store f (SetBytes b)
      else if AssignableTo TString (ftype f) then
        store f (SetString (string_of_bytes b))
      else if AssignableTo TNullString (ftype f) then
        store f (SetStringAndValid (string_of_bytes b) (0 <? len b)%nat)
      else Fail (CannotConvert colType (ftype f))
  end.

(** The loop over the columns of one row (lines 444-502); a column whose
    name maps to no field is skipped. *)
Fixpoint assign_columns (t : StructType) (m : gmap string string)
         (cols : list (string * string * Carrier)) (v : Struct)
  : outcome Struct :=
  match cols with
  | [] => Ok v
  | (colName, colType, c) :: rest =>
      match FieldByName t (index m colName) with
      | None => assign_columns t m rest v
      | Some f =>
          match assign colType c f with
          | Ok (Some x) => assign_columns t m rest (<[fname f := x]> v)
          | Ok None => assign_columns t m rest v
          | Fail e => Fail e
          | Panic => Panic
          end
      end
  end.

(** One turn of [for rows.Next()]: scan, then fill a fresh struct. *)
Definition decode_row (cv : Conversions) (t : StructType)
           (m : gmap string string) (cols : list (string * string))
           (ks : list CarrierKind) (cells : list DriverValue)
  : outcome Struct :=
  match scan_row cv 0 ks cells with
  | inl i => Fail (ScanError i)
  | inr cs => assign_columns t m (zip cols cs) (new_struct t)
  end.

(** The whole loop, appending to [slice]. *)
Fixpoint decode_rows (cv : Conversions) (t : StructType)
         (m : gmap string string) (cols : list (string * string))
         (ks : list CarrierKind) (rows : list (list DriverValue))
         (slice : list Struct) : outcome (list Struct) :=
  match rows with
  | [] => Ok slice
  | cells :: rest =>
      match decode_row cv t m cols ks cells with
      | Ok v => decode_rows cv t m cols ks rest (slice ++ [v])
      | Fail e => Fail e
      | Panic => Panic
      end
  end.

(** The destination: a non-nil pointer to a slice of [elem] structs. *)
Record Dest := { elem : StructType; contents : list Struct }.

(** How the call ends: a nil error, an error, or a panic. *)
Inductive Ret :=
| Nil
| Err (e : DecodeError)
| Panicked.

(** [StructsFromRows(dest, rows)].  [dest] is [None] for the nil interface.
    The result carries what [dest] points to afterwards and the mapping
    cache afterwards. *)
Definition StructsFromRows (cv : Conversions) (cache : Cache)
           (dest : option Dest) (rows : Rows) : Ret * option Dest * Cache :=
  match dest with
  | None => (Nil, None, cache)
  | Some d =>
      let t := elem d in
      let '(m, cache') := mapper_for t cache in
      match columnsErr rows with
      | Some e => (Err (EngineError e), dest, cache')
      | None =>
        match columnTypesErr rows with
        | Some e => (Err (EngineError e), dest, cache')
        | None =>
          match carriers (map snd (columns rows)) with
          | inl ty => (Err (UnsupportedColumnType ty), dest, cache')
          | inr ks =>
              match decode_rows cv t m (columns rows) ks (data rows) [] with
              | Ok slice =>
                  (Nil, Some {| elem := t; contents := slice |}, cache')
              | Fail e => (Err e, dest, cache')
              | Panic => (Panicked, dest, cache')
              end
          end
        end
      end
  end.

(** [ApidDb.QueryStructs] and [Tx.QueryStructs]: [engine] is what the
    query answers, an error or the rows to decode. *)
Definition QueryStructs (cv : Conversions) (cache : Cache)
           (dest : option Dest) (engine : error + Rows)
  : Ret * option Dest * Cache :=
  match engine with
  | inl e => (Err (EngineError e), dest, cache)
  | inr rows => StructsFromRows cv cache dest rows
  end.

(** A conversion table that refuses every conversion between kinds. *)
Definition refusing : Conversions :=
  {| asString := fun _ => None; asInt64 := fun _ => None;
     asFloat64 := fun _ => None; asBytes := fun _ => None |}.

End Mapper.

(** ** Invariants and specification-level definitions *)

Module Inv.

Import Registry.

(** What holds of every registry state the program can be in: handles in
    the map were allocated before [nextAddr], stop channels before
    [nextChan], no two entries share a stop channel, and the sampler of
    every stop channel in the map is listening. *)
Record wf (s : State) : Prop := {
  wf_addr : forall key dbm d,
    dbMap s !! key = Some (Some dbm) -> db dbm = Some d -> addr d < nextAddr s;
  wf_chan : forall key dbm c,
    dbMap s !! key = Some (Some dbm) -> closed dbm = Some c -> c < nextChan s;
  wf_sampler_bound : forall c, c ∈ samplers s -> c < nextChan s;
  wf_chan_inj : forall k1 k2 dbm1 dbm2 c,
    dbMap s !! k1 = Some (Some dbm1) -> dbMap s !! k2 = Some (Some dbm2) ->
    closed dbm1 = Some c -> closed dbm2 = Some c -> k1 = k2;
  wf_listening : forall key dbm c,
    dbMap s !! key = Some (Some dbm) -> closed dbm = Some c ->
    c ∈ samplers s
}.

(** The registry states the program can be in: the write-locked sections
    of [dbVersionForID] and of [ReleaseDBForID] and the finalizers, in any
    order, each with the configuration that is read when it runs. *)
Inductive reachable : State -> Prop :=
| reach_empty : reachable empty
| reach_create cfg env key s :
    reachable s -> reachable (snd (create cfg env key s))
| reach_release cfg id version s s' :
    reachable s -> ReleaseDBForID cfg id version s = Returned s' ->
    reachable s'
| reach_finalize cfg key closeErr removeErr a s :
    reachable s -> reachable (Delete cfg key closeErr removeErr a s).

(** The send of the release can complete: the level read by the release
    is not debug, or the handle of the key, if it has one, was given a
    stop channel when it was created. *)
Definition releasable (cfg : Config) (key : string) (s : State) : Prop :=
  debugging cfg = true ->
  forall dbm, dbMap s !! key = Some (Some dbm) -> is_Some (db dbm) ->
              is_Some (closed dbm).

(** The states reached while the log level stays on one side of debug:
    every creation and release reads a configuration for which
    [debugging] answers [b]. *)
Inductive steady (b : bool) : State -> Prop :=
| steady_empty : steady b empty
| steady_create cfg env key s :
    debugging cfg = b -> steady b s -> steady b (snd (create cfg env key s))
| steady_release cfg id version s s' :
    debugging cfg = b -> steady b s ->
    ReleaseDBForID cfg id version s = Returned s' -> steady b s'
| steady_finalize cfg key closeErr removeErr a s :
    steady b s -> steady b (Delete cfg key closeErr removeErr a s).

(** Every error of the environment is nil. *)
Definition succeeds (env : Env) : Prop :=
  mkdirAll env = None /\ sqlOpen env = None /\ ping env = None /\
  execJournalMode env = None /\ execForeignKeys env = None.

(** The creation reaches the ping and fails there or at one of the two
    pragmas, with the error [e]. *)
Definition fails_after_open (env : Env) (e : error) : Prop :=
  mkdirAll env = None /\ sqlOpen env = None /\
  (ping env = Some e \/
   (ping env = None /\ execJournalMode env = Some e) \/
   (ping env = None /\ execJournalMode env = None /\
    execForeignKeys env = Some e)).

(** What holds of every world the transaction calls can produce: an open
    transaction holds the mutex of its handle, no two open transactions
    are on one handle, and a transaction has unlocked once when its flag
    is set and never before. *)
Record tx_inv (w : Txn.World) : Prop := {
  inv_locked : forall t tx,
    Txn.heap w !! t = Some tx -> Txn.tx_closed tx = false ->
    Txn.tx_mutex tx ∈ Txn.held w;
  inv_unique : forall t1 t2 tx1 tx2,
    Txn.heap w !! t1 = Some tx1 -> Txn.heap w !! t2 = Some tx2 ->
    Txn.tx_closed tx1 = false -> Txn.tx_closed tx2 = false ->
    Txn.tx_mutex tx1 = Txn.tx_mutex tx2 -> t1 = t2;
  inv_unlocks : forall t tx,
    Txn.heap w !! t = Some tx ->
    Txn.unlocks_by t (Txn.trace w) = if Txn.tx_closed tx then 1 else 0;
  inv_fresh : forall t,
    length (Txn.heap w) <= t -> Txn.unlocks_by t (Txn.trace w) = 0
}.

End Inv.

(** What the round trip of the mapper is stated with. *)
Module RoundTrip.

Import Mapper.

(** The four column types the specification names, and the five the
    switch of [StructsFromRows] accepts. *)
Definition named_types : list string := ["text"; "integer"; "float"; "blob"].
Definition accepted_types : list string :=
  ["null"; "text"; "integer"; "float"; "blob"].

(** The type mappings documented above [StructsFromRows]:
    text to string; integer to int, int64 and sql.NullInt64; float to
    float64 and sql.NullFloat64; blob to []byte, string and
    sql.NullString; and text, like a column reported as null, to
    sql.NullString. *)
Definition compatible (colType : string) (ty : GoType) : bool :=
  match carrier_for colType, ty with
  | Some KNullString, (TString | TNullString) => true
  | Some KNullInt64, (TInt W64 | TNullInt64) => true
  | Some KNullFloat64, (TFloat64 | TNullFloat64) => true
  | Some KBytes, (TBytes | TString | TNullString) => true
  | _, _ => false
  end.

(** A cell is NULL or a value of the kind of its column; integers are
    64-bit. *)
Definition cell_ok (colType : string) (d : DriverValue) : bool :=
  match carrier_for colType, d with
  | Some _, DNull => true
  | Some KNullString, DString _ => true
  | Some KNullInt64, DInt64 i => (- 2 ^ 63 <=? i)%Z && (i <? 2 ^ 63)%Z
  | Some KNullFloat64, DFloat64 _ => true
  | Some KBytes, DBytes _ => true
  | _, _ => false
  end.

Definition nonempty (b : list Byte.byte) : bool :=
  match b with [] => false | _ => true end.

(** The value a field of type [ty] is to hold for the source value [d]:
    the value itself; for NULL the zero value of the type, which for a
    nullable type is the invalid one and for a byte slice is nil.  A blob
    stored in a nullable string is valid when it is not empty. *)
Definition expected (ty : GoType) (d : DriverValue) : GoValue :=
  match d, ty with
  | DString s, TString => VString s
  | DString s, TNullString => VNullString s true
  | DInt64 i, TInt W64 => VInt W64 i
  | DInt64 i, TNullInt64 => VNullInt64 i true
  | DFloat64 x, TFloat64 => VFloat64 x
  | DFloat64 x, TNullFloat64 => VNullFloat64 x true
  | DBytes b, TBytes => VBytes (Some b)
  | DBytes b, TString => VString (string_of_list_byte b)
  | DBytes b, TNullString => VNullString (string_of_list_byte b) (nonempty b)
  | _, _ => zero ty
  end.

(** The cell of the column named [tag] in a row. *)
Fixpoint cell_of (tag : string) (cols : list (string * string))
         (cells : list DriverValue) : option DriverValue :=
  match cols, cells with
  | (n, _) :: cols', d :: cells' =>
      if String.eqb n tag then Some d else cell_of tag cols' cells'
  | _, _ => None
  end.

(** The value of the field [f] in the record of a row: decided by the
    cell of the column its tag names, the zero value when it has no tag
    or no such column. *)
Definition field_value (f : Field) (cols : list (string * string))
           (cells : list DriverValue) : GoValue :=
  if String.eqb (ftag f) "" then zero (ftype f)
  else match cell_of (ftag f) cols cells with
       | Some d => expected (ftype f) d
       | None => zero (ftype f)
       end.

(** One turn of the loop that builds the mapping. *)
Definition mapper_step (m : gmap string string) (f : Field) :=
  if String.eqb (ftag f) "" then m else <[ftag f := fname f]> m.

(** A record type with declared column mappings: field names are
    distinct, fields are exported, and no two fields declare one column. *)
Record mapped (t : StructType) : Prop := {
  names_distinct : NoDup (map fname (tfields t));
  fields_exported : forall f, f ∈ tfields t -> exported f = true;
  tags_distinct : forall f g,
    f ∈ tfields t -> g ∈ tfields t -> ftag f = ftag g -> ftag f <> "" -> f = g
}.

(** The cache holds for a type the mapping built from it. *)
Definition coherent (cache : Cache) : Prop :=
  forall t m, cached t cache = Some m -> m = build_mapper t.

(** The result set has the columns and cells the round trip is about:
    both column calls succeed, column names are distinct, a column that a
    field declares has a type compatible with the field, and every row
    has one well-formed cell per column. *)
Record well_typed (t : StructType) (rows : Rows) : Prop := {
  columns_ok : columnsErr rows = None;
  columnTypes_ok : columnTypesErr rows = None;
  columns_distinct : NoDup (map fst (columns rows));
  columns_accepted : forall col,
    col ∈ columns rows -> snd col ∈ accepted_types;
  columns_compatible : forall n ty f,
    (n, ty) ∈ columns rows -> f ∈ tfields t -> ftag f = n -> n <> "" ->
    compatible ty (ftype f) = true;
  cells_ok : forall cells,
    cells ∈ data rows ->
    Forall2 (fun col d => cell_ok (snd col) d = true) (columns rows) cells
}.

(** Example data. *)
Definition note_type : StructType :=
  {| tname := "Note";
     tfields := [{| fname := "Name"; ftag := "name"; ftype := TNullString |}] |}.

Definition null_typed_rows : Rows :=
  {| columnsErr := None; columnTypesErr := None;
     columns := [("name", "null")]; data := [[DNull]] |}.

Definition blob_rows : Rows :=
  {| columnsErr := None; columnTypesErr := None;
     columns := [("name", "blob")]; data := [[DBytes []]; [DNull]] |}.

Definition item_type : StructType :=
  {| tname := "Item";
     tfields := [{| fname := "ID"; ftag := "id"; ftype := TInt W64 |};
                 {| fname := "Name"; ftag := "name"; ftype := TString |};
                 {| fname := "Alias"; ftag := "alias"; ftype := TNullString |};
                 {| fname := "Raw"; ftag := "raw"; ftype := TBytes |};
                 {| fname := "Local"; ftag := ""; ftype := TBool |}] |}.

Definition item_rows : Rows :=
  {| columnsErr := None; columnTypesErr := None;
     columns := [("name", "text"); ("id", "integer"); ("alias", "text");
                 ("raw", "blob"); ("extra", "float")];
     data := [[DString "a"; DInt64 1; DString ""; DBytes []; DNull];
              [DNull; DInt64 (-5); DNull; DNull; DFloat64 0]] |}.

End RoundTrip.

(** ** Further definitions: sequences of calls and what they preserve *)

Module Lifecycle.

Import Registry.





(** The handle stored for a key, by its address. *)
Definition handle_at (key : string) (s : State) : option nat :=
  addr <$> lookup key s.

(** What the registry keeps true of handles and finalizers: a handle
    serves one key only, a finalizer is set on a handle at most once, only
    on handles that were allocated, and never on one that is in the map. *)
Record sound (s : State) : Prop := {
  unshared : forall k1 k2 a,
    handle_at k1 s = Some a -> handle_at k2 s = Some a -> k1 = k2;
  stored_below : forall k a, handle_at k s = Some a -> a < nextAddr s;
  finalized_once : NoDup (map fst (finalizers s));
  finalized_below : forall a, a ∈ map fst (finalizers s) -> a < nextAddr s;
  finalized_gone : forall k a,
    handle_at k s = Some a -> a ∉ map fst (finalizers s)
}.

(** The getter [get] returns a handle without error and the release
    [release], called next, returns after clearing the entry of [key] and
    setting the finalizer of [key] on that very handle. *)
Definition released_by (get : State -> Result * State)
           (release : State -> Outcome) (key : string) (s : State) : Prop :=
  exists d s1 s2,
    get s = ((Some d, None), s1) /\ release s1 = Returned s2 /\
    head (finalizers s2) = Some (addr d, key) /\ lookup key s2 = None.

(** A configuration and a registry with one handle, for examples. *)
Definition sample : Config :=
  {| local_storage_path := "/var/apid"; data_path := "sqlite";
     data_source := "file:%s"; data_driver := "sqlite3";
     log_level := "debug"; db_max_conns := 10; db_idle_conns := 5;
     db_conns_timeout := 60 |}.

Definition one_handle : State := snd (create sample healthy "org1/1.0" empty).

(** The same configuration below debug level. *)
Definition quiet : Config :=
  {| local_storage_path := "/var/apid"; data_path := "sqlite";
     data_source := "file:%s"; data_driver := "sqlite3";
     log_level := "warn"; db_max_conns := 10; db_idle_conns := 5;
     db_conns_timeout := 60 |}.

(** The registry after the handle of [one_handle] was released, and after
    its key was accessed again. *)
Definition after_release : State :=
  match ReleaseDBForID sample "org1" "1.0" one_handle with
  | Returned s => s
  | BlocksForever => one_handle
  end.

Definition recreated : State :=
  snd (dbVersionForID sample healthy "org1" "1.0" after_release).

Definition failing_ping : Env :=
  {| mkdirAll := None; sqlOpen := None; ping := Some "unable to open";
     execJournalMode := None; execForeignKeys := None |}.


End Lifecycle.

(** Names and paths that [path.Clean] leaves as they are. *)
Module Plain.

(** A path element with nothing to clean: not empty, without a slash, and
    neither "." nor "..". *)
Definition simple (e : string) : bool :=
  negb (String.eqb e "") && negb (GoPath.has_slash e) &&
  negb (String.eqb e ".") && negb (String.eqb e "..").

(** A path made of simple elements, from the root when [absolute]. *)
Definition path_of (absolute : bool) (names : list string) : string :=
  (if absolute then "/" else "") +:+ GoPath.join names.

End Plain.

(** Who holds a mutex, and sessions on a wrapped connection. *)
Module Owners.

Import Txn.

(** Every locked mutex belongs to a transaction that is open on that
    handle. *)
Definition owned (w : World) : Prop :=
  forall d, d ∈ held w ->
    exists t tx, heap w !! t = Some tx /\ tx_mutex tx = d /\ tx_closed tx = false.

End Owners.

(** The calls made on one wrapped connection, one after the other. *)
Module Session.

Import Wrap.

(** A call with what the engine answers to it. *)
Inductive Call :=
| CPrepare (query : string) (engine : error + nat)
| CBegin (engine : error + nat)
| CClose (engine : option error)
| CQuery (query : string) (args : list string)
         (engine : option nat * option error).

(** What the caller gets back: the engine object under the wrapper, if
    any, and the error. *)
Definition perform (c : wrapConn) (call : Call)
  : (option nat * option error) * wrapConn * list Entry :=
  match call with
  | CPrepare q engine =>
      let '((r, e), c', l) := Prepare c q engine in (ws_stmt <$> r, e, c', l)
  | CBegin engine =>
      let '((r, e), c', l) := Begin c engine in (wt_tx <$> r, e, c', l)
  | CClose engine =>
      let '(e, c', l) := Close c engine in (None, e, c', l)
  | CQuery q args engine => Query c q args engine
  end.

Fixpoint session (c : wrapConn) (calls : list Call)
  : list (option nat * option error) * wrapConn * list Entry :=
  match calls with
  | [] => ([], c, [])
  | call :: rest =>
      let '(r, c1, l1) := perform c call in
      let '(rs, c2, l2) := session c1 rest in
      (r :: rs, c2, l1 ++ l2)
  end.

(** What the engine answered, in the shape of [perform]'s result. *)
Definition answer (call : Call) : option nat * option error :=
  match call with
  | CPrepare _ (inl e) | CBegin (inl e) => (None, Some e)
  | CPrepare _ (inr x) | CBegin (inr x) => (Some x, None)
  | CClose e => (None, e)
  | CQuery _ _ engine => engine
  end.

Definition is_prepare (call : Call) : bool :=
  match call with CPrepare _ _ => true | _ => false end.
Definition is_begin (call : Call) : bool :=
  match call with CBegin _ => true | _ => false end.

(** A prepare, begin or close that the engine refused. *)
Definition refused (call : Call) : bool :=
  match call with
  | CPrepare _ (inl _) | CBegin (inl _) | CClose (Some _) => true
  | _ => false
  end.

(** The identifiers under which statements and transactions were opened,
    in log order. *)
Definition stmt_ids (l : list Entry) : list Z :=
  omap (fun e => match msg e, field e with
                 | begin_prepare_stmt _, Some (_, z) => Some z
                 | _, _ => None
                 end) l.
Definition tx_ids (l : list Entry) : list Z :=
  omap (fun e => match msg e, field e with
                 | begin_trans, Some (_, z) => Some z
                 | _, _ => None
                 end) l.

(** [z + 1; z + 2; ...; z + n] *)
Definition from (z : Z) (n : nat) : list Z :=
  map (fun k => (z + Z.of_nat k)%Z) (seq 1 n).

End Session.

(** Typing of decoded records, and decoding with a given mapping. *)
Module Typing.

Import Mapper.

Definition in_range (w : Width) (i : Z) : bool :=
  (- 2 ^ (bits w - 1) <=? i)%Z && (i <? 2 ^ (bits w - 1))%Z.

(** The value [v] is a value of the Go type [ty]. *)
Definition has_type (v : GoValue) (ty : GoType) : bool :=
  match v, ty with
  | VBool _, TBool => true
  | VInt w i, TInt w' => bool_decide (w = w') && in_range w i
  | VUint w i, TUint w' =>
      bool_decide (w = w') && (0 <=? i)%Z && (i <? 2 ^ bits w)%Z
  | VFloat64 _, TFloat64 => true
  | VString _, TString => true
  | VBytes _, TBytes => true
  | VNullString _ _, TNullString => true
  | VNullInt64 _ _, TNullInt64 => true
  | VNullFloat64 _ _, TNullFloat64 => true
  | VAny _, TAny => true
  | _, _ => false
  end.

(** A struct value of the type [t]: every field of [t] holds a value of
    its type, and the value has no other field. *)
Definition typed (t : StructType) (v : Struct) : Prop :=
  (forall f, f ∈ tfields t ->
     exists x, v !! fname f = Some x /\ has_type x (ftype f) = true) /\
  (forall name, is_Some (v !! name) -> name ∈ map fname (tfields t)).

(** [StructsFromRows] on a destination that is not nil, from the point
    where the mapping [m] of its record type is at hand. *)
Definition decode_with (cv : Conversions) (m : gmap string string)
           (d : Dest) (rows : Rows) : Ret * option Dest :=
  match columnsErr rows with
  | Some e => (Err (EngineError e), Some d)
  | None =>
    match columnTypesErr rows with
    | Some e => (Err (EngineError e), Some d)
    | None =>
      match carriers (map snd (columns rows)) with
      | inl ty => (Err (UnsupportedColumnType ty), Some d)
      | inr ks =>
          match decode_rows cv (elem d) m (columns rows) ks (data rows) [] with
          | Ok slice => (Nil, Some {| elem := elem d; contents := slice |})
          | Fail e => (Err e, Some d)
          | Panic => (Panicked, Some d)
          end
      end
    end
  end.

End Typing.

(** Where a setter of [reflect] is called on a field of the wrong kind. *)
Module Hazards.

Import Mapper.

Definition kind_of (c : Carrier) : CarrierKind :=
  match c with
  | CNullString _ _ => KNullString
  | CNullInt64 _ _ => KNullInt64
  | CNullFloat64 _ _ => KNullFloat64
  | CBytes _ => KBytes
  end.

(** Whether the carrier holds a value the mapper writes through: a
    nullable carrier when it is valid, a byte slice always. *)
Definition written (c : Carrier) : bool :=
  match c with
  | CNullString _ v | CNullInt64 _ v | CNullFloat64 _ v => v
  | CBytes _ => true
  end.

(** The pairs of carrier and field type that pass the tests of
    [AssignableTo] and [ConvertibleTo] although the setter then called
    does not accept the kind of the field: [SetInt] on an unsigned,
    floating-point or string field, [SetFloat] on an integer field,
    [SetBytes] on an interface field. *)
Definition hazard (k : CarrierKind) (ty : GoType) : bool :=
  match k, ty with
  | KNullInt64, (TUint _ | TFloat64 | TString) => true
  | KNullFloat64, (TInt _ | TUint _) => true
  | KBytes, TAny => true
  | _, _ => false
  end.

End Hazards.

(** * Properties *)

(** ** Paths and keys *)

Section Keys.

Import Registry.

Lemma Clean_examples :
  GoPath.Clean "a//b/./c/.." = "a/b" /\ GoPath.Clean "/../a" = "/a" /\
  GoPath.Clean "../../a/.." = "../.." /\ GoPath.Clean "" = "." /\
  GoPath.Clean "a/.." = "." /\ GoPath.Clean "/" = "/" /\
  GoPath.Join ["a"; ""; "b/"] = "a/b" /\ GoPath.Join [""; ""] = "" /\
  GoPath.Dir "/a/b/sqlite3" = "/a/b" /\ GoPath.Dir "x" = ".".
Proof. vm_compute. repeat split. Qed.

Lemma VersionedDBID_examples :
  VersionedDBID "org1" "1.0" = "org1/1.0" /\
  VersionedDBID commonDBID commonDBVersion = "common/base" /\
  VersionedDBID "a/b" "c" = "a/b/c" /\ VersionedDBID "a" "b/c" = "a/b/c" /\
  VersionedDBID "" "x" = "x" /\ VersionedDBID "x" "" = "x".
Proof. vm_compute. repeat split. Qed.

Lemma lookup_set_dbMap_insert key info s :
  lookup key (set_dbMap <[key := Some info]> s) = db info.
Proof. unfold lookup; simpl. by rewrite lookup_insert_eq. Qed.

(** A creation that meets no error inserts the handle it returns. *)
Lemma create_succeeds cfg env key s :
  Inv.succeeds env ->
  exists s',
    create cfg env key s =
      ((Some {| addr := nextAddr s; file := DBPath cfg key |}, None), s') /\
    lookup key s' = Some {| addr := nextAddr s; file := DBPath cfg key |} /\
    nextAddr s' = S (nextAddr s).
Proof.
  intros (Hm & Ho & Hp & Hj & Hf). unfold create.
  rewrite Hm, Ho, Hp, Hj, Hf. simpl.
  destruct (debugging cfg); simpl;
    (eexists; split; [reflexivity | split; [apply lookup_set_dbMap_insert | reflexivity]]).
Qed.

End Keys.

(** ** The registry *)

Section RegistryFacts.

Import Registry.

Lemma healthy_succeeds : Inv.succeeds healthy.
Proof. repeat split. Qed.

Lemma dbVersionForID_hit cfg env id version s d :
  lookup (VersionedDBID id version) s = Some d ->
  dbVersionForID cfg env id version s = ((Some d, None), s).
Proof. intros H. unfold dbVersionForID. by rewrite H. Qed.

Lemma dbVersionForID_miss cfg env id version s :
  lookup (VersionedDBID id version) s = None ->
  dbVersionForID cfg env id version s =
    create cfg env (VersionedDBID id version) s.
Proof. intros H. unfold dbVersionForID. by rewrite H. Qed.

(** Whatever the state, an access in a healthy environment ends with the
    handle it returns in the map under the key. *)
Lemma dbVersionForID_healthy cfg id version s :
  exists d s',
    dbVersionForID cfg healthy id version s = ((Some d, None), s') /\
    lookup (VersionedDBID id version) s' = Some d.
Proof.
  destruct (lookup (VersionedDBID id version) s) as [d|] eqn:E.
  - exists d, s. split; [by apply dbVersionForID_hit | done].
  - rewrite dbVersionForID_miss by done.
    destruct (create_succeeds cfg healthy (VersionedDBID id version) s
                healthy_succeeds) as (s' & Hc & Hl & _).
    eauto.
Qed.

(** C8: the map from an (identity, version) pair to its key is not
    injective.  The pairs ("a/b", "c") and ("a", "b/c") are different and
    so are ("", "x") and ("x", ""), yet each couple has one key; the two
    pairs of a couple therefore have one on-disk path and directory under
    every configuration, and an access through the second pair returns
    the very handle the first pair created, out of one registry entry. *)
Theorem VersionedDBID_not_injective :
  exists id1 v1 id2 v2 id3 v3 id4 v4,
    (id1, v1) <> (id2, v2) /\
    VersionedDBID id1 v1 = VersionedDBID id2 v2 /\
    (id3, v3) <> (id4, v4) /\ (id3 = "" \/ v3 = "") /\
    VersionedDBID id3 v3 = VersionedDBID id4 v4 /\
    (forall cfg,
        DBPath cfg (VersionedDBID id1 v1) = DBPath cfg (VersionedDBID id2 v2) /\
        GoPath.Dir (DBPath cfg (VersionedDBID id1 v1)) =
          GoPath.Dir (DBPath cfg (VersionedDBID id2 v2))) /\
    (forall cfg env s,
        exists d s1,
          dbVersionForID cfg healthy id1 v1 s = ((Some d, None), s1) /\
          dbVersionForID cfg env id2 v2 s1 = ((Some d, None), s1) /\
          dbMap s1 !! VersionedDBID id1 v1 = dbMap s1 !! VersionedDBID id2 v2).
Proof.
  exists "a/b", "c", "a", "b/c", "", "x", "x", "".
  assert (K : VersionedDBID "a/b" "c" = VersionedDBID "a" "b/c")
    by (vm_compute; reflexivity).
  split; [discriminate |]. split; [exact K |].
  split; [discriminate |]. split; [by left |].
  split; [vm_compute; reflexivity |].
  split.
  - intros cfg. by rewrite K.
  - intros cfg env s.
    destruct (dbVersionForID_healthy cfg "a/b" "c" s) as (d & s1 & H1 & H2).
    exists d, s1. split; [exact H1 |]. split.
    + apply dbVersionForID_hit. by rewrite <- K.
    + by rewrite K.
Qed.

(** C5: an explicit identity equal to the reserved identity and an
    explicit version equal to the reserved version are refused with an
    error by [DBForID], [DBVersion] and [DBVersionForID], no handle is
    returned and the registry state is left as it was; [DB], which takes
    no argument, is the access with both reserved values, [DBForID] and
    [DBVersion] supply the reserved value for the component they do not
    take, and in a healthy environment [DB] yields the handle of the key
    "common/base". *)
Theorem reserved_values_rejected cfg env s :
  DBForID cfg env commonDBID s = ((None, Some "reserved ID: common"), s) /\
  DBVersion cfg env commonDBVersion s =
    ((None, Some "reserved version: base"), s) /\
  (forall version,
      DBVersionForID cfg env commonDBID version s =
        ((None, Some "reserved ID: common"), s)) /\
  (forall id,
      DBVersionForID cfg env id commonDBVersion s =
        ((None, Some (if String.eqb id commonDBID then "reserved ID: common"
                      else "reserved version: base")), s)) /\
  DB cfg env s = dbVersionForID cfg env commonDBID commonDBVersion s /\
  (forall id,
      DBForID cfg env id s =
        if String.eqb id commonDBID
        then ((None, Some ("reserved ID: " +:+ id)), s)
        else dbVersionForID cfg env id commonDBVersion s) /\
  (forall version,
      DBVersion cfg env version s =
        if String.eqb version commonDBVersion
        then ((None, Some ("reserved version: " +:+ version)), s)
        else dbVersionForID cfg env commonDBID version s) /\
  fst (DB cfg healthy empty) =
    (Some {| addr := 0; file := DBPath cfg "common/base" |}, None).
Proof.
  split; [reflexivity |]. split; [reflexivity |].
  split; [reflexivity |]. split.
  - intros id. unfold DBVersionForID.
    destruct (String.eqb id commonDBID) eqn:E.
    + apply String.eqb_eq in E. by subst.
    + reflexivity.
  - split; [reflexivity |]. split; [reflexivity |]. split; [reflexivity |].
    unfold DB. rewrite dbVersionForID_miss by reflexivity.
    destruct (create_succeeds cfg healthy
                (VersionedDBID commonDBID commonDBVersion) empty
                healthy_succeeds) as (s' & Hc & _).
    rewrite Hc. reflexivity.
Qed.

(** The three exported getters with arguments that are not reserved are
    the access for the key of the arguments. *)
Lemma getters_delegate cfg env id version s :
  id <> commonDBID -> version <> commonDBVersion ->
  DBForID cfg env id s = dbVersionForID cfg env id commonDBVersion s /\
  DBVersion cfg env version s = dbVersionForID cfg env commonDBID version s /\
  DBVersionForID cfg env id version s = dbVersionForID cfg env id version s.
Proof.
  intros Hi Hv. unfold DBForID, DBVersion, DBVersionForID.
  apply String.eqb_neq in Hi, Hv. by rewrite Hi, Hv.
Qed.

(** C10: when the creation fails at the ping or at one of the two pragmas,
    [dbVersionForID] returns the error together with a handle that is not
    nil (the one allocated just before the ping), and the map of the
    registry is the one it was: nothing is inserted for the key. *)
Theorem failed_creation_returns_handle cfg env id version s e :
  lookup (VersionedDBID id version) s = None ->
  Inv.fails_after_open env e ->
  exists d s',
    dbVersionForID cfg env id version s = ((Some d, Some e), s') /\
    addr d = nextAddr s /\
    dbMap s' = dbMap s /\
    lookup (VersionedDBID id version) s' = None.
Proof.
  intros Hmiss (Hm & Ho & Hcase).
  rewrite dbVersionForID_miss by done. unfold create. rewrite Hm, Ho.
  destruct Hcase as [Hp | [(Hp & Hj) | (Hp & Hj & Hf)]].
  - rewrite Hp. eexists _, _. split; [reflexivity |]. by repeat split.
  - rewrite Hp, Hj. eexists _, _. split; [reflexivity |]. by repeat split.
  - rewrite Hp, Hj, Hf. eexists _, _. split; [reflexivity |]. by repeat split.
Qed.

Lemma failed_creation_returns_handle_witness :
  exists d s',
    dbVersionForID
      {| local_storage_path := "/var"; data_path := "sqlite";
         data_source := "file:%s"; data_driver := "sqlite3";
         log_level := "warn"; db_max_conns := 10; db_idle_conns := 5;
         db_conns_timeout := 60 |}
      {| mkdirAll := None; sqlOpen := None; ping := Some "disk I/O error";
         execJournalMode := None; execForeignKeys := None |}
      "org1" "1.0" empty = ((Some d, Some "disk I/O error"), s') /\
    addr d = nextAddr empty /\
    dbMap s' = dbMap empty /\
    lookup (VersionedDBID "org1" "1.0") s' = None.
Proof.
  apply failed_creation_returns_handle.
  - reflexivity.
  - split; [reflexivity |]. split; [reflexivity |]. left. reflexivity.
Defined.

(** Before the handle is allocated a failure returns a nil handle. *)
Lemma early_failure_returns_nil cfg env id version s e :
  lookup (VersionedDBID id version) s = None ->
  mkdirAll env = Some e \/ (mkdirAll env = None /\ sqlOpen env = Some e) ->
  exists s',
    dbVersionForID cfg env id version s = ((None, Some e), s') /\
    dbMap s' = dbMap s.
Proof.
  intros Hmiss H. rewrite dbVersionForID_miss by done. unfold create.
  destruct H as [Hm | (Hm & Ho)].
  - rewrite Hm. eauto.
  - rewrite Hm, Ho. eauto.
Qed.

Lemma run_step cfg i rest gs s g :
  gs !! i = Some g ->
  run cfg (i :: rest) gs s =
    run cfg rest (<[i := fst (advance cfg g s)]> gs) (snd (advance cfg g s)).
Proof. intros H. simpl. rewrite H. by destruct (advance cfg g s). Qed.

Lemma advance_lookup_miss cfg id version env s :
  lookup (VersionedDBID id version) s = None ->
  advance cfg (call id version env) s =
    ({| g_id := id; g_version := version; g_env := env; g_pc := AtCreate |}, s).
Proof. intros H. unfold advance, call, goto. simpl. by rewrite H. Qed.

Lemma advance_lookup_hit cfg id version env s d :
  lookup (VersionedDBID id version) s = Some d ->
  advance cfg (call id version env) s =
    ({| g_id := id; g_version := version; g_env := env;
        g_pc := Finished (Some d, None) |}, s).
Proof. intros H. unfold advance, call, goto. simpl. by rewrite H. Qed.

Lemma advance_create cfg id version env s r s' :
  create cfg env (VersionedDBID id version) s = (r, s') ->
  advance cfg {| g_id := id; g_version := version; g_env := env;
                 g_pc := AtCreate |} s =
    ({| g_id := id; g_version := version; g_env := env; g_pc := Finished r |},
     s').
Proof. intros H. unfold advance, goto. simpl. by rewrite H. Qed.

(** C1: two goroutines make the first access to the key of ("org1",
    "1.0") at the same time.  Both look the key up under the read lock
    before either takes the write lock; the write-locked section does not
    look again, so each of them creates a handle: the callers hold two
    different handles, two were allocated, and the map keeps the second
    only. *)
Theorem concurrent_first_access_creates_twice cfg :
  let gs := [call "org1" "1.0" healthy; call "org1" "1.0" healthy] in
  let '(gs', s') := run cfg [0; 1; 0; 1] gs empty in
  let h0 := {| addr := 0; file := DBPath cfg "org1/1.0" |} in
  let h1 := {| addr := 1; file := DBPath cfg "org1/1.0" |} in
  results gs' = [Some (Some h0, None); Some (Some h1, None)] /\
  h0 <> h1 /\
  nextAddr s' = 2 /\
  lookup "org1/1.0" s' = Some h1.
Proof.
  assert (E0 : lookup (VersionedDBID "org1" "1.0") empty = None) by reflexivity.
  destruct (create_succeeds cfg healthy "org1/1.0" empty healthy_succeeds)
    as (s1 & Hc1 & Hl1 & Hn1).
  destruct (create_succeeds cfg healthy "org1/1.0" s1 healthy_succeeds)
    as (s2 & Hc2 & Hl2 & Hn2).
  intros gs. subst gs.
  erewrite run_step by reflexivity.
  rewrite (advance_lookup_miss _ _ _ _ _ E0). simpl fst; simpl snd.
  erewrite run_step by reflexivity.
  rewrite (advance_lookup_miss _ _ _ _ _ E0). simpl fst; simpl snd.
  erewrite run_step by reflexivity.
  rewrite (advance_create _ "org1" "1.0" _ _ _ _ Hc1). simpl fst; simpl snd.
  erewrite run_step by reflexivity.
  rewrite (advance_create _ "org1" "1.0" _ _ _ _ Hc2). simpl fst; simpl snd.
  rewrite Hn1 in *. cbn.
  split; [reflexivity |]. split; [discriminate |].
  split; [by rewrite Hn2 | exact Hl2].
Qed.

(** Run one after the other, the same two calls share one handle. *)
Lemma sequential_first_access_creates_once cfg :
  let gs := [call "org1" "1.0" healthy; call "org1" "1.0" healthy] in
  let '(gs', s') := run cfg [0; 0; 1] gs empty in
  let h0 := {| addr := 0; file := DBPath cfg "org1/1.0" |} in
  results gs' = [Some (Some h0, None); Some (Some h0, None)] /\
  nextAddr s' = 1.
Proof.
  assert (E0 : lookup (VersionedDBID "org1" "1.0") empty = None) by reflexivity.
  destruct (create_succeeds cfg healthy "org1/1.0" empty healthy_succeeds)
    as (s1 & Hc1 & Hl1 & Hn1).
  intros gs. subst gs.
  erewrite run_step by reflexivity.
  rewrite (advance_lookup_miss _ _ _ _ _ E0). simpl fst; simpl snd.
  erewrite run_step by reflexivity.
  rewrite (advance_create _ "org1" "1.0" _ _ _ _ Hc1). simpl fst; simpl snd.
  erewrite run_step by reflexivity.
  rewrite (advance_lookup_hit _ "org1" "1.0" _ _ _ Hl1). simpl fst; simpl snd.
  cbn. by rewrite Hn1.
Qed.

End RegistryFacts.

(** ** Release and re-creation *)

Section ReleaseFacts.

Import Registry.

(** [wf] only reads the map, the two counters and the samplers. *)
Lemma wf_ext s s' :
  dbMap s' = dbMap s -> nextAddr s <= nextAddr s' ->
  nextChan s' = nextChan s -> samplers s' = samplers s ->
  Inv.wf s -> Inv.wf s'.
Proof.
  intros Hm Ha Hc Hs [W1 W2 W3 W4 W5].
  split; rewrite ?Hm, ?Hc, ?Hs; eauto.
  intros key dbm d H1 H2. specialize (W1 _ _ _ H1 H2). lia.
Qed.

Lemma wf_empty : Inv.wf empty.
Proof.
  split; simpl; intros; try (rewrite lookup_empty in *; discriminate).
  by apply elem_of_empty in H.
Qed.

(** Inserting a fresh handle with a fresh channel (or none). *)
Lemma wf_insert cfg s key :
  Inv.wf s ->
  Inv.wf
    (set_dbMap
       <[key := Some {| db := Some {| addr := nextAddr s;
                                      file := DBPath cfg key |};
                        closed := if debugging cfg then Some (nextChan s)
                                  else None |}]>
       {| dbMap := dbMap s; nextAddr := S (nextAddr s);
          nextChan := if debugging cfg then S (nextChan s) else nextChan s;
          samplers := if debugging cfg then {[nextChan s]} ∪ samplers s
                      else samplers s;
          finalizers := finalizers s; pools := pools s; dirs := dirs s;
          logs := logs s |}).
Proof.
  intros [W1 W2 W3 W4 W5]. split; simpl.
  - intros k dbm d H Hd. apply lookup_insert_Some in H as [[<- H] | [Hne H]].
    + inversion H; subst; simpl in Hd. inversion Hd; subst; simpl. lia.
    + specialize (W1 _ _ _ H Hd). lia.
  - intros k dbm c H Hc. apply lookup_insert_Some in H as [[<- H] | [Hne H]].
    + inversion H; subst; simpl in Hc.
      destruct (debugging cfg); inversion Hc; subst. lia.
    + specialize (W2 _ _ _ H Hc). destruct (debugging cfg); lia.
  - intros c Hc. destruct (debugging cfg).
    + apply elem_of_union in Hc as [Hc | Hc].
      * apply elem_of_singleton in Hc. lia.
      * specialize (W3 _ Hc). lia.
    + by apply W3.
  - intros k1 k2 dbm1 dbm2 c H1 H2 C1 C2.
    apply lookup_insert_Some in H1 as [[<- H1] | [Hne1 H1]];
      apply lookup_insert_Some in H2 as [[<- H2] | [Hne2 H2]]; try done.
    + inversion H1; subst; simpl in C1.
      destruct (debugging cfg); inversion C1; subst.
      specialize (W2 _ _ _ H2 C2). lia.
    + inversion H2; subst; simpl in C2.
      destruct (debugging cfg); inversion C2; subst.
      specialize (W2 _ _ _ H1 C1). lia.
    + eauto.
  - intros k dbm c H Hc.
    apply lookup_insert_Some in H as [[<- H] | [Hne H]].
    + inversion H; subst; simpl in Hc.
      destruct (debugging cfg); inversion Hc; subst.
      apply elem_of_union. left. by apply elem_of_singleton.
    + specialize (W5 _ _ _ H Hc). destruct (debugging cfg); [| done].
      apply elem_of_union. by right.
Qed.

Lemma wf_create cfg env key s :
  Inv.wf s -> Inv.wf (snd (create cfg env key s)).
Proof.
  intros W. unfold create.
  destruct (mkdirAll env); [exact W |].
  destruct (sqlOpen env); [by apply (wf_ext s) |].
  destruct (ping env); [apply (wf_ext s); simpl; auto |].
  destruct (execJournalMode env); [apply (wf_ext s); simpl; auto |].
  destruct (execForeignKeys env); [apply (wf_ext s); simpl; auto |].
  pose proof (wf_insert cfg s key W) as W'.
  destruct (debugging cfg); simpl in *;
    (eapply wf_ext; [| | | | exact W']; simpl; auto).
Qed.

(** Clearing or deleting an entry, with or without stopping its sampler. *)
Lemma wf_remove s s' key :
  Inv.wf s ->
  (forall k v, dbMap s' !! k = Some (Some v) ->
               k <> key /\ dbMap s !! k = Some (Some v)) ->
  nextAddr s' = nextAddr s -> nextChan s' = nextChan s ->
  (samplers s' = samplers s \/
   exists dbm c, dbMap s !! key = Some (Some dbm) /\ closed dbm = Some c /\
                 samplers s' = samplers s ∖ {[c]}) ->
  Inv.wf s'.
Proof.
  intros [W1 W2 W3 W4 W5] Hsub Ha Hc Hs. split.
  - intros k dbm d H Hd. apply Hsub in H as [_ H]. rewrite Ha. eauto.
  - intros k dbm c H Hd. apply Hsub in H as [_ H]. rewrite Hc. eauto.
  - intros c Hin. rewrite Hc. apply W3.
    destruct Hs as [E | (dbm & c' & _ & _ & E)]; rewrite E in Hin; [done |].
    by apply elem_of_difference in Hin as [Hin _].
  - intros k1 k2 dbm1 dbm2 c H1 H2 C1 C2.
    apply Hsub in H1 as [_ H1]. apply Hsub in H2 as [_ H2]. eauto.
  - intros k dbm c H Hcl. apply Hsub in H as [Hne H].
    pose proof (W5 _ _ _ H Hcl) as Hin.
    destruct Hs as [E | (dbm' & c' & Hk & Hc' & E)]; rewrite E; [done |].
    apply elem_of_difference. split; [done |].
    intros Heq. apply elem_of_singleton in Heq. subst c'.
    apply Hne. eapply W4; eauto.
Qed.

Lemma wf_release cfg id version s s' :
  Inv.wf s -> ReleaseDBForID cfg id version s = Returned s' -> Inv.wf s'.
Proof.
  intros W. unfold ReleaseDBForID.
  set (key := VersionedDBID id version).
  assert (Hclear : forall s0 k (v : dbMapInfo),
             dbMap s0 = dbMap s ->
             <[key := None]> (dbMap s0) !! k = Some (Some v) ->
             k <> key /\ dbMap s !! k = Some (Some v)).
  { intros s0 k v E H. rewrite E in H.
    apply lookup_insert_Some in H as [[_ H] | [Hne H]]; [discriminate |].
    split; [congruence | done]. }
  destruct (dbMap s !! key) as [[[[d|] ch]|]|] eqn:E;
    try (intros H; inversion H; subst; by apply (wf_ext s)).
  destruct (debugging cfg).
  - destruct ch as [c|]; [| discriminate].
    destruct (decide (c ∈ samplers s)); [| discriminate].
    intros H; inversion H; subst; clear H.
    eapply (wf_remove s _ key W); simpl; auto.
    + intros k v. by apply (Hclear s).
    + right. eauto.
  - intros H; inversion H; subst; clear H.
    eapply (wf_remove s _ key W); simpl; auto.
    intros k v. by apply (Hclear s).
Qed.

Lemma wf_Delete cfg key closeErr removeErr a s :
  Inv.wf s -> Inv.wf (Delete cfg key closeErr removeErr a s).
Proof.
  intros W. unfold Delete.
  eapply (wf_remove s _ key W).
  - intros k v H. destruct closeErr, removeErr; simpl in H;
      apply lookup_delete_Some in H as [Hne H]; split; congruence.
  - by destruct closeErr, removeErr.
  - by destruct closeErr, removeErr.
  - left. by destruct closeErr, removeErr.
Qed.

Lemma reachable_wf s : Inv.reachable s -> Inv.wf s.
Proof.
  induction 1;
    eauto using wf_empty, wf_create, wf_release, wf_Delete.
Qed.

(** The release of an existing handle returns when its send can
    complete. *)
Lemma release_returns cfg id version s d :
  Inv.wf s -> Inv.releasable cfg (VersionedDBID id version) s ->
  lookup (VersionedDBID id version) s = Some d ->
  exists s',
    ReleaseDBForID cfg id version s = Returned s' /\
    dbMap s' = <[VersionedDBID id version := None]> (dbMap s) /\
    nextAddr s' = nextAddr s /\
    finalizers s' = (addr d, VersionedDBID id version) :: finalizers s.
Proof.
  intros W Hrel Hl. unfold lookup in Hl. unfold ReleaseDBForID.
  destruct (dbMap s !! VersionedDBID id version) as [[[d' ch]|]|] eqn:E;
    try discriminate.
  simpl in Hl. subst d'.
  destruct (debugging cfg) eqn:D.
  - destruct (Hrel D _ E) as [c Hc]; [by eexists |].
    simpl in Hc. subst ch.
    rewrite decide_True by (by eapply (Inv.wf_listening s W)).
    eexists. split; [reflexivity |]. by repeat split.
  - eexists. split; [reflexivity |]. by repeat split.
Qed.

(** An access that succeeds below debug level leaves an entry without a
    stop channel. *)
Lemma quiet_creation cfg env key s :
  debugging cfg = false -> Inv.succeeds env ->
  exists s',
    create cfg env key s =
      ((Some {| addr := nextAddr s; file := DBPath cfg key |}, None), s') /\
    dbMap s' !! key =
      Some (Some {| db := Some {| addr := nextAddr s; file := DBPath cfg key |};
                    closed := None |}).
Proof.
  intros D (Hm & Ho & Hp & Hj & Hf). unfold create.
  rewrite Hm, Ho, Hp, Hj, Hf, D. simpl.
  eexists. split; [reflexivity |]. simpl. apply lookup_insert_eq.
Qed.

(** C6, where the code breaks it: a first access made while the log level
    is below debug creates the handle without a stop channel; when the
    level read by the release is debug, [ReleaseDBForID] sends on that
    nil channel and never returns: the entry is not cleared and the write
    lock is never given back.  Released at the level of its creation the
    same handle is released at once. *)
Theorem release_blocks_after_level_raise quiet verbose env id version s :
  debugging quiet = false -> debugging verbose = true ->
  Inv.succeeds env ->
  lookup (VersionedDBID id version) s = None ->
  exists d s1,
    dbVersionForID quiet env id version s = ((Some d, None), s1) /\
    lookup (VersionedDBID id version) s1 = Some d /\
    ReleaseDBForID verbose id version s1 = BlocksForever /\
    ReleaseDBForID quiet id version s1 <> BlocksForever.
Proof.
  intros Dq Dv Hs Hmiss. rewrite dbVersionForID_miss by done.
  destruct (quiet_creation quiet env (VersionedDBID id version) s Dq Hs)
    as (s1 & Hc & He).
  eexists _, s1. split; [exact Hc |]. split.
  - unfold lookup. by rewrite He.
  - unfold ReleaseDBForID. rewrite He, Dv, Dq. split; [reflexivity | discriminate].
Qed.

Lemma release_blocks_after_level_raise_witness :
  exists d s1,
    dbVersionForID Lifecycle.quiet healthy "org1" "1.0" empty =
      ((Some d, None), s1) /\
    lookup (VersionedDBID "org1" "1.0") s1 = Some d /\
    ReleaseDBForID Lifecycle.sample "org1" "1.0" s1 = BlocksForever /\
    ReleaseDBForID Lifecycle.quiet "org1" "1.0" s1 <> BlocksForever.
Proof.
  apply (release_blocks_after_level_raise Lifecycle.quiet Lifecycle.sample
           healthy "org1" "1.0" empty).
  - reflexivity.
  - reflexivity.
  - repeat split.
  - reflexivity.
Defined.



(** X6: the release of a key that has no handle returns, leaves the map
    as it is and logs the condition at error severity. *)
Lemma release_not_found cfg id version s :
  lookup (VersionedDBID id version) s = None ->
  exists s',
    ReleaseDBForID cfg id version s = Returned s' /\ dbMap s' = dbMap s /\
    logs s' = logs s ++ [(Error, "Cannot find DB handle for ver {" +:+ version
                                 +:+ "} to release")].
Proof.
  intros Hl. unfold lookup in Hl. unfold ReleaseDBForID.
  destruct (dbMap s !! VersionedDBID id version) as [[[[d|] ch]|]|] eqn:E;
    try discriminate; eexists; split; try reflexivity; by split.
Qed.

(** The configuration is read at every call.  A handle created below
    debug level has no stop channel; if the level is debug when it is
    released, the send on the nil channel never completes. *)
Lemma release_after_level_change_waits :
  let quiet := {| local_storage_path := "/var"; data_path := "sqlite";
                  data_source := "file:%s"; data_driver := "sqlite3";
                  log_level := "warn"; db_max_conns := 10; db_idle_conns := 5;
                  db_conns_timeout := 60 |} in
  let verbose := {| local_storage_path := "/var"; data_path := "sqlite";
                    data_source := "file:%s"; data_driver := "sqlite3";
                    log_level := "DEBUG"; db_max_conns := 10;
                    db_idle_conns := 5; db_conns_timeout := 60 |} in
  ReleaseDBForID verbose "org1" "1.0"
    (snd (dbVersionForID quiet healthy "org1" "1.0" empty)) = BlocksForever.
Proof. vm_compute. reflexivity. Qed.

(** The finalizer deletes the key, whatever the map then holds for it. *)
Lemma Delete_clears_key cfg key closeErr removeErr a s :
  dbMap (Delete cfg key closeErr removeErr a s) !! key = None.
Proof.
  unfold Delete. destruct closeErr, removeErr; simpl; apply lookup_delete_eq.
Qed.

End ReleaseFacts.

(** ** Transactions *)

Section TxnFacts.

Import Txn.

Lemma unlocks_by_snoc t l e :
  unlocks_by t (l ++ [e]) = unlocks_by t l + (if is_unlock_by t e then 1 else 0).
Proof.
  unfold unlocks_by. rewrite filter_app, length_app. f_equal.
  rewrite filter_cons, filter_nil. by destruct (is_unlock_by t e).
Qed.

Lemma tx_inv_init : Inv.tx_inv init.
Proof.
  split; simpl; intros; try (rewrite lookup_nil in *; discriminate).
  reflexivity.
Qed.

Lemma Begin_blocked_iff d e w : Begin d e w = Blocked <-> d ∈ held w.
Proof.
  unfold Begin, Lock, Unlock. destruct (decide (d ∈ held w)) as [H|H].
  - tauto.
  - split; [| tauto]. destruct e; simpl.
    + rewrite decide_True by set_solver. discriminate.
    + discriminate.
Qed.

Lemma tx_inv_Begin d e w r w' :
  Inv.tx_inv w -> Begin d e w = Next r w' -> Inv.tx_inv w'.
Proof.
  intros [I1 I2 I3 I4]. unfold Begin, Lock, Unlock.
  destruct (decide (d ∈ held w)) as [H|H]; [discriminate |].
  destruct e as [e|]; simpl.
  - rewrite decide_True by set_solver.
    intros E; inversion E; subst; clear E. split; simpl.
    + intros t tx Ht Ho. specialize (I1 _ _ Ht Ho). set_solver.
    + eauto.
    + intros t tx Ht. rewrite !unlocks_by_snoc. simpl.
      rewrite (I3 _ _ Ht). lia.
    + intros t Ht. rewrite !unlocks_by_snoc. simpl. rewrite (I4 _ Ht). lia.
  - intros E; inversion E; subst; clear E. split; simpl.
    + intros t tx Ht Ho. apply lookup_app_Some in Ht as [Ht | [_ Ht]].
      * specialize (I1 _ _ Ht Ho). set_solver.
      * apply list_lookup_singleton_Some in Ht as [_ <-]. simpl. set_solver.
    + intros t1 t2 tx1 tx2 H1 H2 O1 O2 M.
      apply lookup_app_Some in H1 as [H1 | [L1 H1]];
        apply lookup_app_Some in H2 as [H2 | [L2 H2]].
      * eauto.
      * apply list_lookup_singleton_Some in H2 as [_ <-]. simpl in M.
        specialize (I1 _ _ H1 O1). rewrite M in I1. done.
      * apply list_lookup_singleton_Some in H1 as [_ <-]. simpl in M.
        specialize (I1 _ _ H2 O2). rewrite <- M in I1. done.
      * apply list_lookup_singleton_Some in H1 as [H1 _].
        apply list_lookup_singleton_Some in H2 as [H2 _]. lia.
    + intros t tx Ht. rewrite unlocks_by_snoc. simpl.
      apply lookup_app_Some in Ht as [Ht | [L Ht]].
      * rewrite (I3 _ _ Ht). lia.
      * apply list_lookup_singleton_Some in Ht as [_ <-]. simpl.
        rewrite (I4 _ L). lia.
    + intros t Ht. rewrite length_app in Ht. simpl in Ht.
      rewrite unlocks_by_snoc. simpl. rewrite I4 by lia. lia.
Qed.

(** A call on a transaction whose flag is set changes nothing. *)
Lemma finish_closed t e w tx :
  heap w !! t = Some tx -> tx_closed tx = true -> finish t e w = Next e w.
Proof.
  intros Ht Hc. unfold finish, close_once. rewrite Ht, Hc.
  rewrite list_insert_id by done. by destruct w.
Qed.

(** The first call on a transaction sets the flag and unlocks. *)
Lemma finish_open t e w tx :
  Inv.tx_inv w -> heap w !! t = Some tx -> tx_closed tx = false ->
  finish t e w =
    Next e {| held := held w ∖ {[tx_mutex tx]};
              heap := <[t := {| tx_mutex := tx_mutex tx; tx_closed := true |}]>
                        (heap w);
              trace := trace w ++ [Unlocked (tx_mutex tx) (Some t)] |}.
Proof.
  intros I Ht Ho. unfold finish, close_once, Unlock. rewrite Ht, Ho. simpl.
  by rewrite decide_True by (eapply Inv.inv_locked; eauto).
Qed.

Lemma tx_inv_finish t e w r w' :
  Inv.tx_inv w -> finish t e w = Next r w' -> Inv.tx_inv w'.
Proof.
  intros I. destruct (heap w !! t) as [tx|] eqn:Ht.
  2:{ unfold finish. rewrite Ht. discriminate. }
  destruct (tx_closed tx) eqn:Hc.
  { rewrite (finish_closed _ _ _ _ Ht Hc). intros E; by inversion E; subst. }
  rewrite (finish_open _ _ _ _ I Ht Hc).
  intros E; inversion E; subst; clear E.
  destruct I as [I1 I2 I3 I4]. split; simpl.
  - intros t0 tx0 H0 O0.
    apply list_lookup_insert_Some in H0 as [(<- & <- & _) | (Hne & H0)];
      [discriminate |].
    specialize (I1 _ _ H0 O0). apply elem_of_difference. split; [done |].
    intros M. apply elem_of_singleton in M.
    apply Hne. by eapply (I2 t t0 tx tx0).
  - intros t1 t2 tx1 tx2 H1 H2 O1 O2 M.
    apply list_lookup_insert_Some in H1 as [(<- & <- & _) | (N1 & H1)];
      [discriminate |].
    apply list_lookup_insert_Some in H2 as [(<- & <- & _) | (N2 & H2)];
      [discriminate |].
    eauto.
  - intros t0 tx0 H0. rewrite unlocks_by_snoc. simpl.
    apply list_lookup_insert_Some in H0 as [(<- & <- & _) | (Hne & H0)]; simpl.
    + rewrite (I3 _ _ Ht), Hc, Nat.eqb_refl. lia.
    + rewrite (I3 _ _ H0). apply Nat.eqb_neq in Hne. rewrite Hne. lia.
  - intros t0 L. rewrite length_insert in L. rewrite unlocks_by_snoc. simpl.
    assert (t < length (heap w)) by (eapply lookup_lt_Some; eauto).
    assert (Hne : t <> t0) by lia. apply Nat.eqb_neq in Hne. rewrite Hne.
    rewrite I4 by done. lia.
Qed.

Lemma tx_inv_step w a w' : Inv.tx_inv w -> step w a = Some w' -> Inv.tx_inv w'.
Proof.
  intros I. destruct a as [d e | t e | t e]; simpl; unfold Commit, Rollback.
  - destruct (Begin d e w) as [r w1| |] eqn:E; simpl; [| discriminate ..].
    intros H; inversion H; subst. eauto using tx_inv_Begin.
  - destruct (finish t e w) as [r w1| |] eqn:E; simpl; [| discriminate ..].
    intros H; inversion H; subst. eauto using tx_inv_finish.
  - destruct (finish t e w) as [r w1| |] eqn:E; simpl; [| discriminate ..].
    intros H; inversion H; subst. eauto using tx_inv_finish.
Qed.

Lemma tx_inv_exec l : forall w w',
  Inv.tx_inv w -> exec w l = Some w' -> Inv.tx_inv w'.
Proof.
  induction l as [| a l IH]; intros w w' I; simpl.
  - intros H; by inversion H; subst.
  - destruct (step w a) as [w1|] eqn:E; [| discriminate].
    eauto using tx_inv_step.
Qed.

Lemma filter_none {A} (P : A -> Prop) `{forall x, Decision (P x)} (l : list A) :
  (forall i x, l !! i = Some x -> ~ P x) -> filter P l = [].
Proof.
  induction l as [| a l IH]; intros N; [reflexivity |].
  rewrite filter_cons, decide_False by (apply (N 0); reflexivity).
  apply IH. intros i x Hx. apply (N (S i)). exact Hx.
Qed.

Lemma filter_at_most_one {A} (P : A -> Prop) `{forall x, Decision (P x)}
      (l : list A) :
  (forall i j x y, l !! i = Some x -> l !! j = Some y -> P x -> P y -> i = j) ->
  length (filter P l) <= 1.
Proof.
  induction l as [| a l IH]; intros U; [simpl; lia |].
  rewrite filter_cons. destruct (decide (P a)) as [Pa | Pa].
  - assert (E : filter P l = []).
    { apply filter_none. intros j y Hy Py.
      specialize (U 0 (S j) a y eq_refl Hy Pa Py). discriminate. }
    rewrite E. simpl. lia.
  - apply IH. intros i j x y Hx Hy Px Py.
    specialize (U (S i) (S j) x y Hx Hy Px Py). lia.
Qed.

Lemma exec_inv acts w : exec init acts = Some w -> Inv.tx_inv w.
Proof. apply tx_inv_exec, tx_inv_init. Qed.

(** C7: in every world the calls can produce, a handle has at most one
    transaction that is begun and neither committed nor rolled back; while
    there is one, [Begin] on the handle waits for the mutex; and the first
    [Commit] or [Rollback] of that transaction completes, leaves the
    handle with no transaction in flight and lets [Begin] proceed. *)
Theorem one_transaction_in_flight acts w d :
  exec init acts = Some w ->
  length (in_flight d w) <= 1 /\
  (in_flight d w <> [] -> forall e, Begin d e w = Blocked) /\
  (forall t tx, heap w !! t = Some tx -> tx_mutex tx = d ->
                tx_closed tx = false ->
     forall e, exists w',
       Commit t e w = Next e w' /\ Rollback t e w = Next e w' /\
       in_flight d w' = [] /\
       forall e', Begin d e' w' <> Blocked).
Proof.
  intros Hx. pose proof (exec_inv _ _ Hx) as I. split; [| split].
  - apply filter_at_most_one. intros i j x y Hi Hj [Mx Ox] [My Oy].
    eapply (Inv.inv_unique w I); eauto. congruence.
  - intros Hne e. apply Begin_blocked_iff.
    destruct (in_flight d w) as [| tx l] eqn:E; [done |].
    assert (Hin : tx ∈ in_flight d w) by (rewrite E; left).
    apply list_elem_of_filter in Hin as [[M O] Hin].
    apply list_elem_of_lookup in Hin as [t Ht].
    rewrite <- M. eapply (Inv.inv_locked w I); eauto.
  - intros t tx Ht M O e. eexists. unfold Commit, Rollback.
    split; [by apply finish_open |]. split; [by apply finish_open |]. split.
    + apply filter_none. simpl. intros i x Hi [Mi Oi].
      apply list_lookup_insert_Some in Hi as [(<- & <- & _) | (Hne & Hi)];
        [discriminate |].
      apply Hne. eapply (Inv.inv_unique w I); eauto. congruence.
    + intros e' B. apply Begin_blocked_iff in B. simpl in B.
      apply elem_of_difference in B as [_ B]. apply B. by apply elem_of_singleton.
Qed.

Lemma one_transaction_in_flight_witness :
  let w := {| held := {[7]} ∪ ∅;
              heap := [{| tx_mutex := 7; tx_closed := false |}];
              trace := [Locked 7] |} in
  length (in_flight 7 w) <= 1 /\
  (in_flight 7 w <> [] -> forall e, Begin 7 e w = Blocked) /\
  (forall t tx, heap w !! t = Some tx -> tx_mutex tx = 7 ->
                tx_closed tx = false ->
     forall e, exists w',
       Commit t e w = Next e w' /\ Rollback t e w = Next e w' /\
       in_flight 7 w' = [] /\
       forall e', Begin 7 e' w' <> Blocked).
Proof.
  intros w. apply (one_transaction_in_flight [ABegin 7 None] w 7).
  reflexivity.
Defined.

(** C9: in every world the calls can produce, no transaction has
    unlocked the mutex more than once; a [Commit] or [Rollback] on a
    transaction whose flag is set returns the engine's answer and leaves
    the world as it is (no unlock, whoever holds the mutex then); and
    after any [Commit] or [Rollback] that completes, every further
    [Commit] or [Rollback] on the same transaction is of that kind. *)
Theorem unlock_at_most_once acts w :
  exec init acts = Some w ->
  (forall t, unlocks_by t (trace w) <= 1) /\
  (forall t tx, heap w !! t = Some tx -> tx_closed tx = true ->
     forall e, Commit t e w = Next e w /\ Rollback t e w = Next e w) /\
  (forall t e r w1,
     Commit t e w = Next r w1 \/ Rollback t e w = Next r w1 ->
     unlocks_by t (trace w1) = 1 /\
     forall e', Commit t e' w1 = Next e' w1 /\ Rollback t e' w1 = Next e' w1).
Proof.
  intros Hx. pose proof (exec_inv _ _ Hx) as I. split; [| split].
  - intros t. destruct (heap w !! t) as [tx|] eqn:Ht.
    + rewrite (Inv.inv_unlocks w I _ _ Ht). destruct (tx_closed tx); lia.
    + apply lookup_ge_None in Ht. rewrite (Inv.inv_fresh w I _ Ht). lia.
  - intros t tx Ht Hc e. unfold Commit, Rollback.
    split; by eapply finish_closed.
  - intros t e r w1 Hf. unfold Commit, Rollback in *.
    assert (Hf' : finish t e w = Next r w1) by (by destruct Hf).
    clear Hf. pose proof (tx_inv_finish _ _ _ _ _ I Hf') as I1.
    destruct (heap w !! t) as [tx|] eqn:Ht.
    2:{ unfold finish in Hf'. rewrite Ht in Hf'. discriminate. }
    assert (Hc1 : exists tx1, heap w1 !! t = Some tx1 /\ tx_closed tx1 = true).
    { destruct (tx_closed tx) eqn:Hc.
      - rewrite (finish_closed _ _ _ _ Ht Hc) in Hf'. inversion Hf'; subst.
        eauto.
      - rewrite (finish_open _ _ _ _ I Ht Hc) in Hf'. inversion Hf'; subst.
        simpl. exists {| tx_mutex := tx_mutex tx; tx_closed := true |}.
        split; [| reflexivity].
        apply list_lookup_insert_eq. eapply lookup_lt_Some; eauto. }
    destruct Hc1 as (tx1 & Ht1 & Hc1). split.
    + rewrite (Inv.inv_unlocks w1 I1 _ _ Ht1). by rewrite Hc1.
    + intros e'. split; by eapply finish_closed.
Qed.

Lemma unlock_at_most_once_witness :
  let w := {| held := {[7]} ∪ (({[7]} ∪ ∅) ∖ {[7]});
              heap := [{| tx_mutex := 7; tx_closed := true |};
                       {| tx_mutex := 7; tx_closed := false |}];
              trace := [Locked 7; Unlocked 7 (Some 0); Locked 7] |} in
  (forall t, unlocks_by t (trace w) <= 1) /\
  (forall t tx, heap w !! t = Some tx -> tx_closed tx = true ->
     forall e, Commit t e w = Next e w /\ Rollback t e w = Next e w) /\
  (forall t e r w1,
     Commit t e w = Next r w1 \/ Rollback t e w = Next r w1 ->
     unlocks_by t (trace w1) = 1 /\
     forall e', Commit t e' w1 = Next e' w1 /\ Rollback t e' w1 = Next e' w1).
Proof.
  intros w.
  apply (unlock_at_most_once
           [ABegin 7 None; ACommit 0 None; ABegin 7 None] w).
  reflexivity.
Defined.

(** On the flag alone: the second of two calls never defers an unlock. *)
Lemma close_once_twice tx :
  snd (close_once (fst (close_once tx))) = false /\
  fst (close_once (fst (close_once tx))) = fst (close_once tx).
Proof. unfold close_once. by destruct tx as [m []]. Qed.

End TxnFacts.

(** ** The tracing wrapper *)

Section WrapFacts.

Import Wrap.

(** A failure of the engine in [Prepare], [Begin] or [Close] is logged
    once at error severity and the engine's error is the one returned. *)
Lemma failures_logged_at_error c query err :
  (let '(r, _, l) := Prepare c query (inl err) in
   r = (None, Some err) /\
   logged_at Error l =
     [{| level := Error; field := Some ("stmt", add1_int64 (stmtCounter c));
         msg := prepare_stmt_failed err |}]) /\
  (let '(r, _, l) := Begin c (inl err) in
   r = (None, Some err) /\
   logged_at Error l =
     [{| level := Error; field := Some ("tx", add1_int64 (txCounter c));
         msg := begin_trans_failed err |}]) /\
  (let '(r, _, l) := Close c (Some err) in
   r = Some err /\
   logged_at Error l =
     [{| level := Error; field := None; msg := close_conn_failed err |}]).
Proof. repeat split. Qed.

(** A call the engine completes logs nothing at error severity and hands
    the engine's object on. *)
Lemma successes_not_logged_at_error c query args s rows :
  (let '(r, _, l) := Prepare c query (inr s) in
   fst r = Some {| ws_stmt := s;
                   ws_field := ("stmt", add1_int64 (stmtCounter c)) |} /\
   snd r = None /\ logged_at Error l = []) /\
  (let '(r, _, l) := Begin c (inr s) in
   fst r = Some {| wt_tx := s;
                   wt_field := ("tx", add1_int64 (txCounter c)) |} /\
   snd r = None /\ logged_at Error l = []) /\
  (let '(r, _, l) := Close c None in r = None /\ logged_at Error l = []) /\
  (let '(r, _, l) := Query c query args (rows, None) in
   r = (rows, None) /\ logged_at Error l = []).
Proof. repeat split. Qed.

(** C3, at [Query]: when the engine fails the direct query with [err],
    the wrapper returns the engine's pair unchanged, but its two log calls
    are both at debug severity; nothing is logged at error severity. *)
Theorem query_failure_logged_at_debug c query args rows err :
  Query c query args (rows, Some err) =
    ((rows, Some err), c,
     [{| level := Debug; field := None; msg := begin_query query args |};
      {| level := Debug; field := None; msg := query_failed err |}]) /\
  logged_at Error (snd (Query c query args (rows, Some err))) = [].
Proof. split; reflexivity. Qed.

(** The counters number the statements and transactions of a connection
    one after the other. *)
Lemma counters_advance c query engine engine' :
  stmtCounter (snd (fst (Prepare c query engine))) = add1_int64 (stmtCounter c) /\
  txCounter (snd (fst (Prepare c query engine))) = txCounter c /\
  txCounter (snd (fst (Begin c engine'))) = add1_int64 (txCounter c) /\
  stmtCounter (snd (fst (Begin c engine'))) = stmtCounter c.
Proof. destruct engine, engine'; repeat split. Qed.

End WrapFacts.

(** ** The result-set mapper *)

Section MapperFacts.

Import Mapper RoundTrip.

Lemma carrier_for_None ty : carrier_for ty = None <-> ty ∉ accepted_types.
Proof.
  unfold carrier_for, accepted_types.
  repeat match goal with
         | |- context [String.eqb ty ?s] =>
             let E := fresh "E" in
             destruct (String.eqb ty s) eqn:E;
             [ apply String.eqb_eq in E; subst;
               split; [discriminate | intros H; exfalso; apply H; set_solver]
             | apply String.eqb_neq in E ]
         end.
  split; [| done]. intros _ H.
  repeat (apply elem_of_cons in H as [H | H]; [done |]).
  by apply elem_of_nil in H.
Qed.

(** The switch stops at the first column type it does not accept. *)
Lemma carriers_rejects tys :
  (exists ty, ty ∈ tys /\ carrier_for ty = None) ->
  exists bad, carriers tys = inl bad /\ bad ∈ tys /\ carrier_for bad = None.
Proof.
  induction tys as [| ty tys IH]; intros (x & Hin & Hx).
  - by apply elem_of_nil in Hin.
  - simpl. destruct (carrier_for ty) as [k|] eqn:E.
    + apply elem_of_cons in Hin as [-> | Hin]; [congruence |].
      destruct IH as (bad & -> & Hb & Hn); [eauto |].
      exists bad. split; [done |]. split; [by right | done].
    + exists ty. split; [done |]. split; [by left | done].
Qed.

(** C2, as the code has it: "null" is none of text, integer, float and
    blob, and a result set with a column reported as "null" is decoded
    without error into the destination. *)
Lemma null_column_type_is_decoded :
  ("null" ∉ named_types) /\
  StructsFromRows refusing [] (Some {| elem := note_type; contents := [] |})
                  null_typed_rows =
    (Nil,
     Some {| elem := note_type;
             contents := [ {[ "Name" := VNullString "" false ]} ] |},
     [(note_type, {[ "name" := "Name" ]})]).
Proof.
  split.
  - intros H. repeat (apply elem_of_cons in H as [H | H]; [discriminate |]).
    by apply elem_of_nil in H.
  - vm_compute. reflexivity.
Qed.

(** C2, amended: when both column calls succeed and some column has a
    reported type that is none of null, text, integer, float and blob,
    decoding into a destination fails with the unsupported-column-type
    error for such a type, and the destination is what it was. *)
Theorem unsupported_column_type_rejected cv cache d rows :
  columnsErr rows = None -> columnTypesErr rows = None ->
  (exists col, col ∈ columns rows /\ snd col ∉ accepted_types) ->
  exists ty cache',
    ty ∈ map snd (columns rows) /\ (ty ∉ accepted_types) /\
    StructsFromRows cv cache (Some d) rows =
      (Err (UnsupportedColumnType ty), Some d, cache').
Proof.
  intros Hc Ht (col & Hin & Hbad).
  destruct (carriers_rejects (map snd (columns rows))) as (bad & Hb & Hbin & Hn).
  { exists (snd col). split; [| by apply carrier_for_None].
    apply list_elem_of_In, in_map, list_elem_of_In, Hin. }
  exists bad. unfold StructsFromRows.
  destruct (mapper_for (elem d) cache) as [m cache'].
  exists cache'. rewrite Hc, Ht, Hb.
  split; [done |]. split; [by apply carrier_for_None | done].
Qed.

Lemma unsupported_column_type_rejected_witness :
  exists ty cache',
    ty ∈ map snd [("id", "integer"); ("at", "datetime")] /\
    (ty ∉ accepted_types) /\
    StructsFromRows refusing [] (Some {| elem := item_type; contents := [] |})
      {| columnsErr := None; columnTypesErr := None;
         columns := [("id", "integer"); ("at", "datetime")];
         data := [[DInt64 1; DTime 0]] |} =
      (Err (UnsupportedColumnType ty),
       Some {| elem := item_type; contents := [] |}, cache').
Proof.
  apply (unsupported_column_type_rejected refusing []
           {| elem := item_type; contents := [] |}
           {| columnsErr := None; columnTypesErr := None;
              columns := [("id", "integer"); ("at", "datetime")];
              data := [[DInt64 1; DTime 0]] |}).
  - reflexivity.
  - reflexivity.
  - exists ("at", "datetime"). split.
    + right. left.
    + simpl. intros H.
      repeat (apply elem_of_cons in H as [H | H]; [discriminate |]).
      by apply elem_of_nil in H.
Defined.

(** C4, as the code has it: an empty blob that is not null and a null
    blob, decoded into a nullable string field, give one and the same
    value, the invalid empty string. *)
Lemma empty_blob_decodes_as_null :
  StructsFromRows refusing [] (Some {| elem := note_type; contents := [] |})
                  blob_rows =
    (Nil,
     Some {| elem := note_type;
             contents := [ {[ "Name" := VNullString "" false ]};
                           {[ "Name" := VNullString "" false ]} ] |},
     [(note_type, {[ "name" := "Name" ]})]).
Proof. vm_compute. reflexivity. Qed.

(** *** The mapping built from a record type *)

Lemma build_mapper_fold t :
  build_mapper t = fold_left mapper_step (tfields t) ∅.
Proof. reflexivity. Qed.

Lemma mapper_fold_Some fs : forall m0 k name,
  fold_left mapper_step fs m0 !! k = Some name ->
  (exists f, f ∈ fs /\ ftag f = k /\ k <> "" /\ fname f = name) \/
  m0 !! k = Some name.
Proof.
  induction fs as [| g fs IH]; intros m0 k name H; simpl in H; [by right |].
  apply IH in H as [(f & Hin & Hf) | H].
  - left. exists f. split; [by right | done].
  - unfold mapper_step in H. destruct (String.eqb (ftag g) "") eqn:E.
    + by right.
    + apply String.eqb_neq in E.
      apply lookup_insert_Some in H as [[<- <-] | [_ H]].
      * left. exists g. split; [by left | done].
      * by right.
Qed.

Lemma mapper_fold_field fs f : forall m0,
  f ∈ fs \/ m0 !! ftag f = Some (fname f) ->
  (forall g, g ∈ fs -> ftag g = ftag f -> fname g = fname f) ->
  ftag f <> "" ->
  fold_left mapper_step fs m0 !! ftag f = Some (fname f).
Proof.
  induction fs as [| g fs IH]; intros m0 H U N; simpl.
  - destruct H as [H | H]; [by apply elem_of_nil in H | done].
  - apply IH; [| intros g' Hg'; apply U; by right | done].
    destruct H as [H | H].
    + apply elem_of_cons in H as [<- | H]; [| by left].
      right. unfold mapper_step. apply String.eqb_neq in N. rewrite N.
      apply lookup_insert_eq.
    + right. unfold mapper_step. destruct (String.eqb (ftag g) "") eqn:E; [done |].
      destruct (decide (ftag g = ftag f)) as [Eq | Ne].
      * rewrite Eq, (U g) by (by left || done). apply lookup_insert_eq.
      * by rewrite lookup_insert_ne.
Qed.

Section Typed.

Variable t : StructType.
Hypothesis Ht : mapped t.

Lemma name_determines_field f g :
  f ∈ tfields t -> g ∈ tfields t -> fname f = fname g -> f = g.
Proof.
  pose proof (names_distinct t Ht) as N. revert N.
  induction (tfields t) as [| a l IH]; intros N Hf Hg E.
  - by apply elem_of_nil in Hf.
  - simpl in N. apply NoDup_cons in N as [Na N].
    apply elem_of_cons in Hf as [-> | Hf]; apply elem_of_cons in Hg as [-> | Hg].
    + done.
    + exfalso. apply Na. rewrite E. apply list_elem_of_In, in_map.
      by apply list_elem_of_In.
    + exfalso. apply Na. rewrite <- E. apply list_elem_of_In, in_map.
      by apply list_elem_of_In.
    + by apply IH.
Qed.

Lemma exported_named f : exported f = true -> fname f <> "".
Proof. unfold exported. by destruct (fname f). Qed.

Lemma FieldByName_found f :
  f ∈ tfields t -> FieldByName t (fname f) = Some f.
Proof.
  intros Hf. unfold FieldByName.
  assert (N : fname f <> "") by (apply exported_named, Ht, Hf).
  apply String.eqb_neq in N. rewrite N.
  destruct (List.find _ (tfields t)) as [g|] eqn:E.
  - apply List.find_some in E as [Hg E]. apply String.eqb_eq in E.
    f_equal. apply name_determines_field; [by apply list_elem_of_In | done | done].
  - apply List.find_none with (x := f) in E; [| by apply list_elem_of_In].
    by rewrite String.eqb_refl in E.
Qed.

(** The mapping sends the tag of a field to the field, and nothing else
    to anything. *)
Lemma build_mapper_field f :
  f ∈ tfields t -> ftag f <> "" ->
  build_mapper t !! ftag f = Some (fname f).
Proof.
  intros Hf N. rewrite build_mapper_fold. apply mapper_fold_field; [by left | | done].
  intros g Hg E. f_equal. symmetry. apply (tags_distinct t Ht); done.
Qed.

Lemma build_mapper_Some k name :
  build_mapper t !! k = Some name ->
  exists f, f ∈ tfields t /\ ftag f = k /\ k <> "" /\ fname f = name.
Proof.
  rewrite build_mapper_fold. intros H.
  apply mapper_fold_Some in H as [H | H]; [done |].
  by rewrite lookup_empty in H.
Qed.

Lemma new_struct_zero f :
  f ∈ tfields t -> new_struct t !! fname f = Some (zero (ftype f)).
Proof.
  intros Hf. unfold new_struct. apply elem_of_list_to_map_1.
  - assert (E : forall l : list Field,
               (map (fun f0 => (fname f0, zero (ftype f0))) l).*1 = map fname l).
    { induction l as [| a l IH]; [reflexivity |]. simpl. f_equal. exact IH. }
    rewrite E. apply Ht.
  - apply list_elem_of_In.
    apply (in_map (fun f0 => (fname f0, zero (ftype f0)))).
    by apply list_elem_of_In.
Qed.

Lemma wrap_int_int64 i :
  ((- 2 ^ 63 <=? i)%Z && (i <? 2 ^ 63)%Z) = true -> wrap_int W64 i = i.
Proof.
  intros H. apply andb_prop in H as [H1 H2].
  apply Z.leb_le in H1. apply Z.ltb_lt in H2.
  unfold wrap_int, bits.
  change (2 ^ (64 - 1))%Z with (2 ^ 63)%Z.
  rewrite Z.mod_small; [lia |].
  change (2 ^ 64)%Z with (2 * 2 ^ 63)%Z. lia.
Qed.

(** A well-formed cell is scanned without any conversion. *)
Lemma scan_cell_ok cv colType k d :
  carrier_for colType = Some k -> cell_ok colType d = true ->
  exists c, scan_cell cv k d = Some c.
Proof.
  intros Hk Hd. unfold cell_ok in Hd. rewrite Hk in Hd.
  destruct k, d; try discriminate; simpl; eauto.
Qed.

(** One column into a compatible field: the field receives the expected
    value, or is left alone when the expected value is the zero value. *)
Lemma assign_compatible cv colType k d c f :
  f ∈ tfields t -> carrier_for colType = Some k ->
  compatible colType (ftype f) = true -> cell_ok colType d = true ->
  scan_cell cv k d = Some c ->
  exists o, assign colType c f = Ok o /\
            (o = Some (expected (ftype f) d) \/
             (o = None /\ expected (ftype f) d = zero (ftype f))).
Proof.
  intros Hf Hk Hc Hd Hs.
  pose proof (fields_exported t Ht f Hf) as E.
  unfold compatible, cell_ok in *. rewrite Hk in *.
  unfold assign, store. rewrite E.
  destruct k, (ftype f) as [| [] | [] | | | | | | | ] eqn:Ety; try discriminate;
    destruct d; try discriminate; simpl in Hs; inversion Hs; subst; simpl;
    try (eexists; split; [reflexivity |]; (by left) || (by right)).
  - rewrite wrap_int_int64 by done. eexists; split; [reflexivity | by left].
  - destruct b; eexists; (split; [reflexivity | by left]).
Qed.

Lemma cell_of_None tag cols cells :
  tag ∉ map fst cols -> cell_of tag cols cells = None.
Proof.
  revert cells. induction cols as [| [n ty] cols IH]; intros cells H; [done |].
  destruct cells as [| d cells]; [done |]. simpl.
  apply not_elem_of_cons in H as [Hn H]. simpl in Hn.
  assert (E : String.eqb n tag = false) by (apply String.eqb_neq; congruence).
  rewrite E. by apply IH.
Qed.

Lemma FieldByName_empty : FieldByName t "" = None.
Proof. reflexivity. Qed.

(** The loop over the columns of a row. *)
Lemma assign_columns_spec cv cols cells :
  Forall2 (fun col d => cell_ok (snd col) d = true) cols cells ->
  NoDup (map fst cols) ->
  (forall n ty f, (n, ty) ∈ cols -> f ∈ tfields t -> ftag f = n -> n <> "" ->
                  compatible ty (ftype f) = true) ->
  forall i v,
    (forall f, f ∈ tfields t -> ftag f <> "" -> ftag f ∈ map fst cols ->
               v !! fname f = Some (zero (ftype f))) ->
    exists ks cs v',
      carriers (map snd cols) = inr ks /\
      scan_row cv i ks cells = inr cs /\
      assign_columns t (build_mapper t) (zip cols cs) v = Ok v' /\
      forall f, f ∈ tfields t ->
        v' !! fname f =
          if String.eqb (ftag f) "" then v !! fname f
          else match cell_of (ftag f) cols cells with
               | Some d => Some (expected (ftype f) d)
               | None => v !! fname f
               end.
Proof.
  induction 1 as [| [n ty] d cols cells Hd Hrest IH]; intros ND Hcompat i v Hzero.
  - exists [], [], v. repeat split. intros f Hf.
    by destruct (String.eqb (ftag f) "").
  - simpl in ND. apply NoDup_cons in ND as [Hn ND]. simpl in Hd.
    assert (Hk : exists k, carrier_for ty = Some k).
    { unfold cell_ok in Hd. destruct (carrier_for ty); [eauto | discriminate]. }
    destruct Hk as [k Hk].
    destruct (scan_cell_ok cv ty k d Hk Hd) as [c Hc].
    assert (Hcompat' : forall n0 ty0 f, (n0, ty0) ∈ cols -> f ∈ tfields t ->
                         ftag f = n0 -> n0 <> "" ->
                         compatible ty0 (ftype f) = true).
    { intros n0 ty0 f H0. apply Hcompat. by right. }
    destruct (build_mapper t !! n) as [name|] eqn:Em.
    + apply build_mapper_Some in Em as (f & Hf & Htag & Hne & Hname).
      destruct (assign_compatible cv ty k d c f Hf Hk) as (o & Ho & Hval);
        [apply (Hcompat n ty f); (by left) || done | done | done |].
      set (v1 := match o with Some x => <[fname f := x]> v | None => v end).
      assert (Hother : forall g, g ∈ tfields t -> g <> f ->
                                 v1 !! fname g = v !! fname g).
      { intros g Hg Hgf. subst v1. destruct o; [| done].
        apply lookup_insert_ne. intros Eq. apply Hgf.
        by apply name_determines_field. }
      destruct (IH ND Hcompat' (S i) v1) as (ks & cs & v' & Hks & Hcs & Hv' & Hspec).
      { intros g Hg Hg1 Hg2. rewrite Hother; [| done |].
        - apply Hzero; [done | done | by right].
        - intros ->. apply Hn. by rewrite <- Htag. }
      exists (k :: ks), (c :: cs), v'. simpl.
      rewrite Hk, Hks, Hc, Hcs. split; [done |]. split; [done |]. split.
      { assert (Em : build_mapper t !! n = Some (fname f)).
        { rewrite <- Htag. apply build_mapper_field; [done | congruence]. }
        unfold index. rewrite Em. simpl.
        rewrite (FieldByName_found f Hf), Ho. subst v1. by destruct o. }
      intros g Hg. rewrite (Hspec g Hg).
      destruct (String.eqb (ftag g) "") eqn:Eg.
      { apply Hother; [done |]. intros ->. apply String.eqb_eq in Eg. congruence. }
      apply String.eqb_neq in Eg.
      destruct (String.eqb n (ftag g)) eqn:En.
      * apply String.eqb_eq in En.
        assert (g = f) as ->.
        { apply (tags_distinct t Ht); [done | done | congruence | done]. }
        rewrite cell_of_None by (by rewrite Htag).
        subst v1. destruct Hval as [-> | [-> Hz]].
        -- apply lookup_insert_eq.
        -- rewrite Hz. apply Hzero; [done | done |]. rewrite Htag. by left.
      * destruct (cell_of (ftag g) cols cells); [done |].
        apply Hother; [done |]. intros ->. apply String.eqb_neq in En. congruence.
    + destruct (IH ND Hcompat' (S i) v) as (ks & cs & v' & Hks & Hcs & Hv' & Hspec).
      { intros g Hg Hg1 Hg2. apply Hzero; [done | done | by right]. }
      exists (k :: ks), (c :: cs), v'. simpl.
      rewrite Hk, Hks, Hc, Hcs. split; [done |]. split; [done |]. split.
      { unfold index. rewrite Em.
        change (FieldByName t (default "" None)) with (@None Field). done. }
      intros g Hg. rewrite (Hspec g Hg).
      destruct (String.eqb (ftag g) "") eqn:Eg; [done |].
      apply String.eqb_neq in Eg.
      assert (En : String.eqb n (ftag g) = false).
      { apply String.eqb_neq. intros ->.
        by rewrite (build_mapper_field g Hg Eg) in Em. }
      by rewrite En.
Qed.

Lemma carriers_accepted (cols : list (string * string)) :
  (forall col, col ∈ cols -> snd col ∈ accepted_types) ->
  exists ks, carriers (map snd cols) = inr ks.
Proof.
  induction cols as [| col cols IH]; intros H; [by exists [] |].
  destruct IH as [ks Hks]; [intros c Hc; apply H; by right |].
  simpl. destruct (carrier_for (snd col)) as [k|] eqn:E.
  - rewrite Hks. eauto.
  - apply carrier_for_None in E. exfalso. apply E, H. by left.
Qed.

(** One row: the record has in every field the value of its column. *)
Lemma decode_row_spec cv cols ks cells :
  carriers (map snd cols) = inr ks ->
  Forall2 (fun col d => cell_ok (snd col) d = true) cols cells ->
  NoDup (map fst cols) ->
  (forall n ty f, (n, ty) ∈ cols -> f ∈ tfields t -> ftag f = n -> n <> "" ->
                  compatible ty (ftype f) = true) ->
  exists r,
    decode_row cv t (build_mapper t) cols ks cells = Ok r /\
    forall f, f ∈ tfields t -> r !! fname f = Some (field_value f cols cells).
Proof.
  intros Hks Hcells ND Hcompat.
  destruct (assign_columns_spec cv cols cells Hcells ND Hcompat 0 (new_struct t))
    as (ks' & cs & r & Hks' & Hcs & Hr & Hspec).
  { intros f Hf _ _. by apply new_struct_zero. }
  rewrite Hks in Hks'. inversion Hks'; subst ks'.
  exists r. unfold decode_row. rewrite Hcs. split; [exact Hr |].
  intros f Hf. rewrite (Hspec f Hf), (new_struct_zero f Hf).
  unfold field_value. destruct (String.eqb (ftag f) ""); [done |].
  by destruct (cell_of (ftag f) cols cells).
Qed.

(** All rows, in order, after what the slice already holds. *)
Lemma decode_rows_spec cv cols ks :
  carriers (map snd cols) = inr ks ->
  NoDup (map fst cols) ->
  (forall n ty f, (n, ty) ∈ cols -> f ∈ tfields t -> ftag f = n -> n <> "" ->
                  compatible ty (ftype f) = true) ->
  forall rws slice,
    (forall cells, cells ∈ rws ->
       Forall2 (fun col d => cell_ok (snd col) d = true) cols cells) ->
    exists recs,
      decode_rows cv t (build_mapper t) cols ks rws slice = Ok (slice ++ recs) /\
      Forall2 (fun cells r =>
                 forall f, f ∈ tfields t ->
                           r !! fname f = Some (field_value f cols cells))
              rws recs.
Proof.
  intros Hks ND Hcompat. induction rws as [| cells rws IH]; intros slice Hok.
  - exists []. simpl. by rewrite app_nil_r.
  - destruct (decode_row_spec cv cols ks cells Hks) as (r & Hr & Hspec);
      [apply Hok; by left | done | done |].
    destruct (IH (slice ++ [r])) as (recs & Hrecs & Hall);
      [intros c Hc; apply Hok; by right |].
    exists (r :: recs). simpl. rewrite Hr, Hrecs, <- app_assoc.
    split; [done |]. by constructor.
Qed.

End Typed.

Lemma mapper_for_coherent t cache :
  coherent cache -> fst (mapper_for t cache) = build_mapper t.
Proof.
  intros H. unfold mapper_for. destruct (cached t cache) as [m|] eqn:E; [| done].
  simpl. by apply H.
Qed.

Lemma coherent_nil : coherent [].
Proof. intros t m H. discriminate. Qed.

(** The cache stays coherent. *)
Lemma coherent_mapper_for t cache :
  coherent cache -> coherent (snd (mapper_for t cache)).
Proof.
  intros H. unfold mapper_for. destruct (cached t cache) as [m|] eqn:E; [done |].
  simpl. intros t' m'. unfold cached. simpl.
  destruct (bool_decide (t = t')) eqn:D.
  - apply bool_decide_eq_true in D. subst. simpl. congruence.
  - apply H.
Qed.

(** C4, amended: a record type with declared column mappings, decoded
    from a result set whose mapped columns have compatible types, yields
    without error one record per row, in order, replacing the destination,
    and every field holds the value of its column reproduced exactly
    (64-bit integers, floats by their bits, strings, byte slices).  A NULL
    leaves the zero value of the field: the invalid value of a nullable
    field, nil for a byte slice, and the empty string or zero of a plain
    field; a blob decoded into a nullable string is marked valid when it
    is not empty. *)
Theorem decode_round_trip cv cache d rows :
  mapped (elem d) -> coherent cache -> well_typed (elem d) rows ->
  exists recs cache',
    StructsFromRows cv cache (Some d) rows =
      (Nil, Some {| elem := elem d; contents := recs |}, cache') /\
    Forall2 (fun cells r =>
               forall f, f ∈ tfields (elem d) ->
                         r !! fname f =
                           Some (field_value f (columns rows) cells))
            (data rows) recs.
Proof.
  intros Hm Hcache [H1 H2 H3 H4 H5 H6].
  destruct (carriers_accepted (columns rows) H4) as [ks Hks].
  destruct (decode_rows_spec (elem d) Hm cv (columns rows) ks Hks H3 H5
              (data rows) [] H6) as (recs & Hrecs & Hall).
  pose proof (mapper_for_coherent (elem d) cache Hcache) as Hmap.
  unfold StructsFromRows.
  destruct (mapper_for (elem d) cache) as [m cache'] eqn:E. simpl in Hmap.
  subst m. rewrite H1, H2, Hks, Hrecs. simpl. eauto.
Qed.

End MapperFacts.

(** ** The mapper on sample data *)

Section MapperExamples.

Import Mapper RoundTrip.

Ltac each_member H :=
  repeat (apply elem_of_cons in H as [H | H];
          [try (subst; simpl in *) |]);
  try (by apply elem_of_nil in H).

Lemma item_type_mapped : mapped item_type.
Proof.
  split.
  - simpl. repeat (apply NoDup_cons; split; [intros H; each_member H; discriminate |]).
    apply NoDup_nil_2.
  - intros f Hf. simpl in Hf. each_member Hf; reflexivity.
  - intros f g Hf Hg E N. simpl in Hf, Hg.
    each_member Hf; each_member Hg; (reflexivity || discriminate || done).
Qed.

Lemma item_rows_well_typed : well_typed item_type item_rows.
Proof.
  split; try reflexivity.
  - simpl. repeat (apply NoDup_cons; split; [intros H; each_member H; discriminate |]).
    apply NoDup_nil_2.
  - intros col H. simpl in H. unfold accepted_types.
    each_member H; set_solver.
  - intros n ty f H Hf E N. simpl in H, Hf.
    each_member H; inversion H; subst; each_member Hf;
      (reflexivity || discriminate || done).
  - intros cells H. simpl in H. each_member H; repeat constructor.
Qed.

Lemma decode_round_trip_witness :
  exists recs cache',
    StructsFromRows refusing []
      (Some {| elem := item_type; contents := [] |}) item_rows =
      (Nil, Some {| elem := item_type; contents := recs |}, cache') /\
    Forall2 (fun cells r =>
               forall f, f ∈ tfields item_type ->
                         r !! fname f =
                           Some (field_value f (columns item_rows) cells))
            (data item_rows) recs.
Proof.
  apply (decode_round_trip refusing []
           {| elem := item_type; contents := [] |} item_rows).
  - exact item_type_mapped.
  - exact coherent_nil.
  - exact item_rows_well_typed.
Defined.

(** The records of the sample rows. *)
Lemma item_rows_decoded :
  fst (fst (StructsFromRows refusing []
              (Some {| elem := item_type; contents := [] |}) item_rows)) = Nil /\
  snd (fst (StructsFromRows refusing []
              (Some {| elem := item_type; contents := [] |}) item_rows)) =
    Some {| elem := item_type;
            contents :=
              [ list_to_map [("ID", VInt W64 1); ("Name", VString "a");
                             ("Alias", VNullString "" true);
                             ("Raw", VBytes (Some [])); ("Local", VBool false)];
                list_to_map [("ID", VInt W64 (-5)); ("Name", VString "");
                             ("Alias", VNullString "" false);
                             ("Raw", VBytes None); ("Local", VBool false)] ] |}.
Proof. vm_compute. split; reflexivity. Qed.

(** Where a NULL and an empty value are told apart, and where not. *)
Lemma null_versus_empty :
  expected TNullString (DString "") <> expected TNullString DNull /\
  expected TBytes (DBytes []) <> expected TBytes DNull /\
  expected TString (DString "") = expected TString DNull /\
  expected TString (DBytes []) = expected TString DNull /\
  expected TNullString (DBytes []) = expected TNullString DNull.
Proof. repeat split; discriminate. Qed.

(** Errors and panics of the assignment: a text column into a boolean
    field is an error naming both types; an integer column into a
    floating-point field passes the convertibility test and panics in
    [SetInt]; an unexported field panics in its setter; a narrow integer
    field keeps the low bits. *)
Lemma assign_examples :
  assign "text" (CNullString "x" true)
         {| fname := "B"; ftag := "b"; ftype := TBool |} =
    Fail (CannotConvert "text" TBool) /\
  assign "integer" (CNullInt64 1 true)
         {| fname := "F"; ftag := "f"; ftype := TFloat64 |} = Panic /\
  assign "integer" (CNullInt64 1 true)
         {| fname := "id"; ftag := "id"; ftype := TInt W64 |} = Panic /\
  assign "integer" (CNullInt64 300 true)
         {| fname := "N"; ftag := "n"; ftype := TInt W8 |} =
    Ok (Some (VInt W8 44)) /\
  assign "blob" (CBytes None)
         {| fname := "A"; ftag := "a"; ftype := TAny |} = Panic /\
  assign "text" (CNullString "" false)
         {| fname := "A"; ftag := "a"; ftype := TAny |} =
    Ok (Some (VAny (Some (CNullString "" false)))).
Proof. vm_compute. repeat split. Qed.

(** A nil destination ends the call at once with a nil error, and an
    error of a column call leaves the destination as it is. *)
Lemma early_returns cv cache d rows e :
  StructsFromRows cv cache None rows = (Nil, None, cache) /\
  (columnsErr rows = Some e ->
   fst (StructsFromRows cv cache (Some d) rows) =
     (Err (EngineError e), Some d)).
Proof.
  split; [reflexivity |]. intros H. unfold StructsFromRows.
  destruct (mapper_for (elem d) cache). by rewrite H.
Qed.

End MapperExamples.

(** ** More on the registry: sharing, failures, finalizers *)

Section LifecycleFacts.

Import Registry Lifecycle.

(** What a creation does to the map, the address counter and the
    finalizers. *)
Lemma create_effect cfg env key s :
  let '((r, e), s') := create cfg env key s in
  nextAddr s <= nextAddr s' /\ finalizers s' = finalizers s /\
  match e with
  | Some _ => dbMap s' = dbMap s /\ (r = None \/ exists d, r = Some d /\ addr d = nextAddr s)
  | None =>
      exists ch,
        r = Some {| addr := nextAddr s; file := DBPath cfg key |} /\
        nextAddr s' = S (nextAddr s) /\
        dbMap s' =
          <[key := Some {| db := r; closed := ch |}]> (dbMap s)
  end.
Proof.
  unfold create.
  destruct (mkdirAll env); [simpl; auto |].
  destruct (sqlOpen env); [simpl; auto |].
  destruct (ping env); [simpl; repeat split; eauto |].
  destruct (execJournalMode env); [simpl; repeat split; eauto |].
  destruct (execForeignKeys env); [simpl; repeat split; eauto |].
  destruct (debugging cfg); simpl; repeat split; eauto.
Qed.

(** What a release that returns does. *)
Lemma release_effect cfg id version s s' :
  ReleaseDBForID cfg id version s = Returned s' ->
  nextAddr s' = nextAddr s /\
  ((lookup (VersionedDBID id version) s = None /\ dbMap s' = dbMap s /\
    finalizers s' = finalizers s) \/
   (exists d, lookup (VersionedDBID id version) s = Some d /\
              dbMap s' = <[VersionedDBID id version := None]> (dbMap s) /\
              finalizers s' =
                (addr d, VersionedDBID id version) :: finalizers s)).
Proof.
  unfold ReleaseDBForID, lookup.
  destruct (dbMap s !! VersionedDBID id version) as [[[[d|] ch]|]|] eqn:E;
    try (intros H; inversion H; subst; simpl; split; [done |]; left; done).
  destruct (debugging cfg).
  - destruct ch as [c|]; [| discriminate].
    destruct (decide (c ∈ samplers s)); [| discriminate].
    intros H; inversion H; subst; simpl. split; [done |]. right. eauto.
  - intros H; inversion H; subst; simpl. split; [done |]. right. eauto.
Qed.

Lemma handle_at_ext k s s' :
  dbMap s' = dbMap s -> handle_at k s' = handle_at k s.
Proof. intros H. unfold handle_at, lookup. by rewrite H. Qed.

Lemma handle_at_insert k key v s s' :
  dbMap s' = <[key := v]> (dbMap s) ->
  handle_at k s' =
    if decide (key = k) then addr <$> (v ≫= db) else handle_at k s.
Proof.
  intros H. unfold handle_at, lookup. rewrite H.
  destruct (decide (key = k)) as [-> | Hne].
  - rewrite lookup_insert_eq. by destruct v.
  - by rewrite lookup_insert_ne.
Qed.

Lemma handle_at_delete k key s s' :
  dbMap s' = delete key (dbMap s) ->
  handle_at k s' = if decide (key = k) then None else handle_at k s.
Proof.
  intros H. unfold handle_at, lookup. rewrite H.
  destruct (decide (key = k)) as [-> | Hne].
  - by rewrite lookup_delete_eq.
  - by rewrite lookup_delete_ne.
Qed.

Lemma sound_empty : sound empty.
Proof.
  split; simpl; try (intros; discriminate).
  - apply NoDup_nil_2.
  - intros a H. by apply elem_of_nil in H.
Qed.

Lemma sound_create cfg env key s :
  sound s -> sound (snd (create cfg env key s)).
Proof.
  intros [S1 S2 S3 S4 S5]. pose proof (create_effect cfg env key s) as H.
  destruct (create cfg env key s) as [[r e] s']. simpl.
  destruct H as (Hn & Hf & H). destruct e as [e|].
  - destruct H as [Hm _]. split; rewrite ?Hf.
    + intros k1 k2 a. rewrite !(handle_at_ext _ _ _ Hm). apply S1.
    + intros k a. rewrite (handle_at_ext _ _ _ Hm). intros Hk.
      specialize (S2 _ _ Hk). lia.
    + done.
    + intros a Ha. specialize (S4 _ Ha). lia.
    + intros k a. rewrite (handle_at_ext _ _ _ Hm). apply S5.
  - destruct H as (ch & -> & Hn' & Hm). split; rewrite ?Hf.
    + intros k1 k2 a. rewrite !(handle_at_insert _ _ _ _ _ Hm). simpl.
      destruct (decide (key = k1)), (decide (key = k2)); subst; try done.
      * intros H1 H2. inversion H1; subst. specialize (S2 _ _ H2). lia.
      * intros H1 H2. inversion H2; subst. specialize (S2 _ _ H1). lia.
      * apply S1.
    + intros k a. rewrite (handle_at_insert _ _ _ _ _ Hm). simpl.
      destruct (decide (key = k)).
      * intros H; inversion H; subst. lia.
      * intros H. specialize (S2 _ _ H). lia.
    + done.
    + intros a Ha. specialize (S4 _ Ha). lia.
    + intros k a. rewrite (handle_at_insert _ _ _ _ _ Hm). simpl.
      destruct (decide (key = k)).
      * intros H; inversion H; subst. intros Ha. specialize (S4 _ Ha). lia.
      * apply S5.
Qed.

Lemma sound_release cfg id version s s' :
  sound s -> ReleaseDBForID cfg id version s = Returned s' -> sound s'.
Proof.
  intros [S1 S2 S3 S4 S5] H.
  apply release_effect in H as (Hn & [(_ & Hm & Hf) | (d & Hd & Hm & Hf)]).
  - split; rewrite ?Hf, ?Hn; try done.
    + intros k1 k2 a. rewrite !(handle_at_ext _ _ _ Hm). apply S1.
    + intros k a. rewrite (handle_at_ext _ _ _ Hm). apply S2.
    + intros k a. rewrite (handle_at_ext _ _ _ Hm). apply S5.
  - assert (Hd' : handle_at (VersionedDBID id version) s = Some (addr d)).
    { unfold handle_at. by rewrite Hd. }
    split; rewrite ?Hf, ?Hn; simpl.
    + intros k1 k2 a. rewrite !(handle_at_insert _ _ _ _ _ Hm). simpl.
      destruct (decide (VersionedDBID id version = k1)),
               (decide (VersionedDBID id version = k2)); try done.
      apply S1.
    + intros k a. rewrite (handle_at_insert _ _ _ _ _ Hm). simpl.
      destruct (decide (VersionedDBID id version = k)); [done | apply S2].
    + apply NoDup_cons. split; [by eapply S5 | done].
    + intros a Ha. apply elem_of_cons in Ha as [-> | Ha]; [| by apply S4].
      by eapply S2.
    + intros k a. rewrite (handle_at_insert _ _ _ _ _ Hm). simpl.
      destruct (decide (VersionedDBID id version = k)) as [| Hne]; [done |].
      intros Hk Ha. apply elem_of_cons in Ha as [-> | Ha].
      * apply Hne. by eapply S1.
      * by eapply S5.
Qed.

Lemma Delete_effect cfg key closeErr removeErr a s :
  dbMap (Delete cfg key closeErr removeErr a s) = delete key (dbMap s) /\
  nextAddr (Delete cfg key closeErr removeErr a s) = nextAddr s /\
  finalizers (Delete cfg key closeErr removeErr a s) = finalizers s.
Proof. unfold Delete. by destruct closeErr, removeErr. Qed.

Lemma sound_Delete cfg key closeErr removeErr a s :
  sound s -> sound (Delete cfg key closeErr removeErr a s).
Proof.
  intros [S1 S2 S3 S4 S5].
  destruct (Delete_effect cfg key closeErr removeErr a s) as (Hm & Hn & Hf).
  split; rewrite ?Hf, ?Hn; try done.
  - intros k1 k2 b. rewrite !(handle_at_delete _ _ _ _ Hm).
    destruct (decide (key = k1)), (decide (key = k2)); try done. apply S1.
  - intros k b. rewrite (handle_at_delete _ _ _ _ Hm).
    destruct (decide (key = k)); [done | apply S2].
  - intros k b. rewrite (handle_at_delete _ _ _ _ Hm).
    destruct (decide (key = k)); [done | apply S5].
Qed.

Lemma reachable_sound s : Inv.reachable s -> sound s.
Proof.
  induction 1;
    eauto using sound_empty, sound_create, sound_release, sound_Delete.
Qed.

Lemma access_reachable cfg env id version s :
  Inv.reachable s -> Inv.reachable (snd (dbVersionForID cfg env id version s)).
Proof.
  intros R. destruct (lookup (VersionedDBID id version) s) as [d|] eqn:E.
  - by rewrite (dbVersionForID_hit _ _ _ _ _ _ E).
  - rewrite dbVersionForID_miss by done. by apply Inv.reach_create.
Qed.

Lemma one_handle_reachable : Inv.reachable one_handle.
Proof. apply Inv.reach_create, Inv.reach_empty. Qed.

Lemma one_handle_releasable :
  Inv.releasable sample (VersionedDBID "org1" "1.0") one_handle.
Proof.
  intros _ dbm Hdbm _. vm_compute in Hdbm. inversion Hdbm; subst. by eexists.
Qed.

Lemma after_release_returned :
  ReleaseDBForID sample "org1" "1.0" one_handle = Returned after_release.
Proof. vm_compute. reflexivity. Qed.

Lemma recreated_releasable key : Inv.releasable sample key recreated.
Proof.
  assert (Hm : dbMap recreated =
               {[ "org1/1.0" :=
                    Some {| db := Some {| addr := 1;
                                          file := "/var/apid/sqlite/org1/1.0/sqlite3" |};
                            closed := Some 1 |} ]}).
  { vm_compute. reflexivity. }
  intros _ dbm H _. rewrite Hm in H.
  apply lookup_singleton_Some in H as [_ H]. inversion H; subst. by eexists.
Qed.

Lemma recreated_reachable : Inv.reachable recreated.
Proof.
  apply access_reachable.
  exact (Inv.reach_release _ _ _ _ _ one_handle_reachable after_release_returned).
Qed.

(** The entry a creation writes: none, or a handle with a stop channel
    exactly when the level it read is debug. *)
Lemma create_entry cfg env key s :
  dbMap (snd (create cfg env key s)) = dbMap s \/
  exists d c,
    dbMap (snd (create cfg env key s)) =
      <[key := Some {| db := Some d;
                       closed := if debugging cfg then Some c else None |}]>
        (dbMap s).
Proof.
  unfold create.
  destruct (mkdirAll env); [by left |].
  destruct (sqlOpen env); [by left |].
  destruct (ping env); [by left |].
  destruct (execJournalMode env); [by left |].
  destruct (execForeignKeys env); [by left |].
  right. exists {| addr := nextAddr s; file := DBPath cfg key |}, (nextChan s).
  by destruct (debugging cfg).
Qed.






(** An access that returns a nil error leaves its handle in the map. *)
Lemma access_stores cfg env id version s d s0 :
  dbVersionForID cfg env id version s = ((Some d, None), s0) ->
  lookup (VersionedDBID id version) s0 = Some d.
Proof.
  destruct (lookup (VersionedDBID id version) s) as [d'|] eqn:E.
  - rewrite (dbVersionForID_hit _ _ _ _ _ _ E). intros H. by inversion H; subst.
  - rewrite dbVersionForID_miss by done.
    pose proof (create_effect cfg env (VersionedDBID id version) s) as H.
    destruct (create cfg env (VersionedDBID id version) s) as [[r e] s1].
    destruct H as (_ & _ & H). intros Heq. inversion Heq; subst.
    destruct H as (ch & _ & _ & Hm). unfold lookup.
    by rewrite Hm, lookup_insert_eq.
Qed.



(** X2: an access ends in one of two ways.  With a nil error it returns a
    handle and that handle is the one the map holds for the key; with an
    error the map is the one it was before the call and holds no handle
    for the key. *)
Theorem access_outcome cfg env id version s :
  let '((r, e), s') := dbVersionForID cfg env id version s in
  match e with
  | None => exists d, r = Some d /\ lookup (VersionedDBID id version) s' = Some d
  | Some _ =>
      dbMap s' = dbMap s /\ lookup (VersionedDBID id version) s' = None
  end.
Proof.
  destruct (lookup (VersionedDBID id version) s) as [d|] eqn:E.
  - rewrite (dbVersionForID_hit _ _ _ _ _ _ E). eauto.
  - rewrite dbVersionForID_miss by done.
    pose proof (create_effect cfg env (VersionedDBID id version) s) as H.
    destruct (create cfg env (VersionedDBID id version) s) as [[r e] s'].
    destruct H as (_ & _ & H). destruct e as [e|].
    + destruct H as [Hm _]. split; [done |]. unfold lookup in *. by rewrite Hm.
    + destruct H as (ch & -> & _ & Hm). eexists. split; [reflexivity |].
      unfold lookup. by rewrite Hm, lookup_insert_eq.
Qed.

(** X3: in every state the registry can be in, whatever the log level
    was at each call, a handle serves one key:
    two keys whose entries hold the same allocation are the same key. *)
Theorem handle_serves_one_key s k1 k2 d1 d2 :
  Inv.reachable s ->
  lookup k1 s = Some d1 -> lookup k2 s = Some d2 -> addr d1 = addr d2 ->
  k1 = k2.
Proof.
  intros R H1 H2 E. apply (unshared s (reachable_sound _ R) k1 k2 (addr d1)).
  - unfold handle_at. by rewrite H1.
  - unfold handle_at. by rewrite H2, E.
Qed.

Lemma handle_serves_one_key_witness :
  lookup (VersionedDBID "org1" "1.0") one_handle =
    Some {| addr := 0; file := "/var/apid/sqlite/org1/1.0/sqlite3" |} /\
  VersionedDBID "org1" "1.0" = VersionedDBID "org1/" "1.0".
Proof.
  split; [vm_compute; reflexivity |].
  apply (handle_serves_one_key one_handle
           (VersionedDBID "org1" "1.0") (VersionedDBID "org1/" "1.0")
           {| addr := 0; file := "/var/apid/sqlite/org1/1.0/sqlite3" |}
           {| addr := 0; file := "/var/apid/sqlite/org1/1.0/sqlite3" |}).
  - exact one_handle_reachable.
  - vm_compute. reflexivity.
  - vm_compute. reflexivity.
  - reflexivity.
Defined.

(** X4: an access to a key and a release of a key leave the entry of
    every other key as it was. *)
Theorem other_keys_untouched cfg env id version s k :
  k <> VersionedDBID id version ->
  dbMap (snd (dbVersionForID cfg env id version s)) !! k = dbMap s !! k /\
  match ReleaseDBForID cfg id version s with
  | Returned s' => dbMap s' !! k = dbMap s !! k
  | BlocksForever => True
  end.
Proof.
  intros Hne. split.
  - destruct (lookup (VersionedDBID id version) s) as [d|] eqn:E.
    + by rewrite (dbVersionForID_hit _ _ _ _ _ _ E).
    + rewrite dbVersionForID_miss by done.
      pose proof (create_effect cfg env (VersionedDBID id version) s) as H.
      destruct (create cfg env (VersionedDBID id version) s) as [[r e] s'].
      destruct H as (_ & _ & H). simpl. destruct e as [e|].
      * destruct H as [Hm _]. by rewrite Hm.
      * destruct H as (ch & _ & _ & Hm). rewrite Hm.
        by rewrite lookup_insert_ne.
  - destruct (ReleaseDBForID cfg id version s) as [s'|] eqn:E; [| done].
    apply release_effect in E as (_ & [(_ & Hm & _) | (d & _ & Hm & _)]).
    + by rewrite Hm.
    + rewrite Hm. by rewrite lookup_insert_ne.
Qed.

Lemma other_keys_untouched_witness :
  dbMap (snd (dbVersionForID sample healthy "org2" "1.0" one_handle))
    !! "org1/1.0" = dbMap one_handle !! "org1/1.0" /\
  match ReleaseDBForID sample "org2" "1.0" one_handle with
  | Returned s' => dbMap s' !! "org1/1.0" = dbMap one_handle !! "org1/1.0"
  | BlocksForever => True
  end.
Proof.
  apply (other_keys_untouched sample healthy "org2" "1.0" one_handle "org1/1.0").
  vm_compute. discriminate.
Defined.

(** X5: releasing a key twice.  In every state the registry can be in,
    when the key has a handle and the send of the first release can
    complete (the level read by the first release is not debug, or the
    handle was given a stop channel at its creation), the first release
    returns, clears the entry and sets the finalizer; the second release,
    at whatever level, returns as well: it finds no handle, reports it at
    error severity, and changes neither the map nor the finalizers. *)
Theorem second_release_finds_nothing cfg cfg' s id version d :
  Inv.reachable s ->
  Inv.releasable cfg (VersionedDBID id version) s ->
  lookup (VersionedDBID id version) s = Some d ->
  exists s1 s2,
    ReleaseDBForID cfg id version s = Returned s1 /\
    ReleaseDBForID cfg' id version s1 = Returned s2 /\
    dbMap s2 = dbMap s1 /\ finalizers s2 = finalizers s1 /\
    finalizers s1 = (addr d, VersionedDBID id version) :: finalizers s /\
    logs s2 = logs s1 ++ [(Error, "Cannot find DB handle for ver {" +:+ version
                                  +:+ "} to release")].
Proof.
  intros R Hrel Hl. pose proof (reachable_wf _ R) as W.
  destruct (release_returns cfg id version s d W Hrel Hl)
    as (s1 & Hr & Hm & _ & Hf).
  assert (Hmiss : dbMap s1 !! VersionedDBID id version = Some None)
    by (by rewrite Hm, lookup_insert_eq).
  exists s1. unfold ReleaseDBForID at 2. rewrite Hmiss.
  eexists. split; [exact Hr |]. split; [reflexivity |]. by repeat split.
Qed.

Lemma second_release_finds_nothing_witness :
  exists s1 s2,
    ReleaseDBForID sample "org1" "1.0" recreated = Returned s1 /\
    ReleaseDBForID quiet "org1" "1.0" s1 = Returned s2 /\
    dbMap s2 = dbMap s1 /\ finalizers s2 = finalizers s1 /\
    finalizers s1 =
      (addr {| addr := 1; file := "/var/apid/sqlite/org1/1.0/sqlite3" |},
       VersionedDBID "org1" "1.0") :: finalizers recreated /\
    logs s2 = logs s1 ++ [(Error, "Cannot find DB handle for ver {" +:+ "1.0"
                                  +:+ "} to release")].
Proof.
  apply (second_release_finds_nothing sample quiet recreated "org1" "1.0"
           {| addr := 1; file := "/var/apid/sqlite/org1/1.0/sqlite3" |}).
  - exact recreated_reachable.
  - apply recreated_releasable.
  - vm_compute. reflexivity.
Defined.

Lemma release_not_found_witness :
  exists s',
    ReleaseDBForID sample "never" "made" one_handle = Returned s' /\
    dbMap s' = dbMap one_handle /\
    logs s' = logs one_handle ++
              [(Error, "Cannot find DB handle for ver {" +:+ "made"
                       +:+ "} to release")].
Proof.
  apply (release_not_found sample "never" "made" one_handle).
  vm_compute. reflexivity.
Defined.

(** X7: in every state the registry can be in, whatever the log level
    was at each call, the handles that were
    given a finalizer are all different, so [runtime.SetFinalizer] is
    never called on a handle that already has one, and no handle that the
    map still holds has a finalizer. *)
Theorem finalizer_set_once s :
  Inv.reachable s ->
  NoDup (map fst (finalizers s)) /\
  forall k d, lookup k s = Some d -> addr d ∉ map fst (finalizers s).
Proof.
  intros R. pose proof (reachable_sound _ R) as S. split.
  - apply (finalized_once s S).
  - intros k d H. apply (finalized_gone s S k). unfold handle_at. by rewrite H.
Qed.

Lemma finalizer_set_once_witness :
  finalizers recreated = [(0, "org1/1.0")] /\
  lookup "org1/1.0" recreated =
    Some {| addr := 1; file := "/var/apid/sqlite/org1/1.0/sqlite3" |} /\
  NoDup (map fst (finalizers recreated)) /\
  forall k d, lookup k recreated = Some d ->
              addr d ∉ map fst (finalizers recreated).
Proof.
  split; [vm_compute; reflexivity |]. split; [vm_compute; reflexivity |].
  apply (finalizer_set_once recreated), recreated_reachable.
Defined.

(** X8: the finalizer of a released handle (one whose release returned:
    the level read by the release is not debug, or the handle was given a
    stop channel at its creation) deletes whatever the map holds for the
    key when it runs.  If the key was accessed again after the
    release, the entry of the new handle is deleted and its directory
    removed from the disk, although the new handle was never released;
    the access after that creates a third handle. *)
Theorem late_finalizer_removes_new_entry cfg s id version d closeErr :
  Inv.reachable s ->
  Inv.releasable cfg (VersionedDBID id version) s ->
  lookup (VersionedDBID id version) s = Some d ->
  exists s1 d' s2,
    ReleaseDBForID cfg id version s = Returned s1 /\
    dbVersionForID cfg healthy id version s1 = ((Some d', None), s2) /\
    addr d' <> addr d /\
    head (finalizers s2) = Some (addr d, VersionedDBID id version) /\
    let s3 := Delete cfg (VersionedDBID id version) closeErr None (addr d) s2 in
    lookup (VersionedDBID id version) s3 = None /\
    (GoPath.Dir (DBPath cfg (VersionedDBID id version)) ∉ dirs s3) /\
    exists d'' s4,
      dbVersionForID cfg healthy id version s3 = ((Some d'', None), s4) /\
      addr d'' <> addr d' /\ addr d'' <> addr d.
Proof.
  intros R Hrel Hl. pose proof (reachable_wf _ R) as W.
  destruct (release_returns cfg id version s d W Hrel Hl)
    as (s1 & Hr & Hm & Ha & Hf).
  assert (Hd : addr d < nextAddr s).
  { unfold lookup in Hl.
    destruct (dbMap s !! VersionedDBID id version) as [[dbm|]|] eqn:E;
      try discriminate.
    eapply Inv.wf_addr; eauto. }
  assert (Hmiss : lookup (VersionedDBID id version) s1 = None).
  { unfold lookup. by rewrite Hm, lookup_insert_eq. }
  pose proof (create_effect cfg healthy (VersionedDBID id version) s1) as He.
  destruct (create_succeeds cfg healthy (VersionedDBID id version) s1
              healthy_succeeds) as (s2 & Hc & Hl2 & Hn2).
  rewrite Hc in He. destruct He as (_ & Hf2 & _).
  exists s1, {| addr := nextAddr s1;
                file := DBPath cfg (VersionedDBID id version) |}, s2.
  split; [exact Hr |]. split; [by rewrite dbVersionForID_miss |].
  split; [simpl; lia |]. split; [by rewrite Hf2, Hf |].
  destruct (Delete_effect cfg (VersionedDBID id version) closeErr None
              (addr d) s2) as (Hm3 & Hn3 & _).
  remember (Delete cfg (VersionedDBID id version) closeErr None (addr d) s2)
    as s3 eqn:Es3. simpl.
  assert (Hmiss3 : lookup (VersionedDBID id version) s3 = None).
  { unfold lookup. by rewrite Hm3, lookup_delete_eq. }
  split; [exact Hmiss3 |]. split.
  { subst s3. unfold Delete. destruct closeErr; simpl;
      (intros Hin; apply elem_of_difference in Hin as [_ Hin]; apply Hin;
       by apply elem_of_singleton). }
  destruct (create_succeeds cfg healthy (VersionedDBID id version) s3
              healthy_succeeds) as (s4 & Hc4 & _ & _).
  eexists _, s4. split; [by rewrite dbVersionForID_miss |].
  simpl. rewrite Hn3, Hn2. split; lia.
Qed.

Lemma late_finalizer_removes_new_entry_witness :
  exists s1 d' s2,
    ReleaseDBForID sample "org1" "1.0" one_handle = Returned s1 /\
    dbVersionForID sample healthy "org1" "1.0" s1 = ((Some d', None), s2) /\
    addr d' <> 0 /\
    head (finalizers s2) = Some (0, VersionedDBID "org1" "1.0") /\
    let s3 := Delete sample (VersionedDBID "org1" "1.0") None None 0 s2 in
    lookup (VersionedDBID "org1" "1.0") s3 = None /\
    (GoPath.Dir (DBPath sample (VersionedDBID "org1" "1.0")) ∉ dirs s3) /\
    exists d'' s4,
      dbVersionForID sample healthy "org1" "1.0" s3 = ((Some d'', None), s4) /\
      addr d'' <> addr d' /\ addr d'' <> 0.
Proof.
  apply (late_finalizer_removes_new_entry sample one_handle "org1" "1.0"
           {| addr := 0; file := "/var/apid/sqlite/org1/1.0/sqlite3" |} None).
  - exact one_handle_reachable.
  - exact one_handle_releasable.
  - vm_compute. reflexivity.
Defined.

(** X25: the directory of a key is made before the pool is opened and is
    never removed by the access: when the engine then fails to open, to
    answer the ping or to apply a pragma, the access returns the error
    and the directory stays on the disk, as does every directory made
    before. *)
Theorem directory_survives_failure cfg env id version s :
  lookup (VersionedDBID id version) s = None ->
  mkdirAll env = None ->
  GoPath.Dir (DBPath cfg (VersionedDBID id version))
    ∈ dirs (snd (dbVersionForID cfg env id version s)) /\
  forall dir, dir ∈ dirs s ->
              dir ∈ dirs (snd (dbVersionForID cfg env id version s)).
Proof.
  intros Hmiss Hm. rewrite dbVersionForID_miss by done. unfold create.
  rewrite Hm.
  assert (Hin : forall x (g : gset string), x ∈ {[x]} ∪ g).
  { intros x g. apply elem_of_union. left. by apply elem_of_singleton. }
  assert (Hsub : forall x y (g : gset string), y ∈ g -> y ∈ {[x]} ∪ g).
  { intros x y g H. apply elem_of_union. by right. }
  destruct (sqlOpen env);
    [simpl; split; [apply Hin | intros dir Hd; by apply Hsub] |].
  destruct (ping env);
    [simpl; split; [apply Hin | intros dir Hd; by apply Hsub] |].
  destruct (execJournalMode env);
    [simpl; split; [apply Hin | intros dir Hd; by apply Hsub] |].
  destruct (execForeignKeys env);
    [simpl; split; [apply Hin | intros dir Hd; by apply Hsub] |].
  destruct (debugging cfg); simpl;
    (split; [apply Hin | intros dir Hd; by apply Hsub]).
Qed.

Lemma directory_survives_failure_witness :
  GoPath.Dir (DBPath sample (VersionedDBID "org2" "1.0"))
    ∈ dirs (snd (dbVersionForID sample failing_ping "org2" "1.0" one_handle)) /\
  forall dir, dir ∈ dirs one_handle ->
              dir ∈ dirs (snd (dbVersionForID sample failing_ping "org2" "1.0"
                                 one_handle)).
Proof.
  apply (directory_survives_failure sample failing_ping "org2" "1.0" one_handle).
  - vm_compute. reflexivity.
  - reflexivity.
Defined.

(** An access under [cfg] keeps its key releasable under [cfg]. *)
Lemma access_releasable cfg env id version s :
  Inv.releasable cfg (VersionedDBID id version) s ->
  Inv.releasable cfg (VersionedDBID id version)
                 (snd (dbVersionForID cfg env id version s)).
Proof.
  intros Hrel. destruct (lookup (VersionedDBID id version) s) as [d|] eqn:E.
  - by rewrite (dbVersionForID_hit _ _ _ _ _ _ E).
  - rewrite dbVersionForID_miss by done. intros D dbm.
    destruct (create_entry cfg env (VersionedDBID id version) s)
      as [-> | (d & c & ->)]; [by apply Hrel |].
    rewrite lookup_insert_eq, D. intros H _. inversion H; subst. by eexists.
Qed.

Lemma get_then_release cfg env id version s :
  Inv.reachable s -> Inv.releasable cfg (VersionedDBID id version) s ->
  Inv.succeeds env ->
  released_by (dbVersionForID cfg env id version)
              (ReleaseDBForID cfg id version) (VersionedDBID id version) s.
Proof.
  intros R Hrel Hs.
  pose proof (access_reachable cfg env id version s R) as R1.
  pose proof (access_releasable cfg env id version s Hrel) as Hrel1.
  assert (H : exists d s1,
             dbVersionForID cfg env id version s = ((Some d, None), s1)).
  { destruct (lookup (VersionedDBID id version) s) as [d|] eqn:E.
    - exists d, s. by rewrite (dbVersionForID_hit _ _ _ _ _ _ E).
    - rewrite dbVersionForID_miss by done.
      destruct (create_succeeds cfg env (VersionedDBID id version) s Hs)
        as (s1 & Hc & _). eauto. }
  destruct H as (d & s1 & Hg). rewrite Hg in R1, Hrel1. simpl in R1, Hrel1.
  pose proof (access_stores _ _ _ _ _ _ _ Hg) as Hl.
  destruct (release_returns cfg id version s1 d (reachable_wf _ R1) Hrel1 Hl)
    as (s2 & Hr & Hm & _ & Hf).
  exists d, s1, s2. split; [exact Hg |]. split; [exact Hr |].
  split; [by rewrite Hf |]. unfold lookup. by rewrite Hm, lookup_insert_eq.
Qed.

(** X26: each release function releases what the getter of the same
    arguments returned.  In every state the registry can be in where no
    handle stands in the way of a release under the configuration of the
    calls (that configuration is not at debug level, or every handle in
    the map was given a stop channel at its creation), and with an
    environment that reports no error, [ReleaseCommonDB] after [DB],
    [ReleaseDB] after [DBVersion], and [ReleaseDBForID] after [DBForID]
    (with the reserved version) or after [DBVersionForID] return at once,
    clear the entry of the key and set the finalizer on the handle the
    getter returned. *)
Theorem release_matches_getter cfg env s id version :
  Inv.reachable s -> (forall key, Inv.releasable cfg key s) ->
  Inv.succeeds env ->
  id <> commonDBID -> version <> commonDBVersion ->
  released_by (DB cfg env) (ReleaseCommonDB cfg)
              (VersionedDBID commonDBID commonDBVersion) s /\
  released_by (DBVersion cfg env version) (ReleaseDB cfg version)
              (VersionedDBID commonDBID version) s /\
  released_by (DBForID cfg env id) (ReleaseDBForID cfg id commonDBVersion)
              (VersionedDBID id commonDBVersion) s /\
  released_by (DBVersionForID cfg env id version)
              (ReleaseDBForID cfg id version) (VersionedDBID id version) s.
Proof.
  intros R Hrel Hs Hi Hv.
  destruct (getters_delegate cfg env id version s Hi Hv) as (G1 & G2 & G3).
  unfold released_by. rewrite G1, G2, G3.
  unfold DB, ReleaseCommonDB, ReleaseDB.
  repeat split; by apply get_then_release.
Qed.

Lemma release_matches_getter_witness :
  released_by (DB sample healthy) (ReleaseCommonDB sample)
              (VersionedDBID commonDBID commonDBVersion) recreated /\
  released_by (DBVersion sample healthy "1.0") (ReleaseDB sample "1.0")
              (VersionedDBID commonDBID "1.0") recreated /\
  released_by (DBForID sample healthy "org1")
              (ReleaseDBForID sample "org1" commonDBVersion)
              (VersionedDBID "org1" commonDBVersion) recreated /\
  released_by (DBVersionForID sample healthy "org1" "1.0")
              (ReleaseDBForID sample "org1" "1.0")
              (VersionedDBID "org1" "1.0") recreated.
Proof.
  apply (release_matches_getter sample healthy recreated "org1" "1.0").
  - exact recreated_reachable.
  - exact recreated_releasable.
  - exact healthy_succeeds.
  - discriminate.
  - discriminate.
Defined.

(** While the log level stays on one side of debug, nothing stands in
    the way of a release: every state so reached is a state the registry
    can be in, and each of its keys is releasable. *)
Lemma steady_reachable b s : Inv.steady b s -> Inv.reachable s.
Proof.
  induction 1;
    eauto using Inv.reach_empty, Inv.reach_create, Inv.reach_release,
                Inv.reach_finalize.
Qed.

Lemma steady_releasable cfg key s :
  Inv.steady (debugging cfg) s -> Inv.releasable cfg key s.
Proof.
  intros St D. rewrite D in St. revert key.
  induction St as [| cfg0 env k s D0 St IH | cfg0 id version s s' D0 St IH Hr
                  | cfg0 k closeErr removeErr a s St IH]; intros key dbm.
  - simpl. by rewrite lookup_empty.
  - destruct (create_entry cfg0 env k s) as [-> | (d & c & ->)];
      [by apply IH |].
    intros H Hd. apply lookup_insert_Some in H as [[_ H] | [_ H]];
      [| by eapply IH].
    inversion H; subst. simpl. rewrite D0. by eexists.
  - apply release_effect in Hr as (_ & [(_ & -> & _) | (d & _ & -> & _)]);
      [by apply IH |].
    intros H Hd. apply lookup_insert_Some in H as [[_ H] | [_ H]];
      [discriminate | by eapply IH].
  - destruct (Delete_effect cfg0 k closeErr removeErr a s) as (-> & _).
    intros H Hd. apply lookup_delete_Some in H as [_ H]. by eapply IH.
Qed.

End LifecycleFacts.

(** ** Keys and on-disk paths of plain names *)

Section PathFacts.

Import GoPath Plain.

Lemma append_assoc (a b c : string) : (a +:+ b) +:+ c = a +:+ b +:+ c.
Proof.
  induction a as [| x a IH]; [reflexivity |].
  change (String x ((a +:+ b) +:+ c) = String x (a +:+ b +:+ c)).
  by rewrite IH.
Qed.

Lemma append_empty_r (a : string) : a +:+ "" = a.
Proof.
  induction a as [| x a IH]; [reflexivity |].
  change (String x (a +:+ "") = String x a). by rewrite IH.
Qed.

Lemma has_slash_app a b : has_slash (a +:+ b) = has_slash a || has_slash b.
Proof.
  induction a as [| x a IH]; [reflexivity |].
  change (String x a +:+ b) with (String x (a +:+ b)). simpl.
  rewrite IH. by destruct (is_slash x).
Qed.

Lemma split_nonempty s : split s <> [].
Proof.
  destruct s as [| c r]; [done |]. simpl.
  destruct (is_slash c); [done |]. by destruct (split r).
Qed.

(** The elements of two paths joined by a slash are the elements of the
    first followed by those of the second. *)
Lemma split_app a b : split (a +:+ "/" +:+ b) = split a ++ split b.
Proof.
  induction a as [| c a IH]; [reflexivity |].
  change (String c a +:+ "/" +:+ b) with (String c (a +:+ "/" +:+ b)).
  simpl. rewrite IH. destruct (is_slash c); [reflexivity |].
  pose proof (split_nonempty a). by destruct (split a).
Qed.

Lemma split_plain e : has_slash e = false -> split e = [e].
Proof.
  induction e as [| c e IH]; [reflexivity |]. simpl.
  intros H. apply orb_false_elim in H as [Hc He]. by rewrite Hc, IH.
Qed.

Lemma simple_spec e :
  simple e = true ->
  e <> "" /\ has_slash e = false /\ e <> "." /\ e <> "..".
Proof.
  unfold simple. intros H.
  repeat (apply andb_prop in H as [H ?]).
  repeat match goal with
         | H : negb _ = true |- _ => apply negb_true_iff in H
         end.
  repeat split; try (by apply String.eqb_neq); done.
Qed.

Lemma clean_step_simple r out e :
  simple e = true -> clean_step r out e = e :: out.
Proof.
  intros H. apply simple_spec in H as (H1 & _ & H2 & H3).
  unfold clean_step. apply String.eqb_neq in H1, H2, H3.
  by rewrite H1, H2, H3.
Qed.

Lemma clean_fold_simple r names : forall out,
  Forall (fun e => simple e = true) names ->
  fold_left (clean_step r) names out = rev names ++ out.
Proof.
  induction names as [| e names IH]; intros out H; [reflexivity |].
  apply Forall_cons in H as [He H]. simpl.
  rewrite clean_step_simple by done. rewrite IH by done.
  by rewrite <- app_assoc.
Qed.

Lemma join_cons e names :
  names <> [] -> join (e :: names) = e +:+ "/" +:+ join names.
Proof. by destruct names. Qed.

Lemma join_app l1 l2 :
  l1 <> [] -> l2 <> [] -> join (l1 ++ l2) = join l1 +:+ "/" +:+ join l2.
Proof.
  intros H1 H2. induction l1 as [| e l1 IH]; [done |].
  destruct l1 as [| e' l1].
  - simpl. by destruct l2.
  - change ((e :: e' :: l1) ++ l2) with (e :: ((e' :: l1) ++ l2)).
    rewrite join_cons by (simpl; discriminate). rewrite IH by done.
    rewrite (join_cons e (e' :: l1)) by done. by rewrite append_assoc.
Qed.

Lemma split_join names :
  Forall (fun e => simple e = true) names -> names <> [] ->
  split (join names) = names.
Proof.
  induction names as [| e names IH]; intros H N; [done |].
  apply Forall_cons in H as [He H].
  apply simple_spec in He as (_ & He & _).
  destruct names as [| e' names].
  - simpl. by apply split_plain.
  - rewrite join_cons by done. rewrite split_app, split_plain by done.
    simpl. f_equal. by apply IH.
Qed.

Lemma join_starts names :
  Forall (fun e => simple e = true) names -> names <> [] ->
  exists c r, join names = String c r /\ is_slash c = false.
Proof.
  intros H N. destruct names as [| e names]; [done |].
  apply Forall_cons in H as [He _].
  apply simple_spec in He as (He1 & He2 & _).
  destruct e as [| c e]; [done |]. simpl in He2.
  apply orb_false_elim in He2 as [Hc _].
  destruct names; simpl; eauto.
Qed.

(** A path of simple names is clean. *)
Lemma Clean_path_of absolute names :
  Forall (fun e => simple e = true) names -> names <> [] ->
  Clean (path_of absolute names) = path_of absolute names.
Proof.
  intros H N. destruct (join_starts names H N) as (c & r & Hj & Hc).
  unfold Clean, path_of. destruct absolute.
  - assert (E1 : String.eqb ("/" +:+ join names) "" = false) by reflexivity.
    assert (E2 : rooted ("/" +:+ join names) = true) by reflexivity.
    assert (E3 : split ("/" +:+ join names) = "" :: names).
    { change (split ("/" +:+ join names)) with ("" :: split (join names)).
      by rewrite split_join. }
    rewrite E1, E2, E3.
    change (fold_left (clean_step true) ("" :: names) [])
      with (fold_left (clean_step true) names []).
    rewrite clean_fold_simple by done. by rewrite app_nil_r, rev_involutive.
  - change ("" +:+ join names) with (join names).
    assert (E1 : String.eqb (join names) "" = false) by (by rewrite Hj).
    assert (E2 : rooted (join names) = false) by (by rewrite Hj).
    rewrite E1, E2, split_join, clean_fold_simple by done.
    rewrite app_nil_r, rev_involutive. by destruct names.
Qed.

(** [path.Join] of simple names puts slashes between them. *)
Lemma Join_simple names :
  Forall (fun e => simple e = true) names -> names <> [] ->
  Join names = join names.
Proof.
  intros H N. unfold Join.
  assert (E : filter (fun e => e <> EmptyString) names = names).
  { clear N. induction names as [| e names IH]; [reflexivity |].
    apply Forall_cons in H as [He H]. rewrite filter_cons.
    apply simple_spec in He as (He & _).
    rewrite decide_True by done. by rewrite IH. }
  rewrite E. destruct names as [| e names]; [done |].
  apply (Clean_path_of false (e :: names)); done.
Qed.

Lemma slash_split_unique a b a' b' :
  has_slash a = false -> has_slash a' = false ->
  a +:+ "/" +:+ b = a' +:+ "/" +:+ b' -> a = a' /\ b = b'.
Proof.
  revert a'. induction a as [| c a IH]; intros a' Ha Ha' E.
  - destruct a' as [| c' a']; simpl in E.
    + inversion E. done.
    + inversion E; subst. simpl in Ha'. discriminate.
  - destruct a' as [| c' a']; simpl in E.
    + inversion E; subst. simpl in Ha. discriminate.
    + inversion E; subst. simpl in Ha, Ha'.
      apply orb_false_elim in Ha as [_ Ha].
      apply orb_false_elim in Ha' as [_ Ha'].
      destruct (IH a' Ha Ha' H1) as [-> ->]. done.
Qed.

Import Registry.

Lemma plain_keys_aux id version :
  simple id = true -> simple version = true ->
  VersionedDBID id version = id +:+ "/" +:+ version /\
  id +:+ "/" +:+ version <> "".
Proof.
  intros Hi Hv. split.
  - unfold VersionedDBID. rewrite Join_simple; [reflexivity | | done].
    by repeat constructor.
  - apply simple_spec in Hi as (Hi & _). by destruct id.
Qed.

(** X9: for identities and versions that are plain names (not empty, no
    slash, neither "." nor ".."), the key is the identity, a slash and the
    version, and different pairs have different keys. *)
Theorem plain_names_have_distinct_keys id version id' version' :
  simple id = true -> simple version = true ->
  simple id' = true -> simple version' = true ->
  VersionedDBID id version = id +:+ "/" +:+ version /\
  (VersionedDBID id version = VersionedDBID id' version' ->
   id = id' /\ version = version').
Proof.
  intros Hi Hv Hi' Hv'.
  assert (K : forall a b, simple a = true -> simple b = true ->
                          VersionedDBID a b = a +:+ "/" +:+ b).
  { intros a b Ha Hb. unfold VersionedDBID.
    rewrite Join_simple; [reflexivity | | done].
    by repeat constructor. }
  split; [by apply K |].
  rewrite !K by done. apply slash_split_unique.
  - by apply simple_spec in Hi as (_ & ? & _).
  - by apply simple_spec in Hi' as (_ & ? & _).
Qed.

Lemma plain_names_have_distinct_keys_witness :
  VersionedDBID "org1" "1.0" = "org1" +:+ "/" +:+ "1.0" /\
  (VersionedDBID "org1" "1.0" = VersionedDBID "org1" "1.0" ->
   "org1" = "org1" /\ "1.0" = "1.0").
Proof.
  apply (plain_names_have_distinct_keys "org1" "1.0" "org1" "1.0");
    vm_compute; reflexivity.
Defined.

Lemma clean_fold_skip_empty r l1 l2 out :
  fold_left (clean_step r) (l1 ++ "" :: l2) out =
  fold_left (clean_step r) (l1 ++ l2) out.
Proof. by rewrite !fold_left_app. Qed.

Lemma rooted_app a b : a <> "" -> rooted (a +:+ b) = rooted a.
Proof. by destruct a. Qed.

Lemma append_not_empty a b : a <> "" -> String.eqb (a +:+ b) "" = false.
Proof. by destruct a. Qed.

(** Two paths with the same root flag whose elements clean to the same
    output have the same cleaned form. *)
Lemma Clean_by_elements s s' :
  String.eqb s "" = false -> String.eqb s' "" = false ->
  rooted s = rooted s' ->
  fold_left (clean_step (rooted s)) (split s) [] =
    fold_left (clean_step (rooted s)) (split s') [] ->
  Clean s = Clean s'.
Proof.
  intros E E' R F. unfold Clean. by rewrite E, E', <- R, F.
Qed.

(** A trailing slash and a doubled slash make no difference. *)
Lemma Clean_trailing_slash a : a <> "" -> Clean (a +:+ "/") = Clean a.
Proof.
  intros N. apply Clean_by_elements.
  - by apply append_not_empty.
  - by apply String.eqb_neq.
  - by apply rooted_app.
  - change (a +:+ "/") with (a +:+ "/" +:+ "").
    rewrite split_app. change (split "") with [""].
    rewrite rooted_app by done.
    rewrite (clean_fold_skip_empty _ (split a) []). by rewrite app_nil_r.
Qed.

Lemma Clean_double_slash a b :
  a <> "" -> Clean (a +:+ "/" +:+ "/" +:+ b) = Clean (a +:+ "/" +:+ b).
Proof.
  intros N. apply Clean_by_elements.
  - by apply append_not_empty.
  - by apply append_not_empty.
  - by rewrite !rooted_app.
  - rewrite (split_app a ("/" +:+ b)), (split_app a b).
    change (split ("/" +:+ b)) with ("" :: split b).
    rewrite !rooted_app by done.
    by rewrite clean_fold_skip_empty.
Qed.

Lemma Join_pair a b :
  a <> "" ->
  Join [a; b] = if String.eqb b "" then Clean a else Clean (a +:+ "/" +:+ b).
Proof.
  intros Na. unfold Join. rewrite filter_cons_True by done.
  destruct (String.eqb b "") eqn:E.
  - apply String.eqb_eq in E. subst b.
    by rewrite filter_cons_False, filter_nil by (intros H; by apply H).
  - apply String.eqb_neq in E. by rewrite filter_cons_True, filter_nil by done.
Qed.

(** X10: an identity with a slash added at its end has the key of the
    identity without it.  The guard of the reserved identity compares
    strings, so the identity "common/" passes it and [DBForID] then
    returns what [DB] returns: the handle of the default key. *)
Theorem trailing_slash_same_key cfg env s id version :
  id <> "" ->
  VersionedDBID (id +:+ "/") version = VersionedDBID id version /\
  dbVersionForID cfg env (id +:+ "/") version s =
    dbVersionForID cfg env id version s /\
  DBForID cfg env (commonDBID +:+ "/") s = DB cfg env s.
Proof.
  intros N.
  assert (K : forall a b, a <> "" ->
                VersionedDBID (a +:+ "/") b = VersionedDBID a b).
  { intros a b Na. unfold VersionedDBID.
    assert (Na' : a +:+ "/" <> "") by (by destruct a).
    rewrite !Join_pair by done. destruct (String.eqb b "").
    - by apply Clean_trailing_slash.
    - rewrite append_assoc. by apply Clean_double_slash. }
  split; [by apply K |]. split.
  - unfold dbVersionForID. by rewrite K.
  - unfold DB, DBForID.
    change (String.eqb (commonDBID +:+ "/") commonDBID) with false.
    unfold dbVersionForID. by rewrite K.
Qed.

Lemma trailing_slash_same_key_witness :
  VersionedDBID ("org1" +:+ "/") "1.0" = VersionedDBID "org1" "1.0" /\
  dbVersionForID Lifecycle.sample healthy ("org1" +:+ "/") "1.0" empty =
    dbVersionForID Lifecycle.sample healthy "org1" "1.0" empty /\
  DBForID Lifecycle.sample healthy (commonDBID +:+ "/") empty =
    DB Lifecycle.sample healthy empty.
Proof.
  apply (trailing_slash_same_key Lifecycle.sample healthy empty "org1" "1.0").
  discriminate.
Defined.

Lemma split_dir_cons c r :
  split_dir (String c r) =
    if has_slash r then String c (split_dir r)
    else if is_slash c then "/" else "".
Proof. reflexivity. Qed.

Lemma split_dir_last x e :
  has_slash e = false -> split_dir (x +:+ "/" +:+ e) = x +:+ "/".
Proof.
  intros He. induction x as [| c x IH].
  - change ("" +:+ "/" +:+ e) with (String "/" e).
    rewrite split_dir_cons, He. reflexivity.
  - change (String c x +:+ "/" +:+ e) with (String c (x +:+ "/" +:+ e)).
    rewrite split_dir_cons, has_slash_app.
    change (has_slash ("/" +:+ e)) with true.
    rewrite orb_true_r, IH. reflexivity.
Qed.

Lemma path_of_snoc absolute names e :
  names <> [] ->
  path_of absolute (names ++ [e]) = path_of absolute names +:+ "/" +:+ e.
Proof.
  intros N. unfold path_of. rewrite join_app by done.
  simpl (join [e]). by rewrite append_assoc.
Qed.

Lemma path_of_not_empty absolute names :
  Forall (fun e => simple e = true) names -> names <> [] ->
  path_of absolute names <> "".
Proof.
  intros H N. destruct (join_starts names H N) as (c & r & Hj & _).
  unfold path_of. rewrite Hj. by destruct absolute.
Qed.

(** X11: the on-disk layout.  When the storage root is a path of plain
    names (absolute or not), the data path is a path of plain names and
    identity and version are plain names, the database file is
    root/data-path/identity/version/sqlite3 and the directory that is
    created for the key, and removed by its finalizer, is
    root/data-path/identity/version. *)
Theorem DBPath_layout cfg absolute root data id version :
  Forall (fun e => simple e = true) root -> root <> [] ->
  Forall (fun e => simple e = true) data -> data <> [] ->
  simple id = true -> simple version = true ->
  local_storage_path cfg = path_of absolute root ->
  data_path cfg = path_of false data ->
  DBPath cfg (VersionedDBID id version) =
    path_of absolute (root ++ data ++ [id; version; "sqlite3"]) /\
  GoPath.Dir (DBPath cfg (VersionedDBID id version)) =
    path_of absolute (root ++ data ++ [id; version]).
Proof.
  intros Hr Nr Hd Nd Hi Hv Er Ed.
  assert (Hall : Forall (fun e => simple e = true)
                        (root ++ data ++ [id; version])).
  { apply Forall_app. split; [done |]. apply Forall_app. split; [done |].
    by repeat constructor. }
  assert (Nall : root ++ data ++ [id; version] <> []) by (by destruct root).
  assert (E : DBPath cfg (VersionedDBID id version) =
              path_of absolute ((root ++ data ++ [id; version]) ++ ["sqlite3"])).
  { rewrite <- Clean_path_of.
    2:{ apply Forall_app. split; [done |]. by repeat constructor. }
    2:{ by destruct root. }
    unfold DBPath, Join. rewrite Er, Ed.
    destruct (plain_keys_aux id version Hi Hv) as [-> Nk].
    rewrite !filter_cons, filter_nil.
    rewrite !decide_True;
      [| discriminate | done | by apply path_of_not_empty
       | by apply path_of_not_empty].
    f_equal. rewrite path_of_snoc by done.
    unfold path_of. simpl ("" +:+ _).
    rewrite !join_app by (done || by destruct data).
    rewrite !append_assoc.
    change (((if absolute then "/" else "") +:+ join root) +:+ "/" +:+
            join data +:+ "/" +:+ (id +:+ "/" +:+ version) +:+ "/" +:+
            "sqlite3" =
            (if absolute then "/" else "") +:+ join root +:+ "/" +:+
            join data +:+ "/" +:+ (id +:+ "/" +:+ version) +:+ "/" +:+
            "sqlite3").
    by rewrite !append_assoc. }
  split.
  - rewrite E. by rewrite <- !app_assoc.
  - rewrite E, path_of_snoc by done. unfold GoPath.Dir.
    rewrite split_dir_last by reflexivity.
    rewrite Clean_trailing_slash by (by apply path_of_not_empty).
    by apply Clean_path_of.
Qed.

Lemma DBPath_layout_witness :
  DBPath Lifecycle.sample (VersionedDBID "org1" "1.0") =
    path_of true (["var"; "apid"] ++ ["sqlite"] ++ ["org1"; "1.0"; "sqlite3"]) /\
  GoPath.Dir (DBPath Lifecycle.sample (VersionedDBID "org1" "1.0")) =
    path_of true (["var"; "apid"] ++ ["sqlite"] ++ ["org1"; "1.0"]).
Proof.
  apply (DBPath_layout Lifecycle.sample true ["var"; "apid"] ["sqlite"]
           "org1" "1.0").
  - by repeat constructor.
  - discriminate.
  - by repeat constructor.
  - discriminate.
  - reflexivity.
  - reflexivity.
  - reflexivity.
  - reflexivity.
Defined.

End PathFacts.

(** ** More on transactions: the mutex and its owner *)

Section OwnerFacts.

Import Txn Owners.

Lemma owned_init : owned init.
Proof. intros d H. simpl in H. set_solver. Qed.

Lemma owned_Begin d e w r w' :
  owned w -> Begin d e w = Next r w' -> owned w'.
Proof.
  intros O. unfold Begin, Lock, Unlock.
  destruct (decide (d ∈ held w)) as [H|H]; [discriminate |].
  destruct e as [e|]; simpl.
  - rewrite decide_True by set_solver.
    intros E; inversion E; subst; clear E. intros d' Hd'. simpl in *.
    apply elem_of_difference in Hd' as [Hd' Hne].
    apply elem_of_union in Hd' as [Hd' | Hd']; [done |]. by apply O.
  - intros E; inversion E; subst; clear E. intros d' Hd'. simpl in *.
    apply elem_of_union in Hd' as [Hd' | Hd'].
    + apply elem_of_singleton in Hd'. subst d'.
      exists (length (heap w)), {| tx_mutex := d; tx_closed := false |}.
      split; [| done]. rewrite lookup_app_r by done.
      by rewrite Nat.sub_diag.
    + destruct (O d' Hd') as (t & tx & Ht & Hm & Hc).
      exists t, tx. split; [| done]. by apply lookup_app_l_Some.
Qed.

Lemma owned_finish t e w r w' :
  Inv.tx_inv w -> owned w -> finish t e w = Next r w' -> owned w'.
Proof.
  intros I O. destruct (heap w !! t) as [tx|] eqn:Ht.
  2:{ unfold finish. rewrite Ht. discriminate. }
  destruct (tx_closed tx) eqn:Hc.
  { rewrite (finish_closed _ _ _ _ Ht Hc). intros E; by inversion E; subst. }
  rewrite (finish_open _ _ _ _ I Ht Hc).
  intros E; inversion E; subst; clear E. intros d' Hd'. simpl in *.
  apply elem_of_difference in Hd' as [Hd' Hne].
  destruct (O d' Hd') as (t0 & tx0 & Ht0 & Hm0 & Hc0).
  exists t0, tx0. split; [| done].
  rewrite list_lookup_insert_ne; [done |].
  intros ->. rewrite Ht in Ht0. inversion Ht0; subst.
  apply Hne. by apply elem_of_singleton.
Qed.

Lemma owned_exec l : forall w w',
  Inv.tx_inv w -> owned w -> exec w l = Some w' -> owned w'.
Proof.
  induction l as [| a l IH]; intros w w' I O; simpl.
  - intros H; by inversion H; subst.
  - destruct (step w a) as [w1|] eqn:E; [| discriminate].
    apply IH; [by eapply tx_inv_step |].
    destruct a as [d e | t e | t e]; simpl in E; unfold Commit, Rollback in E.
    + destruct (Begin d e w) as [r w2| |] eqn:E2; simpl in E; [| discriminate ..].
      inversion E; subst. by eapply owned_Begin.
    + destruct (finish t e w) as [r w2| |] eqn:E2; simpl in E; [| discriminate ..].
      inversion E; subst. by eapply owned_finish.
    + destruct (finish t e w) as [r w2| |] eqn:E2; simpl in E; [| discriminate ..].
      inversion E; subst. by eapply owned_finish.
Qed.

(** X12: in every world the calls can produce, the mutex of a handle is
    locked exactly when a transaction begun on the handle is neither
    committed nor rolled back: no call leaves the mutex locked behind
    it. *)
Theorem mutex_held_iff_in_flight acts w d :
  exec init acts = Some w ->
  (d ∈ held w <-> in_flight d w <> []).
Proof.
  intros Hx. pose proof (exec_inv _ _ Hx) as I.
  pose proof (owned_exec acts init w tx_inv_init owned_init Hx) as O. split.
  - intros Hd. destruct (O d Hd) as (t & tx & Ht & Hm & Hc).
    assert (Hin : tx ∈ in_flight d w).
    { apply list_elem_of_filter. split; [done |].
      apply list_elem_of_lookup. eauto. }
    intros E. rewrite E in Hin. by apply elem_of_nil in Hin.
  - intros Hne. destruct (in_flight d w) as [| tx l] eqn:E; [done |].
    assert (Hin : tx ∈ in_flight d w) by (rewrite E; left).
    apply list_elem_of_filter in Hin as [[M C] Hin].
    apply list_elem_of_lookup in Hin as [t Ht].
    rewrite <- M. eapply (Inv.inv_locked w I); eauto.
Qed.

Lemma mutex_held_iff_in_flight_witness :
  let w := {| held := ({[7]} ∪ ({[7]} ∪ ∅) ∖ {[7]}) ∖ {[7]};
              heap := [{| tx_mutex := 7; tx_closed := true |}];
              trace := [Locked 7; Unlocked 7 None; Locked 7;
                        Unlocked 7 (Some 0)] |} in
  (7 ∈ held w <-> in_flight 7 w <> []).
Proof.
  intros w.
  apply (mutex_held_iff_in_flight
           [ABegin 7 (Some "busy"); ABegin 7 None; ARollback 0 None] w 7).
  reflexivity.
Defined.

(** X13: in every world the calls can produce, [Commit] and [Rollback] on
    a transaction that [Begin] returned always return, with the error of
    the engine: they never wait, and the deferred unlock never meets a
    mutex that is not locked.  [Begin] itself never ends in that fatal
    error either. *)
Theorem commit_rollback_complete acts w :
  exec init acts = Some w ->
  (forall t e, t < length (heap w) ->
     exists w', Commit t e w = Next e w' /\ Rollback t e w = Next e w') /\
  (forall d e, Begin d e w <> Fatal).
Proof.
  intros Hx. pose proof (exec_inv _ _ Hx) as I. split.
  - intros t e Ht. apply lookup_lt_is_Some in Ht as [tx Ht].
    unfold Commit, Rollback. destruct (tx_closed tx) eqn:Hc.
    + exists w. by rewrite (finish_closed _ _ _ _ Ht Hc).
    + eexists. by rewrite (finish_open _ _ _ _ I Ht Hc).
  - intros d e. unfold Begin, Lock, Unlock.
    destruct (decide (d ∈ held w)); [discriminate |].
    destruct e; simpl; [| discriminate].
    rewrite decide_True; [discriminate |].
    apply elem_of_union. left. by apply elem_of_singleton.
Qed.

Lemma commit_rollback_complete_witness :
  let w := {| held := {[7]} ∪ ∅;
              heap := [{| tx_mutex := 7; tx_closed := false |}];
              trace := [Locked 7] |} in
  (forall t e, t < length (heap w) ->
     exists w', Commit t e w = Next e w' /\ Rollback t e w = Next e w') /\
  (forall d e, Begin d e w <> Fatal).
Proof.
  intros w. apply (commit_rollback_complete [ABegin 7 None] w). reflexivity.
Defined.

(** X14: a [Begin] that takes the mutex and is refused by the engine
    returns the engine's error and no transaction, leaves the set of
    locked mutexes and the transactions as they were, and a following
    [Begin] on the handle does not wait. *)
Theorem failed_Begin_releases d e w :
  d ∉ held w ->
  exists w',
    Begin d (Some e) w = Next (None, Some e) w' /\
    held w' = held w /\ heap w' = heap w /\
    forall e', Begin d e' w' <> Blocked.
Proof.
  intros Hd. unfold Begin at 1. unfold Lock, Unlock.
  rewrite decide_False by done. simpl.
  rewrite decide_True by (apply elem_of_union; left; by apply elem_of_singleton).
  eexists. split; [reflexivity |]. simpl.
  assert (E : ({[d]} ∪ held w) ∖ {[d]} = held w).
  { apply set_eq. intros x. rewrite elem_of_difference, elem_of_union,
      elem_of_singleton. split.
    - intros [[-> | Hx] Hn]; [by exfalso; apply Hn | done].
    - intros Hx. split; [by right |]. intros ->. done. }
  split; [exact E |]. split; [done |].
  intros e' B. apply Begin_blocked_iff in B. simpl in B. rewrite E in B. done.
Qed.

Lemma failed_Begin_releases_witness :
  exists w',
    Begin 7 (Some "database is locked") init =
      Next (None, Some "database is locked") w' /\
    held w' = held init /\ heap w' = heap init /\
    forall e', Begin 7 e' w' <> Blocked.
Proof.
  apply (failed_Begin_releases 7 "database is locked" init).
  intros H. simpl in H. by apply elem_of_empty in H.
Defined.

End OwnerFacts.

(** ** More on the tracing wrapper: a session of calls *)

Section SessionFacts.

Import Wrap Session.

Lemma add1_int64_small z :
  (- 2 ^ 63 <= z < 2 ^ 63 - 1)%Z -> add1_int64 z = (z + 1)%Z.
Proof.
  intros H. unfold add1_int64. rewrite Z.mod_small; [lia |].
  change (2 ^ 64)%Z with (2 * 2 ^ 63)%Z. lia.
Qed.

Lemma from_S z n : from z (S n) = (z + 1)%Z :: from (z + 1) n.
Proof.
  unfold from. simpl. f_equal. rewrite <- seq_shift, map_map.
  apply map_ext. intros k. rewrite Nat2Z.inj_succ. lia.
Qed.

Lemma session_cons c call rest :
  session c (call :: rest) =
    (fst (fst (perform c call)) ::
       fst (fst (session (snd (fst (perform c call))) rest)),
     snd (fst (session (snd (fst (perform c call))) rest)),
     snd (perform c call) ++ snd (session (snd (fst (perform c call))) rest)).
Proof.
  simpl. destruct (perform c call) as [[r c1] l1]. simpl.
  by destruct (session c1 rest) as [[rs c2] l2].
Qed.

Lemma stmt_ids_app l1 l2 : stmt_ids (l1 ++ l2) = stmt_ids l1 ++ stmt_ids l2.
Proof. apply omap_app. Qed.

Lemma tx_ids_app l1 l2 : tx_ids (l1 ++ l2) = tx_ids l1 ++ tx_ids l2.
Proof. apply omap_app. Qed.

(** What one call does to the counters and which identifiers it logs. *)
Lemma perform_ids c call :
  stmtCounter (snd (fst (perform c call))) =
    (if is_prepare call then add1_int64 (stmtCounter c) else stmtCounter c) /\
  txCounter (snd (fst (perform c call))) =
    (if is_begin call then add1_int64 (txCounter c) else txCounter c) /\
  stmt_ids (snd (perform c call)) =
    (if is_prepare call then [add1_int64 (stmtCounter c)] else []) /\
  tx_ids (snd (perform c call)) =
    (if is_begin call then [add1_int64 (txCounter c)] else []).
Proof.
  destruct call as [q [e|x] | [e|x] | [e|] | q args [rows [e|]]]; by repeat split.
Qed.

(** X15: on one connection the statements are numbered one after the
    other and so are the transactions, each kind by its own counter: as
    long as a counter stays below the largest 64-bit integer, the
    statements prepared in a session carry the identifiers that follow
    the counter's value at the start, in order, whatever the engine
    answers and whatever other calls are made in between. *)
Theorem identifiers_count_up calls : forall c,
  let n := length (filter (fun call => is_prepare call) calls) in
  let m := length (filter (fun call => is_begin call) calls) in
  (- 2 ^ 63 <= stmtCounter c)%Z -> (stmtCounter c + Z.of_nat n < 2 ^ 63)%Z ->
  (- 2 ^ 63 <= txCounter c)%Z -> (txCounter c + Z.of_nat m < 2 ^ 63)%Z ->
  stmt_ids (snd (session c calls)) = from (stmtCounter c) n /\
  tx_ids (snd (session c calls)) = from (txCounter c) m /\
  stmtCounter (snd (fst (session c calls))) = (stmtCounter c + Z.of_nat n)%Z /\
  txCounter (snd (fst (session c calls))) = (txCounter c + Z.of_nat m)%Z.
Proof.
  induction calls as [| call calls IH]; intros c n m Hs1 Hs2 Ht1 Ht2.
  - subst n m. rewrite filter_nil. simpl. repeat split; (reflexivity || lia).
  - subst n m. rewrite !filter_cons in *.
    destruct (perform_ids c call) as (P1 & P2 & P3 & P4).
    rewrite session_cons. cbn [fst snd].
    rewrite stmt_ids_app, tx_ids_app, P3, P4.
    set (c1 := snd (fst (perform c call))) in *.
    destruct (is_prepare call) eqn:Ep; destruct (is_begin call) eqn:Eb;
      try (by destruct call);
      rewrite ?decide_True in * by done;
      rewrite ?decide_False in * by (by intros []); simpl length in *.
    + rewrite add1_int64_small in P1 by lia.
      destruct (IH c1) as (I1 & I2 & I3 & I4); try (rewrite ?P1, ?P2; lia).
      rewrite I1, I2, I3, I4, P1, P2, from_S.
      rewrite add1_int64_small by lia. repeat split; simpl; lia || done.
    + rewrite add1_int64_small in P2 by lia.
      destruct (IH c1) as (I1 & I2 & I3 & I4); try (rewrite ?P1, ?P2; lia).
      rewrite I1, I2, I3, I4, P1, P2, from_S.
      rewrite add1_int64_small by lia. repeat split; simpl; lia || done.
    + destruct (IH c1) as (I1 & I2 & I3 & I4); try (rewrite ?P1, ?P2; lia).
      rewrite I1, I2, I3, I4, P1, P2. by repeat split.
Qed.

Lemma identifiers_count_up_witness :
  let c := {| stmtCounter := 0; txCounter := 0 |} in
  let calls := [CPrepare "select 1" (inr 5); CBegin (inl "busy");
                CQuery "select 2" [] (None, Some "no such table");
                CPrepare "selec" (inl "syntax error"); CBegin (inr 9)] in
  stmt_ids (snd (session c calls)) = from 0 2 /\
  tx_ids (snd (session c calls)) = from 0 2 /\
  stmtCounter (snd (fst (session c calls))) = (0 + Z.of_nat 2)%Z /\
  txCounter (snd (fst (session c calls))) = (0 + Z.of_nat 2)%Z.
Proof.
  intros c calls.
  apply (identifiers_count_up calls c); vm_compute; congruence.
Defined.

Lemma perform_answer c call :
  fst (fst (perform c call)) = answer call /\
  length (snd (perform c call)) = 2 /\
  length (logged_at Error (snd (perform c call))) =
    (if refused call then 1 else 0).
Proof.
  destruct call as [q [e|x] | [e|x] | [e|] | q args [rows [e|]]]; by repeat split.
Qed.

(** X16: over a whole session the wrapper hands back exactly what the
    engine answered, call by call (the engine's error, and the engine's
    statement, transaction or rows), and it writes two log entries for
    every call. *)
Theorem session_returns_engine_answers calls : forall c,
  fst (fst (session c calls)) = map answer calls /\
  length (snd (session c calls)) = 2 * length calls.
Proof.
  induction calls as [| call calls IH]; intros c; [done |].
  rewrite session_cons. cbn [fst snd].
  destruct (perform_answer c call) as (P1 & P2 & _).
  destruct (IH (snd (fst (perform c call)))) as (I1 & I2).
  rewrite P1, I1, length_app, P2, I2. simpl. split; [done | lia].
Qed.

(** X17: the entries a session logs at error severity are as many as its
    prepare, begin and close calls that the engine refused; a refused
    query adds none. *)
Theorem error_entries_count_refusals calls : forall c,
  length (logged_at Error (snd (session c calls))) =
    length (filter (fun call => refused call) calls).
Proof.
  induction calls as [| call calls IH]; intros c; [done |].
  rewrite session_cons. cbn [fst snd].
  destruct (perform_answer c call) as (_ & _ & P3).
  unfold logged_at in *. rewrite filter_app, length_app, P3, IH.
  rewrite filter_cons. destruct (refused call).
  - by rewrite decide_True.
  - by rewrite decide_False by (by intros []).
Qed.

End SessionFacts.

(** ** More on the mapper: what every call keeps *)

Section DecodeFacts.

Import Mapper RoundTrip Typing.

Lemma StructsFromRows_decode_with cv cache d rows :
  StructsFromRows cv cache (Some d) rows =
    (decode_with cv (fst (mapper_for (elem d) cache)) d rows,
     snd (mapper_for (elem d) cache)).
Proof.
  unfold StructsFromRows, decode_with.
  destruct (mapper_for (elem d) cache) as [m cache']. simpl.
  destruct (columnsErr rows); [done |].
  destruct (columnTypesErr rows); [done |].
  destruct (carriers (map snd (columns rows))); [done |].
  by destruct (decode_rows cv (elem d) m (columns rows) l (data rows) []).
Qed.

(** The loop appends one record per row to the slice it was given. *)
Lemma decode_rows_appends cv t m cols ks rws : forall slice out,
  decode_rows cv t m cols ks rws slice = Ok out ->
  exists recs, out = slice ++ recs /\ length recs = length rws.
Proof.
  induction rws as [| cells rws IH]; intros slice out H; simpl in H.
  - inversion H; subst. exists []. by rewrite app_nil_r.
  - destruct (decode_row cv t m cols ks cells) as [v | e |]; try discriminate.
    apply IH in H as (recs & -> & Hl).
    exists (v :: recs). rewrite <- app_assoc. simpl. by rewrite Hl.
Qed.

(** X18: a call that does not end with a nil error leaves the destination
    as it was: after an error of the query, of a column call, of an
    unsupported column type, of a scan or of a conversion, and after a
    panic of a setter, no record of the rows decoded so far is in the
    destination. *)
Theorem failure_leaves_destination cv cache dest engine :
  let '(ret, dest', _) := QueryStructs cv cache dest engine in
  ret = Nil \/ dest' = dest.
Proof.
  destruct engine as [e | rows]; simpl; [by right |].
  destruct dest as [d|]; [| by left].
  rewrite StructsFromRows_decode_with. unfold decode_with.
  destruct (columnsErr rows); [by right |].
  destruct (columnTypesErr rows); [by right |].
  destruct (carriers (map snd (columns rows))); [by right |].
  destruct (decode_rows cv (elem d) _ (columns rows) l (data rows) []);
    [by left | by right | by right].
Qed.

(** X19: a call that ends with a nil error replaces the destination: it
    then holds exactly one record per row of the result set, whatever it
    held before, and what it held before has no influence on the
    records. *)
Theorem success_replaces_destination cv cache d rows :
  fst (fst (StructsFromRows cv cache (Some d) rows)) = Nil ->
  exists recs,
    snd (fst (StructsFromRows cv cache (Some d) rows)) =
      Some {| elem := elem d; contents := recs |} /\
    length recs = length (data rows) /\
    forall old,
      fst (StructsFromRows cv cache
             (Some {| elem := elem d; contents := old |}) rows) =
        (Nil, Some {| elem := elem d; contents := recs |}).
Proof.
  rewrite StructsFromRows_decode_with. cbn [fst snd]. unfold decode_with.
  destruct (columnsErr rows) eqn:E1; [discriminate |].
  destruct (columnTypesErr rows) eqn:E2; [discriminate |].
  destruct (carriers (map snd (columns rows))) as [| ks] eqn:E3; [discriminate |].
  destruct (decode_rows cv (elem d) _ (columns rows) ks (data rows) [])
    as [slice | |] eqn:E4; try discriminate.
  intros _. exists slice. split; [done |]. split.
  - apply decode_rows_appends in E4 as (recs & -> & Hl). done.
  - intros old. rewrite StructsFromRows_decode_with. cbn [fst snd].
    unfold decode_with. cbn [elem]. by rewrite E1, E2, E3, E4.
Qed.

Lemma success_replaces_destination_witness :
  exists recs,
    snd (fst (StructsFromRows refusing []
                (Some {| elem := item_type;
                         contents := [new_struct item_type] |}) item_rows)) =
      Some {| elem := item_type; contents := recs |} /\
    length recs = length (data item_rows) /\
    forall old,
      fst (StructsFromRows refusing []
             (Some {| elem := item_type; contents := old |}) item_rows) =
        (Nil, Some {| elem := item_type; contents := recs |}).
Proof.
  apply (success_replaces_destination refusing []
           {| elem := item_type; contents := [new_struct item_type] |}
           item_rows).
  vm_compute. reflexivity.
Defined.

(** X20: the cache of mappings cannot be observed.  With a cache that
    holds for each type the mapping built from it, a call returns the
    error and the destination that it returns with an empty cache; the
    cache it leaves is again of that kind and holds the mapping of the
    record type of a destination that is not nil. *)
Theorem cache_is_transparent cv cache dest rows :
  coherent cache ->
  fst (StructsFromRows cv cache dest rows) =
    fst (StructsFromRows cv [] dest rows) /\
  coherent (snd (StructsFromRows cv cache dest rows)) /\
  match dest with
  | Some d =>
      cached (elem d) (snd (StructsFromRows cv cache dest rows)) =
        Some (build_mapper (elem d))
  | None => snd (StructsFromRows cv cache dest rows) = cache
  end.
Proof.
  intros H. destruct dest as [d|]; [| done].
  rewrite !StructsFromRows_decode_with. cbn [fst snd].
  rewrite (mapper_for_coherent _ _ H), (mapper_for_coherent _ _ coherent_nil).
  split; [done |]. split; [by apply coherent_mapper_for |].
  unfold mapper_for. destruct (cached (elem d) cache) as [m|] eqn:E; simpl.
  - rewrite E. f_equal. by apply H.
  - unfold cached. simpl. by rewrite bool_decide_eq_true_2.
Qed.

Lemma cache_is_transparent_witness :
  let cache := [(item_type, build_mapper item_type)] in
  let dest := Some {| elem := item_type; contents := [] |} in
  fst (StructsFromRows refusing cache dest item_rows) =
    fst (StructsFromRows refusing [] dest item_rows) /\
  coherent (snd (StructsFromRows refusing cache dest item_rows)) /\
  cached item_type (snd (StructsFromRows refusing cache dest item_rows)) =
    Some (build_mapper item_type).
Proof.
  intros cache dest.
  apply (cache_is_transparent refusing cache dest item_rows).
  intros t m. unfold cached, cache. simpl.
  destruct (bool_decide (item_type = t)) eqn:D; [| discriminate].
  apply bool_decide_eq_true in D. subst t. simpl. congruence.
Defined.

(** X21: when several fields declare one column, the mapping sends the
    column to the last of them in declaration order; and a column that no
    field declares is sent to the empty field name, which no struct
    has. *)
Theorem last_declaring_field_wins t before f after :
  tfields t = before ++ f :: after ->
  ftag f <> "" ->
  (forall g, g ∈ after -> ftag g <> ftag f) ->
  index (build_mapper t) (ftag f) = fname f /\
  forall k, (forall g, g ∈ tfields t -> ftag g <> k) ->
            index (build_mapper t) k = "" /\
            FieldByName t (index (build_mapper t) k) = None.
Proof.
  intros Hfs Hne Hafter. split.
  - unfold index. rewrite build_mapper_fold, Hfs, fold_left_app. simpl.
    rewrite (mapper_fold_field after f); [done | | | done].
    + right. unfold mapper_step. apply String.eqb_neq in Hne. rewrite Hne.
      apply lookup_insert_eq.
    + intros g Hg E. by destruct (Hafter g Hg).
  - intros k Hk. unfold index.
    destruct (build_mapper t !! k) as [name|] eqn:E.
    + rewrite build_mapper_fold in E.
      apply mapper_fold_Some in E as [(g & Hg & Hgk & _) | E].
      * by destruct (Hk g Hg).
      * by rewrite lookup_empty in E.
    + done.
Qed.

Lemma last_declaring_field_wins_witness :
  let a := {| fname := "First"; ftag := "name"; ftype := TString |} in
  let b := {| fname := "Second"; ftag := "name"; ftype := TString |} in
  let t := {| tname := "Pair"; tfields := [a; b] |} in
  index (build_mapper t) (ftag b) = fname b /\
  forall k, (forall g, g ∈ tfields t -> ftag g <> k) ->
            index (build_mapper t) k = "" /\
            FieldByName t (index (build_mapper t) k) = None.
Proof.
  intros a b t. apply (last_declaring_field_wins t [a] b []).
  - reflexivity.
  - discriminate.
  - intros g Hg. by apply elem_of_nil in Hg.
Defined.

Lemma wrap_int_in_range w i : in_range w (wrap_int w i) = true.
Proof.
  unfold in_range, wrap_int. apply andb_true_intro.
  assert (H : (0 <= (i + 2 ^ (bits w - 1)) mod 2 ^ bits w < 2 ^ bits w)%Z)
    by (apply Z.mod_pos_bound; by destruct w).
  assert (E : (2 ^ bits w = 2 * 2 ^ (bits w - 1))%Z) by (by destruct w).
  split; [apply Z.leb_le | apply Z.ltb_lt]; lia.
Qed.

Lemma zero_has_type ty : has_type (zero ty) ty = true.
Proof. destruct ty as [| [] | [] | | | | | | |]; reflexivity. Qed.

(** What a setter stores in a field is a value of the type of the
    field. *)
Lemma assign_typed colType c f x :
  assign colType c f = Ok (Some x) -> has_type x (ftype f) = true.
Proof.
  unfold assign, store.
  destruct c as [s v | i v | fl v | b]; destruct (ftype f) eqn:T;
    destruct (exported f); simpl; try discriminate;
    try destruct v; intros H; inversion H; subst; simpl; try reflexivity.
  all: rewrite bool_decide_eq_true_2 by done; apply wrap_int_in_range.
Qed.

Lemma FieldByName_Some t name f :
  FieldByName t name = Some f -> f ∈ tfields t /\ fname f = name.
Proof.
  unfold FieldByName. destruct (String.eqb name ""); [discriminate |].
  intros H. apply List.find_some in H as [Hin E].
  apply String.eqb_eq in E. split; [by apply list_elem_of_In | done].
Qed.

Lemma distinct_names_determine (fs : list Field) f g :
  NoDup (map fname fs) -> f ∈ fs -> g ∈ fs -> fname f = fname g -> f = g.
Proof.
  induction fs as [| a l IH]; intros N Hf Hg E.
  - by apply elem_of_nil in Hf.
  - simpl in N. apply NoDup_cons in N as [Na N].
    apply elem_of_cons in Hf as [-> | Hf]; apply elem_of_cons in Hg as [-> | Hg].
    + done.
    + exfalso. apply Na. rewrite E. apply list_elem_of_In, in_map.
      by apply list_elem_of_In.
    + exfalso. apply Na. rewrite <- E. apply list_elem_of_In, in_map.
      by apply list_elem_of_In.
    + by apply IH.
Qed.

Lemma field_name_listed (fs : list Field) f : f ∈ fs -> fname f ∈ map fname fs.
Proof. intros H. apply list_elem_of_In, in_map. by apply list_elem_of_In. Qed.

Lemma new_struct_typed t :
  NoDup (map fname (tfields t)) -> typed t (new_struct t).
Proof.
  intros N. unfold new_struct.
  assert (E : forall l : list Field,
             (map (fun f0 => (fname f0, zero (ftype f0))) l).*1 = map fname l).
  { induction l as [| a l IH]; [reflexivity |]. simpl. f_equal. exact IH. }
  split.
  - intros f Hf. exists (zero (ftype f)). split; [| apply zero_has_type].
    apply elem_of_list_to_map_1; [by rewrite E |].
    apply list_elem_of_In.
    apply (in_map (fun f0 => (fname f0, zero (ftype f0)))).
    by apply list_elem_of_In.
  - intros name [x Hx]. apply elem_of_list_to_map_2 in Hx.
    apply list_elem_of_In, in_map_iff in Hx as (f & Ef & Hf).
    inversion Ef; subst. apply field_name_listed. by apply list_elem_of_In.
Qed.

Lemma typed_insert t v f x :
  NoDup (map fname (tfields t)) -> f ∈ tfields t ->
  has_type x (ftype f) = true -> typed t v ->
  typed t (<[fname f := x]> v).
Proof.
  intros N Hf Hx [T1 T2]. split.
  - intros g Hg. destruct (decide (fname f = fname g)) as [E | Ne].
    + assert (f = g) as <- by (by eapply distinct_names_determine).
      exists x. by rewrite lookup_insert_eq.
    + rewrite lookup_insert_ne by done. by apply T1.
  - intros name Hn. destruct (decide (fname f = name)) as [<- | Ne].
    + by apply field_name_listed.
    + rewrite lookup_insert_ne in Hn by done. by apply T2.
Qed.

Lemma assign_columns_typed t m cols :
  NoDup (map fname (tfields t)) -> forall v v',
  typed t v -> assign_columns t m cols v = Ok v' -> typed t v'.
Proof.
  intros N. induction cols as [| [[n ty] c] cols IH]; intros v v' T H;
    simpl in H.
  - by inversion H; subst.
  - destruct (FieldByName t (index m n)) as [f|] eqn:Ef; [| by eapply IH].
    apply FieldByName_Some in Ef as [Hf _].
    destruct (assign ty c f) as [[x|] | e |] eqn:Ea; try discriminate.
    + eapply IH; [| exact H]. apply typed_insert; try done.
      by eapply assign_typed.
    + by eapply IH.
Qed.

Lemma decode_rows_typed cv t m cols ks rws :
  NoDup (map fname (tfields t)) -> forall slice out,
  Forall (typed t) slice ->
  decode_rows cv t m cols ks rws slice = Ok out -> Forall (typed t) out.
Proof.
  intros N. induction rws as [| cells rws IH]; intros slice out T H;
    simpl in H.
  - by inversion H; subst.
  - destruct (decode_row cv t m cols ks cells) as [v | e |] eqn:Er;
      try discriminate.
    eapply IH; [| exact H]. apply Forall_app. split; [done |].
    constructor; [| done]. unfold decode_row in Er.
    destruct (scan_row cv 0 ks cells) as [i | cs]; [discriminate |].
    eapply assign_columns_typed; [done | | exact Er].
    by apply new_struct_typed.
Qed.

(** X22: for a record type whose field names are distinct, every record
    of a call that ends with a nil error is a value of the record type:
    it has exactly the fields of the type, and each field holds a value
    of the type of the field, an integer field one within the range of
    its width.  This holds whatever the result set contains and whatever
    the cache of mappings holds. *)
Theorem decoded_records_typed cv cache d rows :
  NoDup (map fname (tfields (elem d))) ->
  fst (fst (StructsFromRows cv cache (Some d) rows)) = Nil ->
  exists recs,
    snd (fst (StructsFromRows cv cache (Some d) rows)) =
      Some {| elem := elem d; contents := recs |} /\
    Forall (typed (elem d)) recs.
Proof.
  intros N. rewrite StructsFromRows_decode_with. cbn [fst snd].
  unfold decode_with.
  destruct (columnsErr rows); [discriminate |].
  destruct (columnTypesErr rows); [discriminate |].
  destruct (carriers (map snd (columns rows))) as [| ks]; [discriminate |].
  destruct (decode_rows cv (elem d) _ (columns rows) ks (data rows) [])
    as [slice | |] eqn:E; try discriminate.
  intros _. exists slice. split; [done |].
  eapply decode_rows_typed; [done | | exact E]. constructor.
Qed.

Lemma decoded_records_typed_witness :
  exists recs,
    snd (fst (StructsFromRows refusing []
                (Some {| elem := item_type; contents := [] |}) item_rows)) =
      Some {| elem := item_type; contents := recs |} /\
    Forall (typed item_type) recs.
Proof.
  apply (decoded_records_typed refusing []
           {| elem := item_type; contents := [] |} item_rows).
  - apply item_type_mapped.
  - vm_compute. reflexivity.
Defined.

End DecodeFacts.

(** ** Panics of the setters *)

Section HazardFacts.

Import Mapper RoundTrip Typing Hazards.

(** X23: when the assignment of a column to a field panics.  For an
    exported field it does exactly when the carrier holds a value that is
    written through and the field type is one that passes the
    convertibility test but not the kind check of the setter: an integer
    column into an unsigned, floating-point or string field, a float
    column into an integer field, a blob into an interface field.  An
    unexported field is never written: the assignment panics, fails, or
    leaves it alone. *)
Theorem assign_panics_iff colType c f :
  if exported f
  then assign colType c f = Panic <->
       hazard (kind_of c) (ftype f) && written c = true
  else forall x, assign colType c f <> Ok (Some x).
Proof.
  unfold assign, store.
  destruct (exported f).
  - destruct c as [s v | i v | x v | b];
      destruct (ftype f) as [| w | w | | | | | | |]; try destruct v;
      simpl; split; intros H; try discriminate; reflexivity.
  - intros x.
    destruct c as [s v | i v | y v | b];
      destruct (ftype f) as [| w | w | | | | | | |]; try destruct v;
      simpl; discriminate.
Qed.

(** On an exported field only a hazardous pair panics. *)
Lemma panic_is_hazard colType c f :
  exported f = true -> assign colType c f = Panic ->
  hazard (kind_of c) (ftype f) = true.
Proof.
  intros E. unfold assign, store. rewrite E.
  destruct c as [s v | i v | x v | b];
    destruct (ftype f) as [| w | w | | | | | | |]; try destruct v;
    simpl; intros H; try discriminate; reflexivity.
Qed.

Lemma scan_cell_kind cv k d c : scan_cell cv k d = Some c -> kind_of c = k.
Proof.
  unfold scan_cell.
  destruct k, d; simpl; intros H;
    try (inversion H; subst; reflexivity);
    repeat match goal with
           | H : _ <$> ?o = Some _ |- _ => destruct o; simpl in H
           end;
    try discriminate; inversion H; subst; reflexivity.
Qed.

(** The carriers of a scanned row are of the kinds chosen for the column
    types. *)
Lemma scanned_kinds cv (cols : list (string * string)) : forall ks cells cs i,
  carriers (map snd cols) = inr ks ->
  scan_row cv i ks cells = inr cs ->
  Forall (fun p => carrier_for (snd (fst p)) = Some (kind_of (snd p)))
         (zip cols cs).
Proof.
  induction cols as [| [n ty] cols IH]; intros ks cells cs i Hk Hs.
  - constructor.
  - simpl in Hk. destruct (carrier_for ty) as [k|] eqn:Ek; [| discriminate].
    destruct (carriers (map snd cols)) as [| ks'] eqn:Eks; [discriminate |].
    inversion Hk; subst ks. destruct cells as [| d cells]; [discriminate |].
    simpl in Hs. destruct (scan_cell cv k d) as [c|] eqn:Ec; [| discriminate].
    destruct (scan_row cv (S i) ks' cells) as [| cs'] eqn:Es; [discriminate |].
    inversion Hs; subst cs. simpl. constructor.
    + simpl. by rewrite (scan_cell_kind _ _ _ _ Ec).
    + by eapply IH.
Qed.

Section Safe.

Variable t : StructType.
Hypothesis Hnames : NoDup (map fname (tfields t)).
Hypothesis Hexported : forall f, f ∈ tfields t -> exported f = true.

(** The field a column is assigned to declares the column. *)
Lemma assigned_field_declares n f :
  FieldByName t (index (build_mapper t) n) = Some f ->
  f ∈ tfields t /\ ftag f = n.
Proof.
  intros H. apply FieldByName_Some in H as [Hf Hn]. split; [done |].
  unfold index in Hn. destruct (build_mapper t !! n) as [name|] eqn:E.
  - simpl in Hn. subst name. rewrite build_mapper_fold in E.
    apply mapper_fold_Some in E as [(g & Hg & Hgn & _ & Hgf) | E].
    + by rewrite (distinct_names_determine (tfields t) f g Hnames Hf Hg).
    + by rewrite lookup_empty in E.
  - simpl in Hn. pose proof (Hexported f Hf) as Ex. unfold exported in Ex.
    by rewrite Hn in Ex.
Qed.

Lemma assign_columns_no_panic (l : list (string * string * Carrier)) :
  Forall (fun p => carrier_for (snd (fst p)) = Some (kind_of (snd p))) l ->
  (forall f n ty k, f ∈ tfields t -> (n, ty) ∈ map fst l -> ftag f = n ->
                    carrier_for ty = Some k -> hazard k (ftype f) = false) ->
  forall v, assign_columns t (build_mapper t) l v <> Panic.
Proof.
  induction l as [| [[n ty] c] l IH]; intros Hk Hsafe v; [done |].
  apply Forall_cons in Hk as [Hc Hk]. simpl in Hc. simpl.
  assert (Hsafe' : forall f n0 ty0 k, f ∈ tfields t -> (n0, ty0) ∈ map fst l ->
                     ftag f = n0 -> carrier_for ty0 = Some k ->
                     hazard k (ftype f) = false).
  { intros f n0 ty0 k Hf Hin. apply Hsafe; [done |]. by right. }
  destruct (FieldByName t (index (build_mapper t) n)) as [f|] eqn:Ef;
    [| by apply IH].
  apply assigned_field_declares in Ef as [Hf Htag].
  destruct (assign ty c f) as [[x|] | e |] eqn:Ea; try done; try (by apply IH).
  exfalso. pose proof (panic_is_hazard ty c f (Hexported f Hf) Ea) as Hh.
  rewrite (Hsafe f n ty (kind_of c)) in Hh; [done | done | by left | done | done].
Qed.

End Safe.

Lemma zip_fst_subset {A B} (l : list A) (k : list B) x :
  x ∈ map fst (zip l k) -> x ∈ l.
Proof.
  revert k. induction l as [| a l IH]; intros k H; [by destruct k |].
  destruct k as [| b k]; [by apply elem_of_nil in H |].
  simpl in H. apply elem_of_cons in H as [-> | H]; [by left |].
  right. by eapply IH.
Qed.

Lemma decode_rows_no_panic cv t cols ks rws :
  NoDup (map fname (tfields t)) ->
  (forall f, f ∈ tfields t -> exported f = true) ->
  carriers (map snd cols) = inr ks ->
  (forall f n ty k, f ∈ tfields t -> (n, ty) ∈ cols -> ftag f = n ->
                    carrier_for ty = Some k -> hazard k (ftype f) = false) ->
  forall slice, decode_rows cv t (build_mapper t) cols ks rws slice <> Panic.
Proof.
  intros N Ex Hks Hsafe. induction rws as [| cells rws IH]; intros slice;
    [done |].
  simpl. destruct (decode_row cv t (build_mapper t) cols ks cells)
    as [v | e |] eqn:Er; [apply IH | done |].
  exfalso. unfold decode_row in Er.
  destruct (scan_row cv 0 ks cells) as [i | cs] eqn:Es; [discriminate |].
  revert Er. apply assign_columns_no_panic; try done.
  - by eapply scanned_kinds.
  - intros f n ty k Hf Hin. apply Hsafe; [done |]. by eapply zip_fst_subset.
Qed.

(** X24: decoding does not panic when the field names of the record type
    are distinct, its fields are exported, the cache holds the mappings
    built from the types, and no column is of a type that is hazardous
    for the field that declares it.  Whatever the rows contain, the call
    then returns a nil error or an error. *)
Theorem decoding_does_not_panic cv cache d rows :
  NoDup (map fname (tfields (elem d))) ->
  (forall f, f ∈ tfields (elem d) -> exported f = true) ->
  coherent cache ->
  (forall f n ty k, f ∈ tfields (elem d) -> (n, ty) ∈ columns rows ->
                    ftag f = n -> carrier_for ty = Some k ->
                    hazard k (ftype f) = false) ->
  fst (fst (StructsFromRows cv cache (Some d) rows)) <> Panicked.
Proof.
  intros N Ex Hc Hsafe. rewrite StructsFromRows_decode_with. cbn [fst snd].
  rewrite (mapper_for_coherent _ _ Hc). unfold decode_with.
  destruct (columnsErr rows); [done |].
  destruct (columnTypesErr rows); [done |].
  destruct (carriers (map snd (columns rows))) as [| ks] eqn:Ek; [done |].
  pose proof (decode_rows_no_panic cv (elem d) (columns rows) ks (data rows)
                N Ex Ek Hsafe []) as P.
  by destruct (decode_rows cv (elem d) (build_mapper (elem d)) (columns rows)
                 ks (data rows) []).
Qed.

Lemma decoding_does_not_panic_witness :
  fst (fst (StructsFromRows refusing []
              (Some {| elem := item_type; contents := [] |}) item_rows))
  <> Panicked.
Proof.
  apply (decoding_does_not_panic refusing []
           {| elem := item_type; contents := [] |} item_rows).
  - apply item_type_mapped.
  - apply item_type_mapped.
  - exact coherent_nil.
  - intros f n ty k Hf Hin E Hk. simpl in Hf, Hin.
    repeat (apply elem_of_cons in Hin as [Hin | Hin];
            [inversion Hin; subst; clear Hin |]);
      try (by apply elem_of_nil in Hin);
      repeat (apply elem_of_cons in Hf as [Hf | Hf];
              [subst; simpl in *; try discriminate |]);
      try (by apply elem_of_nil in Hf);
      inversion Hk; subst; reflexivity.
Defined.

End HazardFacts.
